(** * Form model: Control, ControlGroup, ControlArray

    A shallow embedding of [modules/angular2/src/forms/model.ts].

    Control objects live in a store indexed by references, because the
    source links them in both directions: a container holds its children
    and every child holds a [_parent] back-reference that the upward walks
    ([_updateParent], [updateValidity]) follow.

    Modelling choices, each visible in a definition below:
    - a [StringMap] is a finite map ([gmap string _]) of its own entries;
      the enumeration order of a JavaScript object is not represented, and
      what plain property access finds on the object's prototype is a
      parameter ([Prototype]), read by [find] alone; a name is the name
      of an ordinary property (assigning to the accessor [__proto__],
      which stores no entry, is not represented);
    - an index of a [ControlArray] is an integer; where the list facade,
      which is not among the sources, is given an index for which the
      specification fixes no behaviour, the model answers [Unspecified];
    - every container owns its [controls] and [_optionals] storage: two
      containers never alias the same map or list object;
    - the recursion of the upward walks is bounded by a fuel argument;
      [OutOfFuel] stands for a walk that has not finished (on a cyclic
      parent chain it never does);
    - the [EventEmitter] of a node is observed through a log of the
      emissions made with [ObservableWrapper.callNext];
    - a validator is a stored value of an abstract type [Fn], applied to a
      node through the class [Callable]; it reads the store and returns an
      error map or nothing, and has no effect of its own. *)

From Stdlib Require Import Ascii.
From stdpp Require Import gmap strings list fin_maps.

Set Default Proof Using "Type".
Local Open Scope string_scope.
Local Open Scope list_scope.

(** ** Values *)

(** The part of JavaScript's [any] the model needs. *)
#[warnings="-register-all"]
Inductive JsVal :=
  | JUndefined
  | JNull
  | JNum (z : Z)
  | JStr (s : string)
  | JBool (b : bool)
  | JObj (m : gmap string JsVal)
  | JArr (l : list JsVal).

(** [export const VALID = "VALID"] and [export const INVALID = "INVALID"]. *)
Definition VALID : string := "VALID".
Definition INVALID : string := "INVALID".

(** Modelled from the spec: [isPresent] of [angular2/src/facade/lang], which
    is not among the sources; a reference is present unless it is absent
    (null or undefined), here [None]. *)
Definition isPresent {A : Type} (o : option A) : bool :=
  match o with
  | Some _ => true
  | None => false
  end.

(** The fields of a JavaScript object literal [{...}] of a [JsVal], and the
    elements of an array; anything else has none. *)
Definition obj_fields (v : JsVal) : gmap string JsVal :=
  match v with
  | JObj m => m
  | _ => ∅
  end.

(** ** Nodes and the store *)

(** What distinguishes the three classes: their child storage. *)
Inductive Kind :=
  | KControl
  | KControlGroup (controls : gmap string nat) (_optionals : gmap string bool)
  | KControlArray (controls : list nat).

(** The fields of [AbstractControl], for a validator type [Fn].  [_status]
    is [None] while the constructor has not assigned it. *)
Record Node (Fn : Type) := mkNode {
  _value : JsVal;
  _status : option string;
  _errors : option (gmap string JsVal);
  _pristine : bool;
  _parent : option nat;
  validator : Fn;
  kind : Kind
}.

Arguments mkNode {Fn} _ _ _ _ _ _ _.
Arguments _value {Fn} _.
Arguments _status {Fn} _.
Arguments _errors {Fn} _.
Arguments _pristine {Fn} _.
Arguments _parent {Fn} _.
Arguments validator {Fn} _.
Arguments kind {Fn} _.

(** Applying a stored validator to the node at a reference, in the current
    store: [this.validator(this)]. *)
Class Callable (Fn : Type) :=
  call : Fn → gmap nat (Node Fn) → nat → option (gmap string JsVal).

(** The store and the emissions recorded so far, oldest first. *)
Record State (Fn : Type) := mkState {
  heap : gmap nat (Node Fn);
  emitted : list (nat * JsVal)
}.

Arguments mkState {Fn} _ _.
Arguments heap {Fn} _.
Arguments emitted {Fn} _.

(** ** The monad of the operations *)

(** [TypeError]: a method is called on an object that does not have it, or
    a reference does not denote a control object.  [Unspecified] is no
    exception of the code: it marks a call whose outcome neither the
    sources nor the specification determine. *)
Inductive Error :=
  | TypeError
  | Unspecified.

(** Plain property access [o[name]] on a string map finds the map's own
    entries and, for some names, what the object inherits from its
    prototype (for an object literal, the properties of
    [Object.prototype]).  Which names those are belongs to the runtime
    and is a parameter of the model. *)
Definition Prototype : Type := string → bool.

(** What [find] can return: a control of the store, or the inherited
    property that plain access found under a name. *)
Inductive Found :=
  | FControl (r : nat)
  | FInherited (name : string).

Inductive Result (A : Type) :=
  | Ok (a : A)
  | Raise (e : Error)
  | OutOfFuel.

Arguments Ok {A} _.
Arguments Raise {A} _.
Arguments OutOfFuel {A}.

Definition M (Fn A : Type) : Type := State Fn → Result (A * State Fn).

Definition ret {Fn A} (a : A) : M Fn A := λ s, Ok (a, s).

Definition bind {Fn A B} (m : M Fn A) (k : A → M Fn B) : M Fn B :=
  λ s, match m s with
       | Ok (a, s') => k a s'
       | Raise e => Raise e
       | OutOfFuel => OutOfFuel
       end.

Definition raise {Fn A} (e : Error) : M Fn A := λ _, Raise e.

Definition out_of_fuel {Fn A} : M Fn A := λ _, OutOfFuel.

#[global] Instance M_ret {Fn} : MRet (M Fn) := λ A a, ret a.
#[global] Instance M_bind {Fn} : MBind (M Fn) := λ A B k m, bind m k.

(** The state an operation returns in, when it does. *)
Definition state_of {Fn A} (r : Result (A * State Fn)) : option (State Fn) :=
  match r with
  | Ok (_, s) => Some s
  | _ => None
  end.

Section Model.
Context {Fn : Type} `{!Callable Fn}.

Definition get_heap : M Fn (gmap nat (Node Fn)) := λ s, Ok (heap s, s).

Definition get_node (r : nat) : M Fn (Node Fn) :=
  λ s, match heap s !! r with
       | Some n => Ok (n, s)
       | None => Raise TypeError
       end.

(** Assignment to fields of the object at [r]. *)
Definition update_node (r : nat) (f : Node Fn → Node Fn) : M Fn unit :=
  λ s, match heap s !! r with
       | Some n => Ok (tt, mkState (<[r := f n]> (heap s)) (emitted s))
       | None => Raise TypeError
       end.

Definition set_value (v : JsVal) (n : Node Fn) : Node Fn :=
  mkNode v (_status n) (_errors n) (_pristine n) (_parent n) (validator n) (kind n).
Definition set_status (st : option string) (n : Node Fn) : Node Fn :=
  mkNode (_value n) st (_errors n) (_pristine n) (_parent n) (validator n) (kind n).
Definition set_errors (e : option (gmap string JsVal)) (n : Node Fn) : Node Fn :=
  mkNode (_value n) (_status n) e (_pristine n) (_parent n) (validator n) (kind n).
Definition set_pristine (b : bool) (n : Node Fn) : Node Fn :=
  mkNode (_value n) (_status n) (_errors n) b (_parent n) (validator n) (kind n).
Definition set_parent (p : option nat) (n : Node Fn) : Node Fn :=
  mkNode (_value n) (_status n) (_errors n) (_pristine n) p (validator n) (kind n).
Definition set_kind (k : Kind) (n : Node Fn) : Node Fn :=
  mkNode (_value n) (_status n) (_errors n) (_pristine n) (_parent n) (validator n) k.

(** [new]: a fresh object.  [AbstractControl]'s constructor stores the
    validator and sets [_pristine = true]; no other field is assigned
    yet. *)
Definition alloc (n : Node Fn) : M Fn nat :=
  λ s, let r := fresh (dom (heap s)) in
       Ok (r, mkState (<[r := n]> (heap s)) (emitted s)).

Definition AbstractControl_constructor (validator : Fn) (k : Kind) : M Fn nat :=
  alloc (mkNode JUndefined None None true None validator k).

(** One emission on the change channel of the node at [r]. *)
Definition emit (r : nat) (v : JsVal) : M Fn unit :=
  λ s, Ok (tt, mkState (heap s) (emitted s ++ [(r, v)])).

(** [ObservableWrapper.callNext(this._valueChanges, this._value)]. *)
Definition callNext_valueChanges (this : nat) : M Fn unit :=
  n ← get_node this;
  emit this (_value n).

(** *** AbstractControl *)

(** The getter [value] of a child, read from the store. *)
Definition value_of (h : gmap nat (Node Fn)) (c : nat) : JsVal :=
  match h !! c with
  | Some n => _value n
  | None => JUndefined
  end.

(** [set value(v) { this._value = v; }] *)
Definition AbstractControl_set_value (this : nat) (v : JsVal) : M Fn unit :=
  update_node this (set_value v).

(** [setParent(parent) { this._parent = parent; }] *)
Definition AbstractControl_setParent (this parent : nat) : M Fn unit :=
  update_node this (set_parent (Some parent)).

(** [this._errors = this.validator(this);
     this._status = isPresent(this._errors) ? INVALID : VALID;] *)
Definition run_validator (this : nat) : M Fn unit :=
  n ← get_node this;
  h ← get_heap;
  update_node this (set_errors (call (validator n) h this)) ;;
  n' ← get_node this;
  update_node this
    (set_status (Some (if isPresent (_errors n') then INVALID else VALID))).

(** [updateValidity()] *)
Fixpoint AbstractControl_updateValidity (fuel : nat) (this : nat) : M Fn unit :=
  match fuel with
  | O => out_of_fuel
  | S fuel' =>
      run_validator this ;;
      n ← get_node this;
      match _parent n with
      | Some parent => AbstractControl_updateValidity fuel' parent
      | None => ret tt
      end
  end.

(** [_updateParent()], given the parent's [_updateValue]. *)
Definition AbstractControl__updateParent
    (_updateValue : nat → M Fn unit) (this : nat) : M Fn unit :=
  n ← get_node this;
  match _parent n with
  | Some parent => _updateValue parent
  | None => ret tt
  end.

(** *** Control *)

(** [Control._setValueErrorsStatus(value)] *)
Definition Control__setValueErrorsStatus (this : nat) (value : JsVal) : M Fn unit :=
  update_node this (set_value value) ;;
  run_validator this.

(** *** ControlGroup *)

(** [_included(controlName)] *)
Definition ControlGroup__included
    (_optionals : gmap string bool) (controlName : string) : bool :=
  let isOptional := bool_decide (is_Some (_optionals !! controlName)) in
  negb isOptional || default false (_optionals !! controlName).

(** [_reduceChildren(initValue, fn)]: a fold over the entries of
    [controls] that skips the excluded ones. *)
Definition ControlGroup__reduceChildren {A : Type}
    (controls : gmap string nat) (_optionals : gmap string bool)
    (initValue : A) (fn : A → nat → string → A) : A :=
  map_fold
    (λ name control res,
       if ControlGroup__included _optionals name then fn res control name else res)
    initValue controls.

(** [_reduceValue()] *)
Definition ControlGroup__reduceValue (h : gmap nat (Node Fn))
    (controls : gmap string nat) (_optionals : gmap string bool) : JsVal :=
  JObj (ControlGroup__reduceChildren controls _optionals ∅
          (λ acc control name, <[name := value_of h control]> acc)).

(** [contains(controlName)] *)
Definition ControlGroup_contains (h : gmap nat (Node Fn)) (this : nat)
    (controlName : string) : bool :=
  match kind <$> h !! this with
  | Some (KControlGroup controls _optionals) =>
      let c := bool_decide (is_Some (controls !! controlName)) in
      c && ControlGroup__included _optionals controlName
  | _ => false
  end.

(** *** The value a container computes from its children *)

(** [ControlGroup._reduceValue()] or, for an array,
    [ListWrapper.map(this.controls, (c) => c.value)]. *)
Definition aggregate (h : gmap nat (Node Fn)) (k : Kind) : option JsVal :=
  match k with
  | KControl => None
  | KControlGroup controls _optionals =>
      Some (ControlGroup__reduceValue h controls _optionals)
  | KControlArray controls => Some (JArr (value_of h <$> controls))
  end.

(** [_setValueErrorsStatus()] of [ControlGroup] and of [ControlArray];
    a [Control] has no method of this signature that [_updateValue]
    could reach. *)
Definition Container__setValueErrorsStatus (this : nat) : M Fn unit :=
  n ← get_node this;
  h ← get_heap;
  match aggregate h (kind n) with
  | Some v =>
      update_node this (set_value v) ;;
      run_validator this
  | None => raise TypeError
  end.

(** [_updateValue()], the same text in [ControlGroup] and [ControlArray];
    the receiver's class selects [_setValueErrorsStatus].  [Control] has
    no [_updateValue]: reaching one through [_parent] is a [TypeError]. *)
Fixpoint Container__updateValue (fuel : nat) (this : nat) : M Fn unit :=
  match fuel with
  | O => out_of_fuel
  | S fuel' =>
      Container__setValueErrorsStatus this ;;
      update_node this (set_pristine false) ;;
      callNext_valueChanges this ;;
      AbstractControl__updateParent (Container__updateValue fuel') this
  end.

(** [Control.updateValue(value)] *)
Definition Control_updateValue (fuel : nat) (this : nat) (value : JsVal) : M Fn unit :=
  n ← get_node this;
  match kind n with
  | KControl =>
      Control__setValueErrorsStatus this value ;;
      update_node this (set_pristine false) ;;
      callNext_valueChanges this ;;
      AbstractControl__updateParent (Container__updateValue fuel) this
  | _ => raise TypeError
  end.

(** [new Control(value, validator)] *)
Definition new_Control (value : JsVal) (validator : Fn) : M Fn nat :=
  this ← AbstractControl_constructor validator KControl;
  Control__setValueErrorsStatus this value ;;
  ret this.

(** *** ControlGroup, continued *)

(** The children a container holds, in one list. *)
Definition children (k : Kind) : list nat :=
  match k with
  | KControl => []
  | KControlGroup controls _ => (map_to_list controls).*2
  | KControlArray controls => controls
  end.

(** The [controls] of a node that is a [ControlGroup]: what [find]
    reads of a node. *)
Definition group_controls (k : Kind) : option (gmap string nat) :=
  match k with
  | KControlGroup controls _ => Some controls
  | _ => None
  end.

(** [_setParentForControls()]: [control.setParent(this)] for every
    child, of a group ([StringMapWrapper.forEach]) or of an array
    ([ListWrapper.forEach]). *)
Definition Container__setParentForControls (this : nat) : M Fn unit :=
  n ← get_node this;
  foldr (λ control rest, AbstractControl_setParent control this;; rest)
        (ret tt) (children (kind n)).

(** [new ControlGroup(controls, optionals, validator)];
    [this._optionals = isPresent(optionals) ? optionals : {}]. *)
Definition new_ControlGroup (controls : gmap string nat)
    (optionals : option (gmap string bool)) (validator : Fn) : M Fn nat :=
  this ← AbstractControl_constructor validator
           (KControlGroup controls
              (if isPresent optionals then default ∅ optionals else ∅));
  Container__setParentForControls this;;
  Container__setValueErrorsStatus this;;
  ret this.

(** The [controls] and [_optionals] of a receiver that must be a
    [ControlGroup]. *)
Definition as_ControlGroup (this : nat)
    : M Fn (gmap string nat * gmap string bool) :=
  n ← get_node this;
  match kind n with
  | KControlGroup controls _optionals => ret (controls, _optionals)
  | _ => raise TypeError
  end.

(** [addControl(name, c) { this.controls[name] = c; }] *)
Definition ControlGroup_addControl (this : nat) (name : string) (c : nat) : M Fn unit :=
  g ← as_ControlGroup this;
  update_node this (set_kind (KControlGroup (<[name := c]> g.1) g.2)).

(** [removeControl(name) { StringMapWrapper.delete(this.controls, name); }] *)
Definition ControlGroup_removeControl (this : nat) (name : string) : M Fn unit :=
  g ← as_ControlGroup this;
  update_node this (set_kind (KControlGroup (delete name g.1) g.2)).

(** [include(controlName)] *)
Definition ControlGroup_include (fuel : nat) (this : nat) (controlName : string) : M Fn unit :=
  g ← as_ControlGroup this;
  update_node this (set_kind (KControlGroup g.1 (<[controlName := true]> g.2)));;
  Container__updateValue fuel this.

(** [exclude(controlName)] *)
Definition ControlGroup_exclude (fuel : nat) (this : nat) (controlName : string) : M Fn unit :=
  g ← as_ControlGroup this;
  update_node this (set_kind (KControlGroup g.1 (<[controlName := false]> g.2)));;
  Container__updateValue fuel this.

(** [controls[name]]: the own entry, or else what the prototype has
    under the name. *)
Definition plain_get (proto : Prototype) (controls : gmap string nat)
    (name : string) : option Found :=
  match controls !! name with
  | Some c => Some (FControl c)
  | None => if proto name then Some (FInherited name) else None
  end.

(** One step of the reduction in [find]:
    [v instanceof ControlGroup && isPresent(v.controls[name])
       ? v.controls[name] : null]. *)
Definition find_step (proto : Prototype) (h : gmap nat (Node Fn))
    (v : option Found) (name : string) : option Found :=
  match v with
  | Some (FControl r) =>
      match kind <$> h !! r with
      | Some (KControlGroup controls _) =>
          if isPresent (plain_get proto controls name)
          then plain_get proto controls name else None
      | _ => None
      end
  | _ => None
  end.

(** *** ControlArray *)

(** [new ControlArray(controls, validator)] *)
Definition new_ControlArray (controls : list nat) (validator : Fn) : M Fn nat :=
  this ← AbstractControl_constructor validator (KControlArray controls);
  Container__setParentForControls this;;
  Container__setValueErrorsStatus this;;
  ret this.

Definition as_ControlArray (this : nat) : M Fn (list nat) :=
  n ← get_node this;
  match kind n with
  | KControlArray controls => ret controls
  | _ => raise TypeError
  end.

(** [at(index)]: [this.controls[index]]; [None] is JavaScript's
    [undefined], which indexing an array gives for a negative index and
    past the end (and here also the answer on a receiver that is no
    [ControlArray]). *)
Definition ControlArray_at (h : gmap nat (Node Fn)) (this : nat) (index : Z) : option nat :=
  match kind <$> h !! this with
  | Some (KControlArray controls) =>
      if bool_decide (0 ≤ index)%Z then controls !! Z.to_nat index else None
  | _ => None
  end.

(** [get length()] *)
Definition ControlArray_length (h : gmap nat (Node Fn)) (this : nat) : option nat :=
  match kind <$> h !! this with
  | Some (KControlArray controls) => Some (length controls)
  | _ => None
  end.

End Model.

(** Modelled from the spec: [ListWrapper.insert] and [ListWrapper.removeAt]
    of [angular2/src/facade/collection], which is not among the sources:
    "inserts at position, shifting subsequent children" and "removes the
    child at position, shifting subsequent children down".  For an index
    that is no position of the list (negative, beyond the end for
    insertion, at or beyond the end for removal) the specification fixes
    no behaviour, and the model gives no list ([None]). *)
Definition ListWrapper_insert {A : Type} (l : list A) (index : Z) (value : A)
    : option (list A) :=
  if bool_decide (0 ≤ index ≤ Z.of_nat (length l))%Z
  then Some (take (Z.to_nat index) l ++ value :: drop (Z.to_nat index) l)
  else None.

Definition ListWrapper_removeAt {A : Type} (l : list A) (index : Z) : option (list A) :=
  if bool_decide (0 ≤ index < Z.of_nat (length l))%Z
  then Some (delete (Z.to_nat index) l)
  else None.

(** Modelled from the spec: [StringWrapper.split(path, new RegExp("/"))] of
    [angular2/src/facade/lang], which is not among the sources: the pieces
    of a string between its ["/"] characters. *)
Fixpoint StringWrapper_split_slash (s : string) : list string :=
  match s with
  | EmptyString => [EmptyString]
  | String c rest =>
      if Ascii.eqb c "/"%char then EmptyString :: StringWrapper_split_slash rest
      else match StringWrapper_split_slash rest with
           | piece :: pieces => String c piece :: pieces
           | [] => [String c EmptyString]
           end
  end.

(** The argument of [find]: [string | List<string>]. *)
Inductive Path :=
  | PathList (l : list string)
  | PathString (s : string).

(** The public operations that change the store. *)
Inductive Op (Fn : Type) :=
  | NewControl (value : JsVal) (validator : Fn)
  | NewControlGroup (controls : gmap string nat)
      (optionals : option (gmap string bool)) (validator : Fn)
  | NewControlArray (controls : list nat) (validator : Fn)
  | SetValue (this : nat) (v : JsVal)
  | SetParent (this parent : nat)
  | UpdateValidity (this : nat)
  | UpdateValue (this : nat) (value : JsVal)
  | AddControl (this : nat) (name : string) (c : nat)
  | RemoveControl (this : nat) (name : string)
  | Include (this : nat) (controlName : string)
  | Exclude (this : nat) (controlName : string)
  | Push (this control : nat)
  | Insert (this : nat) (index : Z) (control : nat)
  | RemoveAt (this : nat) (index : Z).

Arguments NewControl {Fn} _ _.
Arguments NewControlGroup {Fn} _ _ _.
Arguments NewControlArray {Fn} _ _.
Arguments SetValue {Fn} _ _.
Arguments SetParent {Fn} _ _.
Arguments UpdateValidity {Fn} _.
Arguments UpdateValue {Fn} _ _.
Arguments AddControl {Fn} _ _ _.
Arguments RemoveControl {Fn} _ _.
Arguments Include {Fn} _ _.
Arguments Exclude {Fn} _ _.
Arguments Push {Fn} _ _.
Arguments Insert {Fn} _ _ _.
Arguments RemoveAt {Fn} _ _.

Section Operations.
Context {Fn : Type} `{!Callable Fn}.

(** [find(path)], a method of [ControlGroup]: on another receiver the
    call is a [TypeError]. *)
Definition ControlGroup_find (proto : Prototype) (h : gmap nat (Node Fn)) (this : nat)
    (path : Path) : Result (option Found) :=
  match kind <$> h !! this with
  | Some (KControlGroup _ _) =>
      let path :=
        match path with
        | PathList l => l
        | PathString s => StringWrapper_split_slash s
        end in
      Ok (foldl (find_step proto h) (Some (FControl this)) path)
  | _ => Raise TypeError
  end.

(** [push(control)] *)
Definition ControlArray_push (fuel : nat) (this control : nat) : M Fn unit :=
  controls ← as_ControlArray this;
  update_node this (set_kind (KControlArray (controls ++ [control])));;
  AbstractControl_setParent control this;;
  Container__updateValue fuel this.

(** [insert(index, control)] *)
Definition ControlArray_insert (fuel : nat) (this : nat) (index : Z) (control : nat)
    : M Fn unit :=
  controls ← as_ControlArray this;
  match ListWrapper_insert controls index control with
  | Some controls' =>
      update_node this (set_kind (KControlArray controls'));;
      AbstractControl_setParent control this;;
      Container__updateValue fuel this
  | None => raise Unspecified
  end.

(** [removeAt(index)] *)
Definition ControlArray_removeAt (fuel : nat) (this : nat) (index : Z) : M Fn unit :=
  controls ← as_ControlArray this;
  match ListWrapper_removeAt controls index with
  | Some controls' =>
      update_node this (set_kind (KControlArray controls'));;
      Container__updateValue fuel this
  | None => raise Unspecified
  end.

(** One public operation, with the fuel its upward walk may use. *)
Definition run_op (fuel : nat) (op : Op Fn) : M Fn unit :=
  match op with
  | NewControl value validator => new_Control value validator;; ret tt
  | NewControlGroup controls optionals validator =>
      new_ControlGroup controls optionals validator;; ret tt
  | NewControlArray controls validator => new_ControlArray controls validator;; ret tt
  | SetValue this v => AbstractControl_set_value this v
  | SetParent this parent => AbstractControl_setParent this parent
  | UpdateValidity this => AbstractControl_updateValidity fuel this
  | UpdateValue this value => Control_updateValue fuel this value
  | AddControl this name c => ControlGroup_addControl this name c
  | RemoveControl this name => ControlGroup_removeControl this name
  | Include this controlName => ControlGroup_include fuel this controlName
  | Exclude this controlName => ControlGroup_exclude fuel this controlName
  | Push this control => ControlArray_push fuel this control
  | Insert this index control => ControlArray_insert fuel this index control
  | RemoveAt this index => ControlArray_removeAt fuel this index
  end.

(** A sequence of operations, each run to completion before the next. *)
Fixpoint run_ops (fuel : nat) (ops : list (Op Fn)) : M Fn unit :=
  match ops with
  | [] => ret tt
  | op :: ops' => run_op fuel op;; run_ops fuel ops'
  end.

(** The state before any object exists. *)
Definition initial : State Fn := mkState ∅ [].

End Operations.

(** ** The shape of a store: parent links and child storage

    Neither upward walk assigns [_parent], [controls] or [_optionals], so
    what the walks visit is decided by the shape alone. *)

Definition shape {Fn : Type} (h : gmap nat (Node Fn)) : gmap nat (option nat * Kind) :=
  (λ n, (_parent n, kind n)) <$> h.

Definition is_container (k : Kind) : bool :=
  match k with
  | KControl => false
  | _ => true
  end.

(** [chain sh r l]: following [_parent] from [r] visits exactly the nodes
    of [l], in this order, and ends at a node without parent. *)
Inductive chain (sh : gmap nat (option nat * Kind)) : nat → list nat → Prop :=
  | chain_root r k :
      sh !! r = Some (None, k) → chain sh r []
  | chain_step r p k l :
      sh !! r = Some (Some p, k) → chain sh p l → chain sh r (p :: l).

(** Every node of a list is a [ControlGroup] or a [ControlArray]. *)
Definition containers (sh : gmap nat (option nat * Kind)) (l : list nat) : Prop :=
  Forall (λ x, is_container <$> (snd <$> sh !! x) = Some true) l.

(** [holds sh q x]: the container [q] has [x] among its children. *)
Definition holds (sh : gmap nat (option nat * Kind)) (q x : nat) : Prop :=
  ∃ p k, sh !! q = Some (p, k) ∧ x ∈ children k.

(** The nodes below a node. *)
Inductive desc (sh : gmap nat (option nat * Kind)) : nat → nat → Prop :=
  | desc_child a c : holds sh a c → desc sh a c
  | desc_below a c x : holds sh a c → desc sh c x → desc sh a x.

(** A tree: every child a container holds is an object of the store whose
    [_parent] is that container. *)
Definition wf_parents (sh : gmap nat (option nat * Kind)) : Prop :=
  map_Forall
    (λ q pk, Forall (λ x, fst <$> sh !! x = Some (Some q)) (children pk.2)) sh.

(** Every container that holds a node of [l] is the parent of that node. *)
Definition held_by_parent (sh : gmap nat (option nat * Kind)) (l : list nat) : Prop :=
  ∀ x q, x ∈ l → holds sh q x → ∃ k, sh !! x = Some (Some q, k).

Section Properties.
Context {Fn : Type} `{!Callable Fn}.

(** *** Closed forms of the steps of the walks *)

Definition status_for (e : option (gmap string JsVal)) : option string :=
  Some (if isPresent e then INVALID else VALID).

(** The node after [this._errors = this.validator(this); this._status = ...]. *)
Definition validated (h : gmap nat (Node Fn)) (this : nat) (n : Node Fn) : Node Fn :=
  let e := call (validator n) h this in
  set_status (status_for e) (set_errors e n).

(** The state after the node at [this] ran the body of [updateValidity]
    up to the call on its parent. *)
Definition revalidate_at (s : State Fn) (this : nat) : State Fn :=
  match heap s !! this with
  | Some n => mkState (<[this := validated (heap s) this n]> (heap s)) (emitted s)
  | None => s
  end.

(** The node of a container after [_setValueErrorsStatus(); _pristine = false]. *)
Definition recomputed (h : gmap nat (Node Fn)) (this : nat) (v : JsVal) (n : Node Fn) : Node Fn :=
  set_pristine false
    (validated (<[this := set_value v n]> h) this (set_value v n)).

(** The state after the container at [this] ran the body of
    [_updateValue] up to [_updateParent()]. *)
Definition recompute_at (s : State Fn) (this : nat) : State Fn :=
  match heap s !! this with
  | Some n =>
      match aggregate (heap s) (kind n) with
      | Some v =>
          mkState (<[this := recomputed (heap s) this v n]> (heap s))
                  (emitted s ++ [(this, v)])
      | None => s
      end
  | None => s
  end.

(** The state after the leaf at [this] ran the body of [updateValue]
    up to [_updateParent()]. *)
Definition assign_at (s : State Fn) (this : nat) (value : JsVal) : State Fn :=
  match heap s !! this with
  | Some n =>
      mkState (<[this := recomputed (heap s) this value n]> (heap s))
              (emitted s ++ [(this, value)])
  | None => s
  end.

(** The state after the assignment of new child storage to [this]. *)
Definition restructured (s : State Fn) (this : nat) (n : Node Fn) (k : Kind) : State Fn :=
  mkState (<[this := set_kind k n]> (heap s)) (emitted s).

(** The state after [control.setParent(this)]. *)
Definition reparented (s : State Fn) (control this : nat) (nc : Node Fn) : State Fn :=
  mkState (<[control := set_parent (Some this) nc]> (heap s)) (emitted s).

(** *** The invariants of the specification *)

(** I1, with the two status constants. *)
Definition status_ok (n : Node Fn) : Prop :=
  (_status n = Some INVALID ↔ is_Some (_errors n)) ∧
  (_status n = Some VALID ∨ _status n = Some INVALID).

(** I2 at one node: a container's value is what its children's values
    aggregate to. *)
Definition value_consistent (h : gmap nat (Node Fn)) (r : nat) : Prop :=
  ∀ n v, h !! r = Some n → aggregate h (kind n) = Some v → _value n = v.

Definition heap_consistent (h : gmap nat (Node Fn)) : Prop :=
  ∀ r, value_consistent h r.

(** The status of the node at [r] is what its validator yields when it
    is invoked again on the store as it is. *)
Definition status_fresh (h : gmap nat (Node Fn)) (r : nat) : Prop :=
  ∀ n, h !! r = Some n → _status n = status_for (call (validator n) h r).

(** The status of a child, read from the store. *)
Definition status_at (h : gmap nat (Node Fn)) (c : nat) : option string :=
  h !! c ≫= _status.

(** A validator that reads nothing but the value and the child storage of
    the node it is given and the nodes below it: not the node's own
    [errors], [status] or [pristine], and nothing of its ancestors. *)
Definition reads_subtree_only (f : Fn) : Prop :=
  ∀ (h h' : gmap nat (Node Fn)) a n n',
    h !! a = Some n → h' !! a = Some n' →
    _value n = _value n' → kind n = kind n' →
    (∀ x, desc (shape h) a x → h !! x = h' !! x) →
    call f h a = call f h' a.

(** Modelled from the spec: the default policy of a group's validator
    ([Validators.group] of [validators.ts], which is not among the
    sources): "the group is invalid iff at least one included child is
    invalid". *)
Definition some_included_child_invalid (h : gmap nat (Node Fn))
    (controls : gmap string nat) (_optionals : gmap string bool) : Prop :=
  ∃ name c, controls !! name = Some c ∧
            ControlGroup__included _optionals name = true ∧
            status_at h c = Some INVALID.

Definition group_policy (f : Fn) : Prop :=
  ∀ (h : gmap nat (Node Fn)) this n controls _optionals,
    h !! this = Some n → kind n = KControlGroup controls _optionals →
    (is_Some (call f h this) ↔ some_included_child_invalid h controls _optionals).

(** P2 between two states: every object of the first is an object of the
    second, and is dirty there if it was dirty. *)
Definition pristine_kept (s0 s : State Fn) : Prop :=
  ∀ r n, heap s0 !! r = Some n →
    ∃ n', heap s !! r = Some n' ∧ (_pristine n = false → _pristine n' = false).

(** [r] is no object of [s0], and in [s] it is an object with
    [pristine = true]: what a constructor returns. *)
Definition fresh_pristine (s0 : State Fn) (r : nat) (s : State Fn) : Prop :=
  heap s0 !! r = None ∧ ∃ n, heap s !! r = Some n ∧ _pristine n = true.

(** I1 at every object of the store but the one under construction. *)
Definition status_ok_but (x : option nat) (s : State Fn) : Prop :=
  ∀ r n, heap s !! r = Some n → x ≠ Some r → status_ok n.

(** An assignment that leaves [errors] and [status] alone and does not
    make a dirty node pristine. *)
Definition benign (f : Node Fn → Node Fn) : Prop :=
  ∀ n, _status (f n) = _status n ∧ _errors (f n) = _errors n ∧
       (_pristine n = false → _pristine (f n) = false).

(** Partial correctness of a computation: if it returns from a state
    where [P] holds, [Q] holds of the result and the state it returns in. *)
Definition hoare {A : Type} (P : State Fn → Prop) (m : M Fn A)
    (Q : A → State Fn → Prop) : Prop :=
  ∀ s, P s → match m s with
             | Ok (a, s') => Q a s'
             | _ => True
             end.

(** The mutations that run the recomputation of value and validity. *)
Definition recomputing (op : Op Fn) : bool :=
  match op with
  | UpdateValue _ _ | Include _ _ | Exclude _ _
  | Push _ _ | Insert _ _ _ | RemoveAt _ _ => true
  | _ => false
  end.

(** Two nodes that differ in [errors] and [status] at most. *)
Definition same_but_validity (n n' : Node Fn) : Prop :=
  _value n' = _value n ∧ _pristine n' = _pristine n ∧ _parent n' = _parent n ∧
  validator n' = validator n ∧ kind n' = kind n.

End Properties.

(** ** Notions the further properties are stated with *)

(** What an operation must be given to leave a tree a tree: a
    constructor, children without parent; [push] and [insert], a child
    that no other container holds; [addControl], which does not set the
    parent link, a child whose parent is the group already.  [setParent]
    on its own never qualifies. *)
Definition keeps_tree {Fn : Type} (h : gmap nat (Node Fn)) (op : Op Fn) : Prop :=
  match op with
  | NewControlGroup controls _ _ =>
      ∀ name c, controls !! name = Some c → ∃ nc, h !! c = Some nc ∧ _parent nc = None
  | NewControlArray controls _ =>
      ∀ c, c ∈ controls → ∃ nc, h !! c = Some nc ∧ _parent nc = None
  | Push this c | Insert this _ c => ∀ q, holds (shape h) q c → q = this
  | AddControl this _ c => ∃ nc, h !! c = Some nc ∧ _parent nc = Some this
  | SetParent _ _ => False
  | _ => True
  end.

(** Property access along a path in a value: [v.a.b]. *)
Fixpoint value_at (v : JsVal) (path : list string) : option JsVal :=
  match path with
  | [] => Some v
  | name :: rest => obj_fields v !! name ≫= λ w, value_at w rest
  end.

(** Every name of a path from [this] is contained in the group the path
    has reached. *)
Fixpoint visible {Fn : Type} (proto : Prototype) (h : gmap nat (Node Fn)) (this : nat)
    (path : list string) : bool :=
  match path with
  | [] => true
  | name :: rest =>
      ControlGroup_contains h this name &&
      match find_step proto h (Some (FControl this)) name with
      | Some (FControl c) => visible proto h c rest
      | _ => false
      end
  end.

(** The object a mutation is called on. *)
Definition receiver {Fn : Type} (op : Op Fn) : nat :=
  match op with
  | SetValue this _ | SetParent this _ | UpdateValidity this | UpdateValue this _
  | AddControl this _ _ | RemoveControl this _ | Include this _ | Exclude this _
  | Push this _ | Insert this _ _ | RemoveAt this _ => this
  | _ => 0
  end.

(** ** Validators and trees of the scenarios *)

(** The names under which an object literal inherits a property from
    [Object.prototype] (ECMAScript 5.1, 15.2.4): the prototype of the
    [controls] objects of the scenarios. *)
Definition Object_prototype : Prototype := λ name,
  bool_decide (name ∈ ["constructor"; "toString"; "toLocaleString"; "valueOf";
                       "hasOwnProperty"; "isPrototypeOf"; "propertyIsEnumerable"]).

(** Modelled from the spec: the validators the scenarios use
    ([validators.ts] is not among the sources): one that accepts every
    value, "reject if null", "invalid if any child invalid" for a
    container. *)
Inductive TestFn :=
  | accept_all
  | reject_if_null
  | any_child_invalid.

#[global] Instance TestFn_call : Callable TestFn := λ f h this,
  match f with
  | accept_all => None
  | reject_if_null =>
      match _value <$> h !! this with
      | Some JNull => Some {[ "required" := JBool true ]}
      | _ => None
      end
  | any_child_invalid =>
      match kind <$> h !! this with
      | Some (KControlGroup controls _optionals) =>
          if bool_decide
               (map_Exists (λ name c, ControlGroup__included _optionals name = true ∧
                                      h !! c ≫= _status = Some INVALID) controls)
          then Some {[ "invalid" := JBool true ]} else None
      | Some (KControlArray controls) =>
          if bool_decide (Exists (λ c, h !! c ≫= _status = Some INVALID) controls)
          then Some {[ "invalid" := JBool true ]} else None
      | _ => None
      end
  end.

(** A validator that reads the [pristine] flag of the node it is given:
    it rejects a node nobody has touched yet. *)
Inductive PristineFn := reject_pristine.

#[global] Instance PristineFn_call : Callable PristineFn := λ f h this,
  match _pristine <$> h !! this with
  | Some true => Some {[ "pristine" := JBool true ]}
  | _ => None
  end.

(** A leaf (0) inside a group (1), both with that validator. *)
Definition untouched_ops : list (Op PristineFn) :=
  [ NewControl (JNum 1) reject_pristine;
    NewControlGroup {[ "a" := 0 ]} None reject_pristine ].

Definition untouched : State PristineFn :=
  default initial (state_of (run_ops 1 untouched_ops initial)).

(** Scenario B: [new ControlGroup({a: new Control(1), b: new Control(null, required)})];
    the objects get the references 0, 1 and 2 in the order of their
    construction. *)
Definition scenario_B_ops : list (Op TestFn) :=
  [ NewControl (JNum 1) accept_all;
    NewControl JNull reject_if_null;
    NewControlGroup {[ "a" := 0; "b" := 1 ]} None any_child_invalid ].

Definition scenario_B : State TestFn :=
  default initial (state_of (run_ops 1 scenario_B_ops initial)).

(** Scenario B after [updateValue(2)] on the leaf [a]. *)
Definition scenario_B_dirty : State TestFn :=
  default initial
    (state_of (run_ops 1 (scenario_B_ops ++ [UpdateValue 0 (JNum 2)]) initial)).

(** Scenario B and one more leaf (3) that is not yet part of the group. *)
Definition scenario_B_extra : State TestFn :=
  default initial
    (state_of (run_ops 1 (scenario_B_ops ++ [NewControl (JNum 9) accept_all]) initial)).

(** A leaf (0) inside a group (1) inside a group (2). *)
Definition three_levels_ops : list (Op TestFn) :=
  [ NewControl (JNum 1) accept_all;
    NewControlGroup {[ "a" := 0 ]} None any_child_invalid;
    NewControlGroup {[ "b" := 1 ]} None any_child_invalid ].

Definition three_levels : State TestFn :=
  default initial (state_of (run_ops 1 three_levels_ops initial)).

(** Scenarios D and E: [new ControlArray([new Control(1), new Control(2)])],
    and a third leaf (3) that is not yet part of it. *)
Definition scenario_D_ops : list (Op TestFn) :=
  [ NewControl (JNum 1) accept_all;
    NewControl (JNum 2) accept_all;
    NewControlArray [0; 1] any_child_invalid;
    NewControl (JNum 3) accept_all ].

Definition scenario_D : State TestFn :=
  default initial (state_of (run_ops 1 scenario_D_ops initial)).

(** Scenario F: a root group (2) whose child [a] is a group (1) whose child
    [b] is a group (0). *)
Definition scenario_F_ops : list (Op TestFn) :=
  [ NewControlGroup ∅ None any_child_invalid;
    NewControlGroup {[ "b" := 0 ]} None any_child_invalid;
    NewControlGroup {[ "a" := 1 ]} None any_child_invalid ].

Definition scenario_F : State TestFn :=
  default initial (state_of (run_ops 1 scenario_F_ops initial)).

(** * Proofs *)

(** ** Running the monad *)

Section Run.
Context {Fn : Type} `{!Callable Fn}.

Lemma run_bind {A B} (m : M Fn A) (k : A → M Fn B) s :
  (m ≫= k) s =
  match m s with
  | Ok (a, s') => k a s'
  | Raise e => Raise e
  | OutOfFuel => OutOfFuel
  end.
Proof. reflexivity. Qed.

Lemma run_get_node (s : State Fn) r n :
  heap s !! r = Some n → get_node r s = Ok (n, s).
Proof. unfold get_node. by intros ->. Qed.

Lemma run_update_node (s : State Fn) r n f :
  heap s !! r = Some n →
  update_node r f s = Ok (tt, mkState (<[r := f n]> (heap s)) (emitted s)).
Proof. unfold update_node. by intros ->. Qed.

(** [run_validator] is one assignment of the validated node. *)
Lemma run_validator_eq (s : State Fn) this n :
  heap s !! this = Some n →
  run_validator this s = Ok (tt, revalidate_at s this).
Proof.
  intros Hn. unfold run_validator, revalidate_at.
  rewrite run_bind, (run_get_node _ _ _ Hn). cbn.
  rewrite run_bind. unfold get_heap at 1. cbn.
  rewrite run_bind, (run_update_node _ _ _ _ Hn). cbn.
  rewrite run_bind. unfold get_node at 1. cbn.
  rewrite lookup_insert_eq. cbn.
  unfold update_node. cbn. rewrite lookup_insert_eq, insert_insert_eq, Hn.
  reflexivity.
Qed.

Lemma run_validator_absent (s : State Fn) this :
  heap s !! this = None → run_validator this s = Raise TypeError.
Proof.
  intros Hn. unfold run_validator. rewrite run_bind. unfold get_node. by rewrite Hn.
Qed.

(** The body of [_updateValue] before [_updateParent()]. *)
Lemma run_recompute (s : State Fn) this n v :
  heap s !! this = Some n → aggregate (heap s) (kind n) = Some v →
  (Container__setValueErrorsStatus this;;
   update_node this (set_pristine false);;
   callNext_valueChanges this) s = Ok (tt, recompute_at s this).
Proof.
  intros Hn Hv. unfold recompute_at. rewrite Hn, Hv.
  rewrite run_bind. unfold Container__setValueErrorsStatus.
  rewrite run_bind, (run_get_node _ _ _ Hn). cbn.
  rewrite run_bind. unfold get_heap at 1. cbn. rewrite Hv.
  rewrite run_bind, (run_update_node _ _ _ _ Hn). cbn.
  erewrite run_validator_eq by (cbn; apply lookup_insert_eq).
  unfold revalidate_at. cbn. rewrite lookup_insert_eq, insert_insert_eq.
  rewrite run_bind. unfold update_node at 1. cbn. rewrite lookup_insert_eq.
  rewrite insert_insert_eq. unfold callNext_valueChanges.
  rewrite run_bind. unfold get_node. cbn. rewrite lookup_insert_eq.
  reflexivity.
Qed.

Lemma Container__updateValue_S fuel this (s : State Fn) n v :
  heap s !! this = Some n → aggregate (heap s) (kind n) = Some v →
  Container__updateValue (S fuel) this s =
  match _parent n with
  | Some parent => Container__updateValue fuel parent (recompute_at s this)
  | None => Ok (tt, recompute_at s this)
  end.
Proof.
  intros Hn Hv. cbn [Container__updateValue].
  pose proof (run_recompute s this n v Hn Hv) as Hrun.
  rewrite run_bind in Hrun. rewrite run_bind.
  destruct (Container__setValueErrorsStatus this s) as [[[] s1]| |]; [|discriminate Hrun..].
  rewrite run_bind in Hrun.
  rewrite run_bind.
  destruct (update_node this (set_pristine false) s1) as [[[] s2]| |]; [|discriminate Hrun..].
  rewrite run_bind, Hrun. unfold AbstractControl__updateParent.
  rewrite run_bind. unfold get_node, recompute_at. rewrite Hn, Hv. cbn.
  rewrite lookup_insert_eq. cbn. destruct (_parent n); reflexivity.
Qed.
End Run.

(** ** Shapes and parent chains *)

Section Chains.
Context {Fn : Type} `{!Callable Fn}.
Implicit Types (h : gmap nat (Node Fn)) (s : State Fn).
Implicit Types (sh : gmap nat (option nat * Kind)).

Lemma shape_lookup h r p k :
  shape h !! r = Some (p, k) ↔ ∃ n, h !! r = Some n ∧ _parent n = p ∧ kind n = k.
Proof.
  unfold shape. rewrite lookup_fmap. destruct (h !! r) as [n|]; cbn.
  - split.
    + intros [= <- <-]. by exists n.
    + by intros (? & [= <-] & <- & <-).
  - split; [done | by intros (? & ? & _)].
Qed.

Lemma shape_lookup_node h r n :
  h !! r = Some n → shape h !! r = Some (_parent n, kind n).
Proof. intros Hn. apply shape_lookup. by exists n. Qed.

Lemma shape_insert h r n n' :
  h !! r = Some n → _parent n' = _parent n → kind n' = kind n →
  shape (<[r := n']> h) = shape h.
Proof.
  intros Hn Hp Hk. unfold shape. rewrite fmap_insert, Hp, Hk.
  apply insert_id. by rewrite lookup_fmap, Hn.
Qed.

Lemma shape_revalidate_at s r : shape (heap (revalidate_at s r)) = shape (heap s).
Proof.
  unfold revalidate_at. destruct (heap s !! r) as [n|] eqn:Hn; [|done].
  cbn. by apply (shape_insert _ _ n).
Qed.

Lemma shape_recompute_at s r : shape (heap (recompute_at s r)) = shape (heap s).
Proof.
  unfold recompute_at. destruct (heap s !! r) as [n|] eqn:Hn; [|done].
  destruct (aggregate _ _); [|done]. cbn. by apply (shape_insert _ _ n).
Qed.

Lemma shape_foldl_recompute_at l s :
  shape (heap (foldl recompute_at s l)) = shape (heap s).
Proof.
  revert s. induction l as [|x l IH]; intros s; cbn; [done|].
  by rewrite IH, shape_recompute_at.
Qed.

Lemma aggregate_is_container h k :
  is_Some (aggregate h k) ↔ is_container k = true.
Proof. destruct k; cbn; split; intros H; try done; by destruct H. Qed.

(** The parent chain of a node is unique. *)
Lemma chain_det sh r l1 l2 : chain sh r l1 → chain sh r l2 → l1 = l2.
Proof.
  intros H1. revert l2. induction H1 as [r k Hr | r p k l Hr _ IH]; intros l2 H2.
  - inversion H2; subst; [done | congruence].
  - inversion H2 as [? ? Hr2 | ? p2 ? l2' Hr2 Hc2]; subst; [congruence|].
    assert (p2 = p) as -> by congruence. f_equal. by apply IH.
Qed.

(** Every node of a chain has the rest of the chain as its own. *)
Lemma chain_suffix sh r l1 x l2 : chain sh r (l1 ++ x :: l2) → chain sh x l2.
Proof.
  revert r. induction l1 as [|y l1 IH]; intros r Hc; cbn in Hc.
  - inversion Hc; subst. done.
  - inversion Hc; subst. by eapply IH.
Qed.

(** A node is not among its own ancestors. *)
Lemma chain_not_in sh r l : chain sh r l → r ∉ l.
Proof.
  intros Hc Hin. apply list_elem_of_split in Hin as (l1 & l2 & ->).
  pose proof (chain_suffix _ _ _ _ _ Hc) as Hc2.
  pose proof (chain_det _ _ _ _ Hc Hc2) as Heq.
  apply (f_equal length) in Heq. rewrite length_app in Heq. cbn in Heq. lia.
Qed.

Lemma chain_NoDup sh r l : chain sh r l → NoDup (r :: l).
Proof.
  induction 1 as [r k Hr | r p k l Hr Hc IH].
  - apply NoDup_singleton.
  - apply NoDup_cons. split; [|done].
    eapply chain_not_in. econstructor; eauto.
Qed.

(** In a tree, the parent chain of a node below [a] passes through [a]. *)
Lemma wf_parents_holds sh q x :
  wf_parents sh → holds sh q x → ∃ k, sh !! x = Some (Some q, k).
Proof.
  intros Hwf (p & k & Hq & Hx).
  specialize (Hwf q (p, k) Hq). cbn in Hwf.
  rewrite Forall_forall in Hwf. specialize (Hwf x Hx).
  destruct (sh !! x) as [[px kx]|]; cbn in Hwf; [|done].
  injection Hwf as ->. by exists kx.
Qed.

Lemma desc_chain sh a x l :
  wf_parents sh → desc sh a x → chain sh a l →
  ∃ mid, chain sh x (mid ++ a :: l).
Proof.
  intros Hwf Hd. revert l. induction Hd as [a c Hh | a c x Hh _ IH]; intros l Hc.
  - destruct (wf_parents_holds _ _ _ Hwf Hh) as [k Hk].
    exists []. cbn. by econstructor.
  - destruct (wf_parents_holds _ _ _ Hwf Hh) as [k Hk].
    destruct (IH (a :: l)) as [mid Hmid]; [by econstructor|].
    exists (mid ++ [c]). by rewrite <- app_assoc.
Qed.

(** In a tree, no node of the chain of [a] lies below [a]. *)
Lemma desc_not_on_chain sh a x l :
  wf_parents sh → chain sh a l → desc sh a x → x ∉ a :: l.
Proof.
  intros Hwf Hc Hd Hin.
  destruct (desc_chain _ _ _ _ Hwf Hd Hc) as [mid Hx].
  apply elem_of_cons in Hin as [-> | Hin].
  - pose proof (chain_det _ _ _ _ Hc Hx) as Heq.
    apply (f_equal length) in Heq. rewrite length_app in Heq. cbn in Heq. lia.
  - apply list_elem_of_split in Hin as (l1 & l2 & ->).
    pose proof (chain_suffix _ _ _ _ _ Hc) as Hx2.
    pose proof (chain_det _ _ _ _ Hx Hx2) as Heq.
    apply (f_equal length) in Heq. rewrite !length_app in Heq. cbn in Heq.
    rewrite length_app in Heq. cbn in Heq. lia.
Qed.
End Chains.

(** ** The two upward walks in closed form *)

Section Walks.
Context {Fn : Type} `{!Callable Fn}.
Implicit Types (h : gmap nat (Node Fn)) (s : State Fn).

Lemma AbstractControl_updateValidity_S fuel this s n :
  heap s !! this = Some n →
  AbstractControl_updateValidity (S fuel) this s =
  match _parent n with
  | Some parent => AbstractControl_updateValidity fuel parent (revalidate_at s this)
  | None => Ok (tt, revalidate_at s this)
  end.
Proof.
  intros Hn. cbn [AbstractControl_updateValidity].
  rewrite run_bind, (run_validator_eq _ _ _ Hn), run_bind.
  unfold get_node, revalidate_at. rewrite Hn. cbn. rewrite lookup_insert_eq. cbn.
  destruct (_parent n); reflexivity.
Qed.

Lemma AbstractControl_updateValidity_absent fuel this s :
  heap s !! this = None →
  AbstractControl_updateValidity (S fuel) this s = Raise TypeError.
Proof.
  intros Hn. cbn [AbstractControl_updateValidity].
  by rewrite run_bind, (run_validator_absent _ _ Hn).
Qed.

(** With a parent chain that ends and enough fuel, [updateValidity]
    returns, and what it has done is the body of [updateValidity] at the
    node and at each of its ancestors up to the root, in this order. *)
Lemma updateValidity_closed fuel this l s :
  chain (shape (heap s)) this l → length l < fuel →
  AbstractControl_updateValidity fuel this s = Ok (tt, foldl revalidate_at s (this :: l)).
Proof.
  revert fuel this s. induction l as [|p l IH]; intros fuel this s Hc Hfuel.
  - destruct fuel as [|fuel]; [lia|]. inversion Hc as [? k Hr|]; subst.
    apply shape_lookup in Hr as (n & Hn & Hp & _).
    by rewrite (AbstractControl_updateValidity_S _ _ _ _ Hn), Hp.
  - destruct fuel as [|fuel]; [cbn in Hfuel; lia|].
    inversion Hc as [|? ? k ? Hr Hc']; subst.
    apply shape_lookup in Hr as (n & Hn & Hp & _).
    rewrite (AbstractControl_updateValidity_S _ _ _ _ Hn), Hp.
    rewrite (IH fuel p (revalidate_at s this)); [done| |cbn in Hfuel; lia].
    by rewrite shape_revalidate_at.
Qed.

(** Conversely, a returning [updateValidity] has walked a parent chain
    that ends. *)
Lemma updateValidity_inv fuel this s s' :
  AbstractControl_updateValidity fuel this s = Ok (tt, s') →
  ∃ l, chain (shape (heap s)) this l ∧ length l < fuel ∧
       s' = foldl revalidate_at s (this :: l).
Proof.
  revert this s. induction fuel as [|fuel IH]; intros this s Hrun; [done|].
  destruct (heap s !! this) as [n|] eqn:Hn.
  - rewrite (AbstractControl_updateValidity_S _ _ _ _ Hn) in Hrun.
    destruct (_parent n) as [p|] eqn:Hp.
    + apply IH in Hrun as (l & Hc & Hlen & ->).
      rewrite shape_revalidate_at in Hc.
      exists (p :: l). split_and!; [|cbn; lia|done].
      econstructor; [|done]. rewrite (shape_lookup_node _ _ _ Hn), Hp. done.
    + injection Hrun as <-. exists []. split_and!; [|cbn; lia|done].
      econstructor. rewrite (shape_lookup_node _ _ _ Hn), Hp. done.
  - by rewrite (AbstractControl_updateValidity_absent _ _ _ Hn) in Hrun.
Qed.

Lemma Container__updateValue_absent fuel this s :
  heap s !! this = None →
  Container__updateValue (S fuel) this s = Raise TypeError.
Proof.
  intros Hn. cbn [Container__updateValue].
  rewrite run_bind. unfold Container__setValueErrorsStatus.
  rewrite run_bind. unfold get_node. by rewrite Hn.
Qed.

(** A [Control] has no [_updateValue]. *)
Lemma Container__updateValue_Control fuel this s n :
  heap s !! this = Some n → kind n = KControl →
  Container__updateValue (S fuel) this s = Raise TypeError.
Proof.
  intros Hn Hk. cbn [Container__updateValue].
  rewrite run_bind. unfold Container__setValueErrorsStatus.
  rewrite run_bind, (run_get_node _ _ _ Hn). cbn.
  rewrite run_bind. unfold get_heap. cbn. by rewrite Hk.
Qed.

Lemma containers_cons sh x l :
  containers sh (x :: l) ↔
  (∃ p k, sh !! x = Some (p, k) ∧ is_container k = true) ∧ containers sh l.
Proof.
  unfold containers. rewrite Forall_cons. apply and_iff_compat_r.
  destruct (sh !! x) as [[p k]|]; cbn.
  - split.
    + intros [= Hk]. by exists p, k.
    + intros (? & ? & [= <- <-] & ->). done.
  - split; [done | by intros (? & ? & ? & _)].
Qed.

(** With a parent chain of containers that ends and enough fuel,
    [_updateValue] returns, and what it has done is its own body at the
    node and at each of its ancestors up to the root, in this order. *)
Lemma updateValue_closed fuel this l s :
  chain (shape (heap s)) this l → containers (shape (heap s)) (this :: l) →
  length l < fuel →
  Container__updateValue fuel this s = Ok (tt, foldl recompute_at s (this :: l)).
Proof.
  revert fuel this s. induction l as [|p l IH]; intros fuel this s Hc Hk Hfuel.
  - destruct fuel as [|fuel]; [lia|]. inversion Hc as [? k Hr|]; subst.
    apply containers_cons in Hk as [(p' & k' & Hr' & Hcont) _].
    assert (k' = k) as -> by congruence.
    apply shape_lookup in Hr as (n & Hn & Hp & <-).
    apply (aggregate_is_container (heap s)) in Hcont as [v Hv].
    by rewrite (Container__updateValue_S _ _ _ _ _ Hn Hv), Hp.
  - destruct fuel as [|fuel]; [cbn in Hfuel; lia|].
    inversion Hc as [|? ? k ? Hr Hc']; subst.
    apply containers_cons in Hk as [(p' & k' & Hr' & Hcont) Hk].
    assert (k' = k) as -> by congruence.
    apply shape_lookup in Hr as (n & Hn & Hp & <-).
    apply (aggregate_is_container (heap s)) in Hcont as [v Hv].
    rewrite (Container__updateValue_S _ _ _ _ _ Hn Hv), Hp.
    rewrite (IH fuel p (recompute_at s this)); [done| | |cbn in Hfuel; lia];
      by rewrite shape_recompute_at.
Qed.

(** Conversely, a returning [_updateValue] has walked a parent chain of
    containers that ends. *)
Lemma updateValue_inv fuel this s s' :
  Container__updateValue fuel this s = Ok (tt, s') →
  ∃ l, chain (shape (heap s)) this l ∧ containers (shape (heap s)) (this :: l) ∧
       length l < fuel ∧ s' = foldl recompute_at s (this :: l).
Proof.
  revert this s. induction fuel as [|fuel IH]; intros this s Hrun; [done|].
  destruct (heap s !! this) as [n|] eqn:Hn.
  - destruct (aggregate (heap s) (kind n)) as [v|] eqn:Hv.
    + assert (is_container (kind n) = true) as Hcont
        by (apply (aggregate_is_container (heap s)); eauto).
      rewrite (Container__updateValue_S _ _ _ _ _ Hn Hv) in Hrun.
      destruct (_parent n) as [p|] eqn:Hp.
      * apply IH in Hrun as (l & Hc & Hk & Hlen & ->).
        rewrite shape_recompute_at in Hc, Hk.
        exists (p :: l). split_and!; [| |cbn; lia|done].
        -- econstructor; [|done]. rewrite (shape_lookup_node _ _ _ Hn), Hp. done.
        -- apply containers_cons. split; [|done].
           exists (Some p), (kind n). by rewrite (shape_lookup_node _ _ _ Hn), Hp.
      * injection Hrun as <-. exists []. split_and!; [| |cbn; lia|done].
        -- econstructor. rewrite (shape_lookup_node _ _ _ Hn), Hp. done.
        -- apply containers_cons. split; [|by apply Forall_nil].
           exists None, (kind n). by rewrite (shape_lookup_node _ _ _ Hn), Hp.
    + destruct (kind n) eqn:Hk; [|done..].
      by rewrite (Container__updateValue_Control _ _ _ _ Hn Hk) in Hrun.
  - by rewrite (Container__updateValue_absent _ _ _ Hn) in Hrun.
Qed.
End Walks.

(** ** What one step and a whole walk change *)

Section Frames.
Context {Fn : Type} `{!Callable Fn}.
Implicit Types (h : gmap nat (Node Fn)) (s : State Fn).

Lemma revalidate_at_lookup_ne s r x :
  x ≠ r → heap (revalidate_at s r) !! x = heap s !! x.
Proof.
  intros Hne. unfold revalidate_at. destruct (heap s !! r); [|done].
  cbn. by rewrite lookup_insert_ne.
Qed.

Lemma revalidate_at_lookup_eq s r n :
  heap s !! r = Some n →
  heap (revalidate_at s r) !! r = Some (validated (heap s) r n).
Proof. intros Hn. unfold revalidate_at. rewrite Hn. cbn. apply lookup_insert_eq. Qed.

Lemma revalidate_at_emitted s r : emitted (revalidate_at s r) = emitted s.
Proof. unfold revalidate_at. by destruct (heap s !! r). Qed.

Lemma foldl_revalidate_at_lookup_notin l s x :
  x ∉ l → heap (foldl revalidate_at s l) !! x = heap s !! x.
Proof.
  revert s. induction l as [|y l IH]; intros s Hx; cbn; [done|].
  apply not_elem_of_cons in Hx as [Hxy Hx].
  by rewrite IH, revalidate_at_lookup_ne.
Qed.

Lemma foldl_revalidate_at_emitted l s :
  emitted (foldl revalidate_at s l) = emitted s.
Proof.
  revert s. induction l as [|y l IH]; intros s; cbn; [done|].
  by rewrite IH, revalidate_at_emitted.
Qed.

Lemma validated_same_but_validity h r n : same_but_validity n (validated h r n).
Proof. by repeat split. Qed.

Lemma same_but_validity_trans (n1 n2 n3 : Node Fn) :
  same_but_validity n1 n2 → same_but_validity n2 n3 → same_but_validity n1 n3.
Proof.
  intros (?&?&?&?&?) (?&?&?&?&?). repeat split; congruence.
Qed.

Lemma foldl_revalidate_at_same l s x n :
  heap s !! x = Some n →
  ∃ n', heap (foldl revalidate_at s l) !! x = Some n' ∧ same_but_validity n n'.
Proof.
  revert s n. induction l as [|y l IH]; intros s n Hn; cbn.
  - exists n. by repeat split.
  - destruct (decide (x = y)) as [->|Hne].
    + destruct (IH (revalidate_at s y) _ (revalidate_at_lookup_eq _ _ _ Hn))
        as (n' & Hn' & Hsame).
      exists n'. split; [done|].
      eapply same_but_validity_trans; [apply validated_same_but_validity | done].
    + apply IH. by rewrite revalidate_at_lookup_ne.
Qed.

Lemma recompute_at_lookup_ne s r x :
  x ≠ r → heap (recompute_at s r) !! x = heap s !! x.
Proof.
  intros Hne. unfold recompute_at. destruct (heap s !! r); [|done].
  destruct (aggregate _ _); [|done]. cbn. by rewrite lookup_insert_ne.
Qed.

Lemma recompute_at_lookup_eq s r n v :
  heap s !! r = Some n → aggregate (heap s) (kind n) = Some v →
  heap (recompute_at s r) !! r = Some (recomputed (heap s) r v n).
Proof.
  intros Hn Hv. unfold recompute_at. rewrite Hn, Hv. cbn. apply lookup_insert_eq.
Qed.

Lemma recompute_at_emitted s r n v :
  heap s !! r = Some n → aggregate (heap s) (kind n) = Some v →
  emitted (recompute_at s r) = emitted s ++ [(r, v)].
Proof. intros Hn Hv. unfold recompute_at. by rewrite Hn, Hv. Qed.

Lemma foldl_recompute_at_lookup_notin l s x :
  x ∉ l → heap (foldl recompute_at s l) !! x = heap s !! x.
Proof.
  revert s. induction l as [|y l IH]; intros s Hx; cbn; [done|].
  apply not_elem_of_cons in Hx as [Hxy Hx].
  by rewrite IH, recompute_at_lookup_ne.
Qed.

(** The emissions of a walk: one for each node of the chain, in the order
    of the walk, each with the value the node has when the walk is
    over. *)
Lemma foldl_recompute_at_emitted l s :
  containers (shape (heap s)) l → NoDup l →
  emitted (foldl recompute_at s l) =
  emitted s ++ ((λ x, (x, value_of (heap (foldl recompute_at s l)) x)) <$> l).
Proof.
  revert s. induction l as [|y l IH]; intros s Hk Hnd; cbn.
  - by rewrite app_nil_r.
  - apply containers_cons in Hk as [(p & k & Hy & Hcont) Hk].
    apply NoDup_cons in Hnd as [Hy_l Hnd].
    apply shape_lookup in Hy as (n & Hn & _ & <-).
    apply (aggregate_is_container (heap s)) in Hcont as [v Hv].
    rewrite IH; [|by rewrite shape_recompute_at|done].
    rewrite (recompute_at_emitted _ _ _ _ Hn Hv), <- app_assoc. cbn.
    do 3 f_equal. unfold value_of at 1.
    rewrite (foldl_recompute_at_lookup_notin _ _ _ Hy_l).
    by rewrite (recompute_at_lookup_eq _ _ _ _ Hn Hv).
Qed.
End Frames.

(** ** The leaf's [updateValue] *)

Section Leaf.
Context {Fn : Type} `{!Callable Fn}.
Implicit Types (h : gmap nat (Node Fn)) (s : State Fn).

Lemma Control_updateValue_eq fuel this value s n :
  heap s !! this = Some n → kind n = KControl →
  Control_updateValue fuel this value s =
  match _parent n with
  | Some parent => Container__updateValue fuel parent (assign_at s this value)
  | None => Ok (tt, assign_at s this value)
  end.
Proof.
  intros Hn Hk. unfold Control_updateValue, assign_at.
  rewrite run_bind, (run_get_node _ _ _ Hn). cbn. rewrite Hk, Hn.
  rewrite run_bind. unfold Control__setValueErrorsStatus.
  rewrite run_bind, (run_update_node _ _ _ _ Hn). cbn.
  erewrite run_validator_eq by (cbn; apply lookup_insert_eq).
  unfold revalidate_at. cbn. rewrite lookup_insert_eq, insert_insert_eq.
  rewrite run_bind. unfold update_node at 1. cbn. rewrite lookup_insert_eq.
  rewrite insert_insert_eq. rewrite run_bind. unfold callNext_valueChanges.
  rewrite run_bind. unfold get_node at 1. cbn. rewrite lookup_insert_eq. cbn.
  unfold AbstractControl__updateParent.
  rewrite run_bind. unfold get_node. cbn. rewrite lookup_insert_eq. cbn.
  destruct (_parent n); reflexivity.
Qed.

Lemma Control_updateValue_not_Control fuel this value s n :
  heap s !! this = Some n → kind n ≠ KControl →
  Control_updateValue fuel this value s = Raise TypeError.
Proof.
  intros Hn Hk. unfold Control_updateValue.
  rewrite run_bind, (run_get_node _ _ _ Hn). cbn. by destruct (kind n).
Qed.

Lemma Control_updateValue_absent fuel this value s :
  heap s !! this = None → Control_updateValue fuel this value s = Raise TypeError.
Proof.
  intros Hn. unfold Control_updateValue. rewrite run_bind. unfold get_node.
  by rewrite Hn.
Qed.

Lemma shape_assign_at s r v : shape (heap (assign_at s r v)) = shape (heap s).
Proof.
  unfold assign_at. destruct (heap s !! r) as [n|] eqn:Hn; [|done].
  cbn. by apply (shape_insert _ _ n).
Qed.

Lemma assign_at_lookup_ne s r v x :
  x ≠ r → heap (assign_at s r v) !! x = heap s !! x.
Proof.
  intros Hne. unfold assign_at. destruct (heap s !! r); [|done].
  cbn. by rewrite lookup_insert_ne.
Qed.

Lemma assign_at_lookup_eq s r v n :
  heap s !! r = Some n →
  heap (assign_at s r v) !! r = Some (recomputed (heap s) r v n).
Proof. intros Hn. unfold assign_at. rewrite Hn. cbn. apply lookup_insert_eq. Qed.
End Leaf.

(** ** updateValidity *)

Section UpdateValidity.
Context {Fn : Type} `{!Callable Fn}.
Implicit Types (h : gmap nat (Node Fn)) (s : State Fn).

(** C3. [updateValidity()] on a node whose parent chain [l] ends returns,
    and what it has done is the body of [updateValidity] at the node and
    then at every ancestor up to the root, whatever the statuses were:
    each node [x] of the walk ends with [errors] equal to what its
    validator returned on the store as it was when the walk reached [x],
    and with the status these errors give by the rule
    [isPresent(errors) ? INVALID : VALID]. *)
Theorem updateValidity_walks_to_root fuel this l s :
  chain (shape (heap s)) this l → length l < fuel →
  AbstractControl_updateValidity fuel this s
    = Ok (tt, foldl revalidate_at s (this :: l)) ∧
  ∀ pre x post, this :: l = pre ++ x :: post →
    ∃ n, heap s !! x = Some n ∧
      let e := call (validator n) (heap (foldl revalidate_at s pre)) x in
      heap (foldl revalidate_at s (this :: l)) !! x
        = Some (mkNode (_value n) (Some (if isPresent e then INVALID else VALID)) e
                       (_pristine n) (_parent n) (validator n) (kind n)).
Proof.
  intros Hc Hfuel. split; [by apply updateValidity_closed|].
  intros pre x post Heq.
  pose proof (chain_NoDup _ _ _ Hc) as Hnd. rewrite Heq in Hnd |- *.
  apply NoDup_app in Hnd as (_ & Hpre & Hnd).
  apply NoDup_cons in Hnd as [Hpost _].
  assert (x ∉ pre) as Hx_pre.
  { intros Hin. apply (Hpre x Hin). apply elem_of_cons; by left. }
  assert (is_Some (heap s !! x)) as [n Hn].
  { assert (x ∈ this :: l) as Hin by (rewrite Heq; set_solver).
    apply elem_of_cons in Hin as [-> | Hin].
    - inversion Hc as [? k Hr | ? ? k ? Hr _]; subst;
        apply shape_lookup in Hr as (n & Hn & _); eauto.
    - apply list_elem_of_split in Hin as (l1 & l2 & ->).
      apply chain_suffix in Hc.
      inversion Hc as [? k Hr | ? ? k ? Hr _]; subst;
        apply shape_lookup in Hr as (n & Hn & _); eauto. }
  exists n. split; [done|]. cbn zeta.
  rewrite foldl_app. cbn [foldl].
  rewrite (foldl_revalidate_at_lookup_notin _ _ _ Hpost).
  erewrite revalidate_at_lookup_eq
    by (rewrite (foldl_revalidate_at_lookup_notin _ _ _ Hx_pre); exact Hn).
  reflexivity.
Qed.

(** C10. [updateValidity()] on a node whose parent chain ends returns;
    and a returning [updateValidity()] emits nothing, creates no object,
    and leaves the value, the pristine flag, the parent link, the
    validator and the child storage of every node as they were: all it
    may change are [errors] and [status], and only at the nodes of the
    parent chain it walks. *)
Theorem updateValidity_frame fuel this s :
  (∀ l, chain (shape (heap s)) this l → length l < fuel →
        ∃ s', AbstractControl_updateValidity fuel this s = Ok (tt, s')) ∧
  ∀ s', AbstractControl_updateValidity fuel this s = Ok (tt, s') →
    emitted s' = emitted s ∧
    (∀ x, heap s !! x = None → heap s' !! x = None) ∧
    (∀ x n, heap s !! x = Some n →
       ∃ n', heap s' !! x = Some n' ∧ same_but_validity n n') ∧
    ∃ l, chain (shape (heap s)) this l ∧
         ∀ x, x ∉ this :: l → heap s' !! x = heap s !! x.
Proof.
  split.
  { intros l Hc Hfuel. eexists. by apply updateValidity_closed. }
  intros s' Hrun. apply updateValidity_inv in Hrun as (l & Hc & _ & ->).
  split_and!.
  - apply foldl_revalidate_at_emitted.
  - intros x Hx. destruct (decide (x ∈ this :: l)) as [Hin|Hnin].
    + exfalso. apply elem_of_cons in Hin as [-> | Hin].
      * inversion Hc as [? k Hr | ? ? k ? Hr _]; subst;
          apply shape_lookup in Hr as (n & Hn & _); congruence.
      * apply list_elem_of_split in Hin as (l1 & l2 & ->).
        apply chain_suffix in Hc.
        inversion Hc as [? k Hr | ? ? k ? Hr _]; subst;
          apply shape_lookup in Hr as (n & Hn & _); congruence.
    + by rewrite foldl_revalidate_at_lookup_notin.
  - intros x n Hn. by apply foldl_revalidate_at_same.
  - exists l. split; [done|]. intros x Hx. by apply foldl_revalidate_at_lookup_notin.
Qed.
End UpdateValidity.

(** ** Witnesses on the trees of the scenarios *)

(** Solves a lookup on a closed store by evaluation. *)
Ltac solve_lookup := vm_compute; reflexivity.

Lemma three_levels_chain : chain (shape (heap three_levels)) 0 [1; 2].
Proof.
  apply (chain_step _ 0 1 KControl); [solve_lookup|].
  apply (chain_step _ 1 2 (KControlGroup {[ "a" := 0 ]} ∅)); [solve_lookup|].
  apply (chain_root _ 2 (KControlGroup {[ "b" := 1 ]} ∅)). solve_lookup.
Defined.

Lemma updateValidity_walks_to_root_witness :
  chain (shape (heap three_levels)) 0 [1; 2] ∧ length [1; 2] < 3 ∧
  AbstractControl_updateValidity 3 0 three_levels
    = Ok (tt, foldl revalidate_at three_levels [0; 1; 2]).
Proof.
  split; [exact three_levels_chain|]. split; [cbn; lia|].
  apply (updateValidity_walks_to_root 3 0 [1; 2] three_levels);
    [exact three_levels_chain | cbn; lia].
Defined.

Lemma updateValidity_frame_witness :
  chain (shape (heap three_levels)) 0 [1; 2] ∧ length [1; 2] < 3 ∧
  ∃ s', AbstractControl_updateValidity 3 0 three_levels = Ok (tt, s') ∧
        emitted s' = emitted three_levels ∧
        value_of (heap s') 2 = value_of (heap three_levels) 2.
Proof.
  assert (length [1; 2] < 3) as Hfuel by (cbn; lia).
  split; [exact three_levels_chain|]. split; [exact Hfuel|].
  destruct (proj1 (updateValidity_frame 3 0 three_levels) [1; 2]
              three_levels_chain Hfuel) as [s' Hrun].
  exists s'. split; [exact Hrun|].
  destruct (proj2 (updateValidity_frame 3 0 three_levels) s' Hrun)
    as (Hem & _ & Hsame & _).
  split; [exact Hem|].
  assert (heap three_levels !! 2
          = Some (mkNode (JObj {[ "b" := JObj {[ "a" := JNum 1 ]} ]}) (Some VALID) None
                         true None any_child_invalid (KControlGroup {[ "b" := 1 ]} ∅)))
    as Hn by solve_lookup.
  destruct (Hsame 2 _ Hn) as (n' & Hn' & Hv & _).
  unfold value_of. rewrite Hn', Hn. exact Hv.
Defined.

(** ** Control.updateValue *)

Section UpdateValue.
Context {Fn : Type} `{!Callable Fn}.
Implicit Types (h : gmap nat (Node Fn)) (s : State Fn).

Lemma assign_at_emitted s r v n :
  heap s !! r = Some n → emitted (assign_at s r v) = emitted s ++ [(r, v)].
Proof. intros Hn. unfold assign_at. by rewrite Hn. Qed.

(** [updateValue] on a leaf whose ancestors [l] are containers up to a
    root: the leaf's own step, then [_updateValue] along [l]. *)
Lemma Control_updateValue_closed fuel this value l s n :
  heap s !! this = Some n → kind n = KControl →
  chain (shape (heap s)) this l → containers (shape (heap s)) l →
  (length l ≤ fuel)%nat →
  Control_updateValue fuel this value s
    = Ok (tt, foldl recompute_at (assign_at s this value) l).
Proof.
  intros Hn Hk Hc Hcont Hfuel.
  rewrite (Control_updateValue_eq _ _ _ _ _ Hn Hk).
  inversion Hc as [? k Hr | ? p k l' Hr Hc']; subst.
  - apply shape_lookup in Hr as (n' & Hn' & Hp & _).
    assert (n' = n) as -> by congruence. by rewrite Hp.
  - apply shape_lookup in Hr as (n' & Hn' & Hp & _).
    assert (n' = n) as -> by congruence. rewrite Hp.
    apply updateValue_closed; rewrite ?shape_assign_at; [done|done|].
    cbn in Hfuel. lia.
Qed.

Lemma Control_updateValue_final fuel this value l s n :
  heap s !! this = Some n → kind n = KControl →
  chain (shape (heap s)) this l → containers (shape (heap s)) l →
  (length l ≤ fuel)%nat →
  let s' := foldl recompute_at (assign_at s this value) l in
  Control_updateValue fuel this value s = Ok (tt, s') ∧
  heap s' !! this = Some (recomputed (heap s) this value n) ∧
  emitted s' =
    emitted s ++ (this, value) :: ((λ x, (x, value_of (heap s') x)) <$> l).
Proof.
  intros Hn Hk Hc Hcont Hfuel s'.
  pose proof (chain_NoDup _ _ _ Hc) as Hnd.
  apply NoDup_cons in Hnd as [Hthis Hnd].
  split_and!.
  - by apply (Control_updateValue_closed _ _ _ _ _ n).
  - unfold s'. rewrite (foldl_recompute_at_lookup_notin _ _ _ Hthis).
    by apply assign_at_lookup_eq.
  - unfold s'. rewrite foldl_recompute_at_emitted;
      [|by rewrite shape_assign_at|done].
    rewrite (assign_at_emitted _ _ _ _ Hn), <- app_assoc. done.
Qed.

(** C6. [updateValue(value)] on a leaf, for every [value] (null
    included) and whatever the validator answers: the leaf ends with
    [value] as its value, the errors its validator returned on the store
    with that value set, the status these errors give, and
    [pristine = false]; the value is emitted on the leaf's channel, and
    then [_updateValue] runs along the ancestors [l].  The call returns:
    no value is refused.  The ancestors are what [_updateParent()]
    reaches: containers, up to a root, within the fuel. *)
Theorem Control_updateValue_accepts fuel this value l s n :
  heap s !! this = Some n → kind n = KControl →
  chain (shape (heap s)) this l → containers (shape (heap s)) l →
  (length l ≤ fuel)%nat →
  let e := call (validator n) (<[this := set_value value n]> (heap s)) this in
  ∃ s', Control_updateValue fuel this value s = Ok (tt, s') ∧
        s' = foldl recompute_at (assign_at s this value) l ∧
        heap s' !! this
          = Some (mkNode value (Some (if isPresent e then INVALID else VALID)) e
                         false (_parent n) (validator n) (kind n)) ∧
        emitted s' =
          emitted s ++ (this, value) :: ((λ x, (x, value_of (heap s') x)) <$> l).
Proof.
  intros Hn Hk Hc Hcont Hfuel e.
  destruct (Control_updateValue_final fuel this value l s n) as (Hrun & Hnode & Hem);
    [done..|].
  eexists. split; [exact Hrun|]. split; [done|]. split; [exact Hnode | exact Hem].
Qed.

(** C4. A leaf inside a keyed container inside a keyed container: one
    [updateValue] on the leaf returns after exactly three emissions,
    first the leaf's, then the middle container's, then the root's, each
    carrying the value the emitting node has when the call is over; the
    leaf's is the value given. *)
Theorem three_levels_emissions fuel leaf mid root value cm om cr or s :
  shape (heap s) !! leaf = Some (Some mid, KControl) →
  shape (heap s) !! mid = Some (Some root, KControlGroup cm om) →
  shape (heap s) !! root = Some (None, KControlGroup cr or) →
  (2 ≤ fuel)%nat →
  ∃ s', Control_updateValue fuel leaf value s = Ok (tt, s') ∧
        emitted s' = emitted s ++ [ (leaf, value_of (heap s') leaf);
                                    (mid, value_of (heap s') mid);
                                    (root, value_of (heap s') root) ] ∧
        value_of (heap s') leaf = value.
Proof.
  intros Hleaf Hmid Hroot Hfuel.
  assert (chain (shape (heap s)) leaf [mid; root]) as Hc.
  { eapply chain_step; [done|]. eapply chain_step; [done|]. by eapply chain_root. }
  assert (containers (shape (heap s)) [mid; root]) as Hcont.
  { apply containers_cons. split; [by eexists _, _|].
    apply containers_cons. split; [by eexists _, _|]. apply Forall_nil_2. }
  pose proof Hleaf as Hl. apply shape_lookup in Hl as (n & Hn & _ & Hk).
  destruct (Control_updateValue_final fuel leaf value [mid; root] s n)
    as (Hrun & Hnode & Hem); [done..|].
  eexists. split; [exact Hrun|].
  assert (value_of (heap (foldl recompute_at (assign_at s leaf value) [mid; root])) leaf
          = value) as Hv.
  { unfold value_of. by rewrite Hnode. }
  split; [|exact Hv]. rewrite Hem, Hv. done.
Qed.
End UpdateValue.

Lemma Control_updateValue_accepts_witness :
  heap three_levels !! 0
    = Some (mkNode (JNum 1) (Some VALID) None true (Some 1) accept_all KControl) ∧
  chain (shape (heap three_levels)) 0 [1; 2] ∧
  containers (shape (heap three_levels)) [1; 2] ∧
  ∃ s', Control_updateValue 2 0 JNull three_levels = Ok (tt, s') ∧
        heap s' !! 0
          = Some (mkNode JNull (Some VALID) None false (Some 1) accept_all KControl).
Proof.
  assert (heap three_levels !! 0
    = Some (mkNode (JNum 1) (Some VALID) None true (Some 1) accept_all KControl))
    as Hn by solve_lookup.
  assert (containers (shape (heap three_levels)) [1; 2]) as Hcont.
  { repeat (apply Forall_cons; split; [solve_lookup|]). apply Forall_nil_2. }
  assert (length [1; 2] ≤ 2)%nat as Hfuel by (cbn; lia).
  split; [exact Hn|]. split; [exact three_levels_chain|]. split; [exact Hcont|].
  pose proof (Control_updateValue_accepts 2 0 JNull [1; 2] three_levels _ Hn eq_refl
                three_levels_chain Hcont Hfuel) as H.
  destruct H as (s' & Hrun & _ & Hnode & _).
  exists s'. split; [exact Hrun|]. rewrite Hnode. reflexivity.
Defined.

Lemma three_levels_emissions_witness :
  ∃ s', Control_updateValue 2 0 (JNum 5) three_levels = Ok (tt, s') ∧
        emitted s' = [ (0, JNum 5);
                       (1, JObj {[ "a" := JNum 5 ]});
                       (2, JObj {[ "b" := JObj {[ "a" := JNum 5 ]} ]}) ].
Proof.
  assert (shape (heap three_levels) !! 0 = Some (Some 1, KControl))
    as H0 by solve_lookup.
  assert (shape (heap three_levels) !! 1 = Some (Some 2, KControlGroup {[ "a" := 0 ]} ∅))
    as H1 by solve_lookup.
  assert (shape (heap three_levels) !! 2 = Some (None, KControlGroup {[ "b" := 1 ]} ∅))
    as H2 by solve_lookup.
  assert (2 ≤ 2)%nat as Hfuel by lia.
  pose proof (three_levels_emissions 2 0 1 2 (JNum 5) _ _ _ _ three_levels
                H0 H1 H2 Hfuel) as H.
  destruct H as (s' & Hrun & Hem & _).
  exists s'. split; [exact Hrun|].
  rewrite Hem. vm_compute in Hrun. injection Hrun as <-.
  vm_compute. reflexivity.
Defined.

(** ** The structural operations of the containers *)

Section Structural.
Context {Fn : Type} `{!Callable Fn}.
Implicit Types (h : gmap nat (Node Fn)) (s : State Fn).

Lemma as_ControlGroup_inv s this g s' :
  as_ControlGroup this s = Ok (g, s') →
  s' = s ∧ ∃ n, heap s !! this = Some n ∧ kind n = KControlGroup g.1 g.2.
Proof.
  unfold as_ControlGroup. rewrite run_bind. unfold get_node.
  destruct (heap s !! this) as [n|] eqn:Hn; [|done]. cbn.
  destruct (kind n) eqn:Hk; try done. intros [= <- <-]. split; [done|].
  exists n. by rewrite Hk.
Qed.

Lemma as_ControlArray_inv s this controls s' :
  as_ControlArray this s = Ok (controls, s') →
  s' = s ∧ ∃ n, heap s !! this = Some n ∧ kind n = KControlArray controls.
Proof.
  unfold as_ControlArray. rewrite run_bind. unfold get_node.
  destruct (heap s !! this) as [n|] eqn:Hn; [|done]. cbn.
  destruct (kind n) eqn:Hk; try done. intros [= <- <-]. split; [done|].
  exists n. by rewrite Hk.
Qed.

Lemma ControlGroup_addControl_inv this name c s s' :
  ControlGroup_addControl this name c s = Ok (tt, s') →
  ∃ n controls _optionals,
    heap s !! this = Some n ∧ kind n = KControlGroup controls _optionals ∧
    s' = restructured s this n (KControlGroup (<[name := c]> controls) _optionals).
Proof.
  unfold ControlGroup_addControl. rewrite run_bind.
  destruct (as_ControlGroup this s) as [[[cs opt] s1]| |] eqn:Hg; [|done..].
  apply as_ControlGroup_inv in Hg as (-> & n & Hn & Hk). cbn in Hk |- *.
  rewrite (run_update_node _ _ _ _ Hn). intros [= <-]. by exists n, cs, opt.
Qed.

Lemma ControlGroup_removeControl_inv this name s s' :
  ControlGroup_removeControl this name s = Ok (tt, s') →
  ∃ n controls _optionals,
    heap s !! this = Some n ∧ kind n = KControlGroup controls _optionals ∧
    s' = restructured s this n (KControlGroup (delete name controls) _optionals).
Proof.
  unfold ControlGroup_removeControl. rewrite run_bind.
  destruct (as_ControlGroup this s) as [[[cs opt] s1]| |] eqn:Hg; [|done..].
  apply as_ControlGroup_inv in Hg as (-> & n & Hn & Hk). cbn in Hk |- *.
  rewrite (run_update_node _ _ _ _ Hn). intros [= <-]. by exists n, cs, opt.
Qed.

Lemma ControlGroup_include_inv fuel this name s s' :
  ControlGroup_include fuel this name s = Ok (tt, s') →
  ∃ n controls _optionals,
    heap s !! this = Some n ∧ kind n = KControlGroup controls _optionals ∧
    Container__updateValue fuel this
      (restructured s this n (KControlGroup controls (<[name := true]> _optionals)))
      = Ok (tt, s').
Proof.
  unfold ControlGroup_include. rewrite run_bind.
  destruct (as_ControlGroup this s) as [[[cs opt] s1]| |] eqn:Hg; [|done..].
  apply as_ControlGroup_inv in Hg as (-> & n & Hn & Hk). cbn in Hk |- *.
  rewrite run_bind, (run_update_node _ _ _ _ Hn). intros Hrun. by exists n, cs, opt.
Qed.

Lemma ControlGroup_exclude_inv fuel this name s s' :
  ControlGroup_exclude fuel this name s = Ok (tt, s') →
  ∃ n controls _optionals,
    heap s !! this = Some n ∧ kind n = KControlGroup controls _optionals ∧
    Container__updateValue fuel this
      (restructured s this n (KControlGroup controls (<[name := false]> _optionals)))
      = Ok (tt, s').
Proof.
  unfold ControlGroup_exclude. rewrite run_bind.
  destruct (as_ControlGroup this s) as [[[cs opt] s1]| |] eqn:Hg; [|done..].
  apply as_ControlGroup_inv in Hg as (-> & n & Hn & Hk). cbn in Hk |- *.
  rewrite run_bind, (run_update_node _ _ _ _ Hn). intros Hrun. by exists n, cs, opt.
Qed.

Lemma ControlGroup_exclude_eq fuel this name s n controls _optionals :
  heap s !! this = Some n → kind n = KControlGroup controls _optionals →
  ControlGroup_exclude fuel this name s =
  Container__updateValue fuel this
    (restructured s this n (KControlGroup controls (<[name := false]> _optionals))).
Proof.
  intros Hn Hk. unfold ControlGroup_exclude, as_ControlGroup.
  rewrite !run_bind, (run_get_node _ _ _ Hn). cbn. rewrite Hk. cbn.
  by rewrite run_bind, (run_update_node _ _ _ _ Hn).
Qed.

Lemma ControlGroup_include_eq fuel this name s n controls _optionals :
  heap s !! this = Some n → kind n = KControlGroup controls _optionals →
  ControlGroup_include fuel this name s =
  Container__updateValue fuel this
    (restructured s this n (KControlGroup controls (<[name := true]> _optionals))).
Proof.
  intros Hn Hk. unfold ControlGroup_include, as_ControlGroup.
  rewrite !run_bind, (run_get_node _ _ _ Hn). cbn. rewrite Hk. cbn.
  by rewrite run_bind, (run_update_node _ _ _ _ Hn).
Qed.

Lemma ControlArray_push_inv fuel this control s s' :
  ControlArray_push fuel this control s = Ok (tt, s') →
  ∃ n controls nc,
    heap s !! this = Some n ∧ kind n = KControlArray controls ∧
    let s1 := restructured s this n (KControlArray (controls ++ [control])) in
    heap s1 !! control = Some nc ∧
    Container__updateValue fuel this (reparented s1 control this nc) = Ok (tt, s').
Proof.
  unfold ControlArray_push. rewrite run_bind.
  destruct (as_ControlArray this s) as [[cs s1]| |] eqn:Hg; [|done..].
  apply as_ControlArray_inv in Hg as (-> & n & Hn & Hk).
  rewrite run_bind, (run_update_node _ _ _ _ Hn). cbn.
  rewrite run_bind. unfold AbstractControl_setParent, update_node at 1. cbn.
  destruct (<[this := set_kind (KControlArray (cs ++ [control])) n]> (heap s) !! control)
    as [nc|] eqn:Hc; [|done].
  intros Hrun. by exists n, cs, nc.
Qed.

Lemma ListWrapper_insert_Some {A} (l l' : list A) index (v : A) :
  ListWrapper_insert l index v = Some l' ↔
  (0 ≤ index ≤ Z.of_nat (length l))%Z ∧
  l' = take (Z.to_nat index) l ++ v :: drop (Z.to_nat index) l.
Proof.
  unfold ListWrapper_insert. case_bool_decide; split.
  - intros [= <-]. done.
  - by intros [_ ->].
  - done.
  - by intros [? _].
Qed.

Lemma ListWrapper_removeAt_Some {A} (l l' : list A) index :
  ListWrapper_removeAt l index = Some l' ↔
  (0 ≤ index < Z.of_nat (length l))%Z ∧ l' = delete (Z.to_nat index) l.
Proof.
  unfold ListWrapper_removeAt. case_bool_decide; split.
  - intros [= <-]. done.
  - by intros [_ ->].
  - done.
  - by intros [? _].
Qed.

Lemma ControlArray_insert_inv fuel this index control s s' :
  ControlArray_insert fuel this index control s = Ok (tt, s') →
  ∃ n controls nc,
    heap s !! this = Some n ∧ kind n = KControlArray controls ∧
    (0 ≤ index ≤ Z.of_nat (length controls))%Z ∧
    let s1 := restructured s this n
                (KControlArray (take (Z.to_nat index) controls
                                  ++ control :: drop (Z.to_nat index) controls)) in
    heap s1 !! control = Some nc ∧
    Container__updateValue fuel this (reparented s1 control this nc) = Ok (tt, s').
Proof.
  unfold ControlArray_insert. rewrite run_bind.
  destruct (as_ControlArray this s) as [[cs s1]| |] eqn:Hg; [|done..].
  apply as_ControlArray_inv in Hg as (-> & n & Hn & Hk).
  destruct (ListWrapper_insert cs index control) as [cs'|] eqn:Hins; [|done].
  apply ListWrapper_insert_Some in Hins as [Hrange ->].
  rewrite run_bind, (run_update_node _ _ _ _ Hn). cbn.
  rewrite run_bind. unfold AbstractControl_setParent, update_node at 1. cbn.
  destruct (<[this := set_kind (KControlArray (take (Z.to_nat index) cs
                                  ++ control :: drop (Z.to_nat index) cs)) n]>
              (heap s) !! control) as [nc|] eqn:Hc; [|done].
  intros Hrun. by exists n, cs, nc.
Qed.

Lemma ControlArray_removeAt_inv fuel this index s s' :
  ControlArray_removeAt fuel this index s = Ok (tt, s') →
  ∃ n controls,
    heap s !! this = Some n ∧ kind n = KControlArray controls ∧
    (0 ≤ index < Z.of_nat (length controls))%Z ∧
    Container__updateValue fuel this
      (restructured s this n (KControlArray (delete (Z.to_nat index) controls)))
      = Ok (tt, s').
Proof.
  unfold ControlArray_removeAt. rewrite run_bind.
  destruct (as_ControlArray this s) as [[cs s1]| |] eqn:Hg; [|done..].
  apply as_ControlArray_inv in Hg as (-> & n & Hn & Hk).
  destruct (ListWrapper_removeAt cs index) as [cs'|] eqn:Hrem; [|done].
  apply ListWrapper_removeAt_Some in Hrem as [Hrange ->].
  rewrite run_bind, (run_update_node _ _ _ _ Hn). intros Hrun. by exists n, cs.
Qed.

(** The three operations of the array, forwards. *)
Lemma ControlArray_push_eq fuel this control s n controls nc :
  heap s !! this = Some n → kind n = KControlArray controls →
  heap (restructured s this n (KControlArray (controls ++ [control]))) !! control
    = Some nc →
  ControlArray_push fuel this control s =
  Container__updateValue fuel this
    (reparented (restructured s this n (KControlArray (controls ++ [control])))
                control this nc).
Proof.
  intros Hn Hk Hc. unfold ControlArray_push, as_ControlArray.
  rewrite !run_bind, (run_get_node _ _ _ Hn). cbn. rewrite Hk. cbn.
  rewrite run_bind, (run_update_node _ _ _ _ Hn). cbn.
  rewrite run_bind. unfold AbstractControl_setParent.
  by rewrite (run_update_node _ _ _ _ Hc).
Qed.

Lemma ControlArray_insert_eq fuel this index control s n controls nc :
  heap s !! this = Some n → kind n = KControlArray controls →
  (0 ≤ index ≤ Z.of_nat (length controls))%Z →
  let controls' := take (Z.to_nat index) controls
                     ++ control :: drop (Z.to_nat index) controls in
  heap (restructured s this n (KControlArray controls')) !! control = Some nc →
  ControlArray_insert fuel this index control s =
  Container__updateValue fuel this
    (reparented (restructured s this n (KControlArray controls')) control this nc).
Proof.
  intros Hn Hk Hrange controls' Hc. unfold ControlArray_insert, as_ControlArray.
  rewrite !run_bind, (run_get_node _ _ _ Hn). cbn. rewrite Hk. cbn.
  rewrite (proj2 (ListWrapper_insert_Some controls controls' index control))
    by done.
  rewrite run_bind, (run_update_node _ _ _ _ Hn). cbn.
  rewrite run_bind. unfold AbstractControl_setParent.
  by rewrite (run_update_node _ _ _ _ Hc).
Qed.

Lemma ControlArray_removeAt_eq fuel this index s n controls :
  heap s !! this = Some n → kind n = KControlArray controls →
  (0 ≤ index < Z.of_nat (length controls))%Z →
  ControlArray_removeAt fuel this index s =
  Container__updateValue fuel this
    (restructured s this n (KControlArray (delete (Z.to_nat index) controls))).
Proof.
  intros Hn Hk Hrange. unfold ControlArray_removeAt, as_ControlArray.
  rewrite !run_bind, (run_get_node _ _ _ Hn). cbn. rewrite Hk. cbn.
  rewrite (proj2 (ListWrapper_removeAt_Some controls _ index)) by done.
  by rewrite run_bind, (run_update_node _ _ _ _ Hn).
Qed.
End Structural.

(** ** The aggregated value *)

Section Aggregation.
Context {Fn : Type} `{!Callable Fn}.
Implicit Types (h : gmap nat (Node Fn)) (s : State Fn).

(** A child is included unless [_optionals] maps its name to [false]. *)
Lemma ControlGroup__included_eq (_optionals : gmap string bool) name :
  ControlGroup__included _optionals name =
  match _optionals !! name with
  | Some b => b
  | None => true
  end.
Proof.
  unfold ControlGroup__included. by destruct (_optionals !! name) as [[]|].
Qed.

Lemma ControlGroup__included_insert (_optionals : gmap string bool) name b name' :
  ControlGroup__included (<[name := b]> _optionals) name' =
  if decide (name = name') then b else ControlGroup__included _optionals name'.
Proof.
  rewrite !ControlGroup__included_eq, lookup_insert. by case_decide.
Qed.

(** The fold of [_reduceValue] builds the map from the name of each
    included child to that child's value. *)
Lemma ControlGroup__reduceValue_eq h controls _optionals :
  ControlGroup__reduceValue h controls _optionals =
  JObj (map_imap (λ name c, if ControlGroup__included _optionals name
                            then Some (value_of h c) else None) controls).
Proof.
  unfold ControlGroup__reduceValue, ControlGroup__reduceChildren. f_equal.
  apply (map_fold_weak_ind (λ r m, r = map_imap _ m)).
  - by rewrite map_imap_empty.
  - intros name c m r Hm ->. rewrite map_imap_insert.
    destruct (ControlGroup__included _optionals name); [done|].
    rewrite delete_id; [done|]. by rewrite map_lookup_imap, Hm.
Qed.

(** The entry of the aggregated value under a name. *)
Lemma ControlGroup__reduceValue_lookup h controls _optionals name :
  obj_fields (ControlGroup__reduceValue h controls _optionals) !! name =
  match controls !! name with
  | Some c => if ControlGroup__included _optionals name then Some (value_of h c) else None
  | None => None
  end.
Proof.
  rewrite ControlGroup__reduceValue_eq. cbn. rewrite map_lookup_imap.
  by destruct (controls !! name).
Qed.

Lemma elem_of_children_group (controls : gmap string nat) _optionals c :
  c ∈ children (KControlGroup controls _optionals) ↔ ∃ name, controls !! name = Some c.
Proof.
  cbn. rewrite list_elem_of_fmap. split.
  - intros ([name c'] & -> & Hin). exists name. by apply elem_of_map_to_list in Hin.
  - intros [name Hc]. exists (name, c). split; [done|]. by apply elem_of_map_to_list.
Qed.

(** The aggregated value depends on the store through the values of the
    children alone. *)
Lemma aggregate_ext h h' k :
  (∀ c, c ∈ children k → value_of h' c = value_of h c) →
  aggregate h' k = aggregate h k.
Proof.
  intros Hext. destruct k as [|controls _optionals|controls]; cbn; [done| |].
  - f_equal. rewrite !ControlGroup__reduceValue_eq. f_equal.
    apply map_eq. intros name. rewrite !map_lookup_imap.
    destruct (controls !! name) as [c|] eqn:Hc; [|done]. cbn.
    rewrite Hext; [done|]. apply elem_of_children_group. eauto.
  - do 2 f_equal. apply list_fmap_ext. intros i c Hc. apply Hext.
    cbn. by eapply list_elem_of_lookup_2.
Qed.

Lemma value_of_insert_same h r n n' c :
  h !! r = Some n → _value n' = _value n →
  value_of (<[r := n']> h) c = value_of h c.
Proof.
  intros Hn Hv. unfold value_of. destruct (decide (c = r)) as [->|Hne].
  - by rewrite lookup_insert_eq, Hn.
  - by rewrite lookup_insert_ne.
Qed.

Lemma value_of_insert_ne h r n' c :
  c ≠ r → value_of (<[r := n']> h) c = value_of h c.
Proof. intros Hne. unfold value_of. by rewrite lookup_insert_ne. Qed.
End Aggregation.

(** ** What a recomputation leaves at the container *)

Section AddRemove.
Context {Fn : Type} `{!Callable Fn}.
Implicit Types (h : gmap nat (Node Fn)) (s : State Fn).

(** What a returning [_updateValue] leaves at the container it was called
    on, and its first emission. *)
Lemma updateValue_self fuel this s s' :
  Container__updateValue fuel this s = Ok (tt, s') →
  ∃ n v l,
    heap s !! this = Some n ∧ aggregate (heap s) (kind n) = Some v ∧
    chain (shape (heap s)) this l ∧ containers (shape (heap s)) (this :: l) ∧
    s' = foldl recompute_at s (this :: l) ∧
    heap s' !! this = Some (recomputed (heap s) this v n) ∧
    shape (heap s') = shape (heap s) ∧
    emitted s' = emitted s ++ (this, v) :: ((λ x, (x, value_of (heap s') x)) <$> l).
Proof.
  intros Hrun. apply updateValue_inv in Hrun as (l & Hc & Hk & _ & ->).
  pose proof (chain_NoDup _ _ _ Hc) as Hnd.
  pose proof Hk as Hk'. apply containers_cons in Hk' as [(p & k & Hr & Hcont) _].
  apply shape_lookup in Hr as (n & Hn & _ & <-).
  apply (aggregate_is_container (heap s)) in Hcont as [v Hv].
  assert (heap (foldl recompute_at s (this :: l)) !! this
          = Some (recomputed (heap s) this v n)) as Hself.
  { cbn [foldl]. apply NoDup_cons in Hnd as [Hthis _].
    rewrite (foldl_recompute_at_lookup_notin _ _ _ Hthis).
    by apply recompute_at_lookup_eq. }
  exists n, v, l. split_and!; try done.
  - apply shape_foldl_recompute_at.
  - rewrite (foldl_recompute_at_emitted _ _ Hk Hnd). cbn [fmap list_fmap].
    do 3 f_equal. unfold value_of. by rewrite Hself.
Qed.

(** What [push] and [insert] do after the new list is stored. *)
Lemma add_child_effect fuel this c s s' n nc controls' :
  heap s !! this = Some n →
  heap (restructured s this n (KControlArray controls')) !! c = Some nc →
  Container__updateValue fuel this
    (reparented (restructured s this n (KControlArray controls')) c this nc)
    = Ok (tt, s') →
  ∃ n' nc' evs,
    heap s' !! this = Some n' ∧ kind n' = KControlArray controls' ∧
    _value n' = JArr (value_of (heap s) <$> controls') ∧ _pristine n' = false ∧
    heap s' !! c = Some nc' ∧ _parent nc' = Some this ∧
    emitted s' = emitted s ++ (this, _value n') :: evs.
Proof.
  intros Hn Hc Hrun. cbn in Hc.
  apply updateValue_self in Hrun
    as (n1 & v & l & Hn1 & Hv & _ & _ & _ & Hself & Hshape & Hem).
  cbn in Hn1, Hv, Hem.
  assert (shape (heap (reparented (restructured s this n (KControlArray controls'))
                                  c this nc)) !! c
          = Some (Some this, kind nc)) as Hshc.
  { apply shape_lookup. eexists. cbn. by rewrite lookup_insert_eq. }
  rewrite <- Hshape in Hshc. apply shape_lookup in Hshc as (nc' & Hnc' & Hpc & _).
  assert (kind n1 = KControlArray controls') as Hk1.
  { destruct (decide (this = c)) as [->|Hne].
    - rewrite lookup_insert_eq in Hn1, Hc. injection Hn1 as <-. by injection Hc as <-.
    - rewrite lookup_insert_ne, lookup_insert_eq in Hn1 by done. by injection Hn1 as <-. }
  rewrite Hk1 in Hv. cbn in Hv. injection Hv as <-.
  eexists _, nc', _. split; [exact Hself|]. split_and!; try done.
  cbn. f_equal. apply list_fmap_ext. intros i x _.
  rewrite (value_of_insert_same _ _ nc); [|done|done].
  by rewrite (value_of_insert_same _ _ n).
Qed.

End AddRemove.

(** ** find *)

Section Find.
Context {Fn : Type} `{!Callable Fn}.
Implicit Types (h : gmap nat (Node Fn)) (proto : Prototype).

(** Once the walk has yielded nothing, it yields nothing to the end. *)
Lemma find_step_absent proto h (path : list string) :
  foldl (find_step proto h) None path = None.
Proof. induction path as [|name path IH]; [done | exact IH]. Qed.

(** From an inherited property the walk goes nowhere: it is no
    [ControlGroup]. *)
Lemma find_step_inherited proto h nm (path : list string) :
  foldl (find_step proto h) (Some (FInherited nm)) path
  = match path with [] => Some (FInherited nm) | _ => None end.
Proof. destruct path as [|name path]; [done|]. apply find_step_absent. Qed.

Lemma find_step_eq proto h this name :
  find_step proto h (Some (FControl this)) name =
  match kind <$> h !! this with
  | Some (KControlGroup controls _) => plain_get proto controls name
  | _ => None
  end.
Proof.
  unfold find_step. destruct (kind <$> h !! this) as [[|controls opt|]|]; try done.
  by destruct (plain_get proto controls name).
Qed.

(** A step to a stored child. *)
Lemma find_step_own proto h this n controls _optionals name c :
  h !! this = Some n → kind n = KControlGroup controls _optionals →
  controls !! name = Some c →
  find_step proto h (Some (FControl this)) name = Some (FControl c).
Proof.
  intros Hn Hk Hc. rewrite find_step_eq, Hn. cbn. rewrite Hk.
  unfold plain_get. by rewrite Hc.
Qed.

(** A step yields a control exactly when the node is a group that stores
    a child under the name. *)
Lemma find_step_FControl proto h r name c :
  find_step proto h (Some (FControl r)) name = Some (FControl c) ↔
  ∃ n controls _optionals,
    h !! r = Some n ∧ kind n = KControlGroup controls _optionals ∧
    controls !! name = Some c.
Proof.
  rewrite find_step_eq. split.
  - destruct (h !! r) as [n|] eqn:Hn; cbn; [|done].
    destruct (kind n) as [|controls opt|] eqn:Hk; try done.
    unfold plain_get. destruct (controls !! name) as [c'|] eqn:Hc.
    + intros [= <-]. by exists n, controls, opt.
    + by destruct (proto name).
  - intros (n & controls & opt & Hn & Hk & Hc). rewrite Hn. cbn. rewrite Hk.
    unfold plain_get. by rewrite Hc.
Qed.

(** [find] on a group is the reduction over the segments. *)
Lemma ControlGroup_find_group proto h this n controls _optionals path :
  h !! this = Some n → kind n = KControlGroup controls _optionals →
  ControlGroup_find proto h this (PathList path)
  = Ok (foldl (find_step proto h) (Some (FControl this)) path).
Proof. intros Hn Hk. unfold ControlGroup_find. rewrite Hn. cbn. by rewrite Hk. Qed.
End Find.

(** ** A program logic for the operations *)

Section Hoare.
Context {Fn : Type} `{!Callable Fn}.
Implicit Types (s : State Fn).

Lemma hoare_ret {A} (P : State Fn → Prop) (a : A) (Q : A → State Fn → Prop) :
  (∀ s, P s → Q a s) → hoare P (mret a) Q.
Proof. intros HQ s HP. by apply HQ. Qed.

Lemma hoare_bind {A B} (P : State Fn → Prop) (m : M Fn A) (k : A → M Fn B)
    (Q : A → State Fn → Prop) (R : B → State Fn → Prop) :
  hoare P m Q → (∀ a, hoare (Q a) (k a) R) → hoare P (m ≫= k) R.
Proof.
  intros Hm Hk s HP. rewrite run_bind. specialize (Hm s HP).
  destruct (m s) as [[a s1]| |]; [|done..]. by apply Hk.
Qed.

Lemma hoare_weaken {A} (P P' : State Fn → Prop) (m : M Fn A)
    (Q Q' : A → State Fn → Prop) :
  hoare P m Q → (∀ s, P' s → P s) → (∀ a s, Q a s → Q' a s) → hoare P' m Q'.
Proof.
  intros Hm HP HQ s HP'. specialize (Hm s (HP s HP')).
  destruct (m s) as [[a s1]| |]; [|done..]. by apply HQ.
Qed.

Lemma hoare_raise {A} (P : State Fn → Prop) e (Q : A → State Fn → Prop) :
  hoare P (raise e) Q.
Proof. by intros s _. Qed.

Lemma hoare_out_of_fuel {A} (P : State Fn → Prop) (Q : A → State Fn → Prop) :
  hoare P out_of_fuel Q.
Proof. by intros s _. Qed.

Lemma hoare_get_node (P : State Fn → Prop) r :
  hoare P (get_node r) (λ n s, P s ∧ heap s !! r = Some n).
Proof.
  intros s HP. unfold get_node. destruct (heap s !! r) as [n|] eqn:Hr; [|done].
  cbn. by rewrite Hr.
Qed.

Lemma hoare_get_heap (P : State Fn → Prop) :
  hoare P get_heap (λ h s, P s ∧ h = heap s).
Proof. by intros s HP. Qed.

Lemma hoare_update_node (P : State Fn → Prop) r f (Q : unit → State Fn → Prop) :
  (∀ s n, P s → heap s !! r = Some n →
          Q tt (mkState (<[r := f n]> (heap s)) (emitted s))) →
  hoare P (update_node r f) Q.
Proof.
  intros HQ s HP. unfold update_node. destruct (heap s !! r) eqn:Hr; [|done].
  by apply HQ.
Qed.

Lemma hoare_emit (P : State Fn → Prop) r v (Q : unit → State Fn → Prop) :
  (∀ s, P s → Q tt (mkState (heap s) (emitted s ++ [(r, v)]))) →
  hoare P (emit r v) Q.
Proof. intros HQ s HP. by apply HQ. Qed.

Lemma hoare_alloc (P : State Fn → Prop) n (Q : nat → State Fn → Prop) :
  (∀ s, P s → heap s !! fresh (dom (heap s)) = None →
        Q (fresh (dom (heap s)))
          (mkState (<[fresh (dom (heap s)) := n]> (heap s)) (emitted s))) →
  hoare P (alloc n) Q.
Proof.
  intros HQ s HP. apply HQ; [done|]. apply not_elem_of_dom, is_fresh.
Qed.

Lemma hoare_run_validator (P : State Fn → Prop) r (Q : unit → State Fn → Prop) :
  (∀ s n, P s → heap s !! r = Some n → Q tt (revalidate_at s r)) →
  hoare P (run_validator r) Q.
Proof.
  intros HQ s HP. destruct (heap s !! r) as [n|] eqn:Hr.
  - rewrite (run_validator_eq _ _ _ Hr). by eapply HQ.
  - by rewrite (run_validator_absent _ _ Hr).
Qed.

Lemma benign_set_value v : benign (set_value (Fn:=Fn) v).
Proof. by intros n. Qed.
Lemma benign_set_parent p : benign (set_parent (Fn:=Fn) p).
Proof. by intros n. Qed.
Lemma benign_set_kind k : benign (set_kind (Fn:=Fn) k).
Proof. by intros n. Qed.
Lemma benign_set_pristine_false : benign (set_pristine (Fn:=Fn) false).
Proof. by intros n. Qed.
End Hoare.

(** ** An invariance principle for the public operations *)

Section Invariance.
Context {Fn : Type} `{!Callable Fn}.
Implicit Types (s : State Fn).

(** [I x s]: the invariant holds in [s], except possibly at the object [x]
    that a constructor has allocated and not yet validated. *)
Variable I : option nat → State Fn → Prop.

Hypothesis I_benign : ∀ x s r n f,
  benign f → I x s → heap s !! r = Some n →
  I x (mkState (<[r := f n]> (heap s)) (emitted s)).
Hypothesis I_validate : ∀ x s r n,
  I x s → heap s !! r = Some n → (x = None ∨ x = Some r) →
  I None (revalidate_at s r).
Hypothesis I_emit : ∀ x s r v, I x s → I x (mkState (heap s) (emitted s ++ [(r, v)])).
Hypothesis I_alloc : ∀ s f k,
  I None s → heap s !! fresh (dom (heap s)) = None →
  I (Some (fresh (dom (heap s))))
    (mkState (<[fresh (dom (heap s)) := mkNode JUndefined None None true None f k]> (heap s))
             (emitted s)).

Lemma inv_update_node x r f :
  benign f → hoare (I x) (update_node r f) (λ _, I x).
Proof using I_benign. intros Hf. apply hoare_update_node. intros s n HI Hn. by apply I_benign. Qed.

Lemma inv_run_validator x r :
  x = None ∨ x = Some r → hoare (I x) (run_validator r) (λ _, I None).
Proof using I_validate.
  intros Hx. apply hoare_run_validator. intros s n HI Hn. by eapply I_validate.
Qed.

Lemma inv_Control__setValueErrorsStatus x r v :
  x = None ∨ x = Some r → hoare (I x) (Control__setValueErrorsStatus r v) (λ _, I None).
Proof using I_benign I_validate.
  intros Hx. unfold Control__setValueErrorsStatus.
  eapply hoare_bind; [apply inv_update_node, benign_set_value|].
  intros ?. by apply inv_run_validator.
Qed.

Lemma inv_Container__setValueErrorsStatus x r :
  x = None ∨ x = Some r → hoare (I x) (Container__setValueErrorsStatus r) (λ _, I None).
Proof using I_benign I_validate.
  intros Hx. unfold Container__setValueErrorsStatus.
  eapply hoare_bind; [apply hoare_get_node|]. intros n.
  eapply hoare_bind; [apply hoare_get_heap|]. intros h.
  destruct (aggregate h (kind n)); [|apply hoare_raise].
  eapply hoare_bind.
  - eapply hoare_weaken; [apply (inv_update_node x), benign_set_value| |done].
    by intros s [[HI _] _].
  - intros ?. by apply inv_run_validator.
Qed.

Lemma inv_callNext_valueChanges x r :
  hoare (I x) (callNext_valueChanges r) (λ _, I x).
Proof using I_emit.
  unfold callNext_valueChanges. eapply hoare_bind; [apply hoare_get_node|].
  intros n. apply hoare_emit. intros s [HI _]. by apply I_emit.
Qed.

Lemma inv_Container__updateValue fuel r :
  hoare (I None) (Container__updateValue fuel r) (λ _, I None).
Proof using I_benign I_validate I_emit.
  revert r. induction fuel as [|fuel IH]; intros r; [apply hoare_out_of_fuel|].
  cbn [Container__updateValue].
  eapply hoare_bind; [apply inv_Container__setValueErrorsStatus; by left|]. intros ?.
  eapply hoare_bind; [apply inv_update_node, benign_set_pristine_false|]. intros ?.
  eapply hoare_bind; [apply inv_callNext_valueChanges|]. intros ?.
  unfold AbstractControl__updateParent.
  eapply hoare_bind; [apply hoare_get_node|]. intros n.
  destruct (_parent n).
  - eapply hoare_weaken; [apply IH| |done]. by intros s [HI _].
  - apply hoare_ret. by intros s [HI _].
Qed.

Lemma inv_AbstractControl_updateValidity fuel r :
  hoare (I None) (AbstractControl_updateValidity fuel r) (λ _, I None).
Proof using I_validate.
  revert r. induction fuel as [|fuel IH]; intros r; [apply hoare_out_of_fuel|].
  cbn [AbstractControl_updateValidity].
  eapply hoare_bind; [apply inv_run_validator; by left|]. intros ?.
  eapply hoare_bind; [apply hoare_get_node|]. intros n.
  destruct (_parent n).
  - eapply hoare_weaken; [apply IH| |done]. by intros s [HI _].
  - apply hoare_ret. by intros s [HI _].
Qed.

Lemma inv_Control_updateValue fuel r v :
  hoare (I None) (Control_updateValue fuel r v) (λ _, I None).
Proof using I_benign I_validate I_emit.
  unfold Control_updateValue.
  eapply hoare_bind; [apply hoare_get_node|]. intros n.
  destruct (kind n); try apply hoare_raise.
  eapply hoare_bind.
  { eapply hoare_weaken; [apply (inv_Control__setValueErrorsStatus None); by left| |done].
    by intros s [HI _]. }
  intros ?.
  eapply hoare_bind; [apply inv_update_node, benign_set_pristine_false|]. intros ?.
  eapply hoare_bind; [apply inv_callNext_valueChanges|]. intros ?.
  unfold AbstractControl__updateParent.
  eapply hoare_bind; [apply hoare_get_node|]. intros n'.
  destruct (_parent n').
  - eapply hoare_weaken; [apply inv_Container__updateValue| |done]. by intros s [HI _].
  - apply hoare_ret. by intros s [HI _].
Qed.

Lemma inv_setParents x this (l : list nat) :
  hoare (I x)
    (foldr (λ control rest, AbstractControl_setParent control this;; rest) (mret tt) l)
    (λ _, I x).
Proof using I_benign.
  induction l as [|c l IH]; cbn [foldr].
  - by apply hoare_ret.
  - eapply hoare_bind; [apply inv_update_node, benign_set_parent|]. intros ?. apply IH.
Qed.

Lemma inv_Container__setParentForControls x this :
  hoare (I x) (Container__setParentForControls this) (λ _, I x).
Proof using I_benign.
  unfold Container__setParentForControls.
  eapply hoare_bind; [apply hoare_get_node|]. intros n.
  eapply hoare_weaken; [apply (inv_setParents x)| |done]. by intros s [HI _].
Qed.

Lemma inv_AbstractControl_constructor f k :
  hoare (I None) (AbstractControl_constructor f k) (λ r, I (Some r)).
Proof using I_alloc.
  unfold AbstractControl_constructor. apply hoare_alloc. intros s HI Hfresh.
  by apply I_alloc.
Qed.

Lemma inv_new_Control v f : hoare (I None) (new_Control v f) (λ _, I None).
Proof using I_benign I_validate I_alloc.
  unfold new_Control.
  eapply hoare_bind; [apply inv_AbstractControl_constructor|]. intros r.
  eapply hoare_bind; [apply inv_Control__setValueErrorsStatus; by right|]. intros ?.
  by apply hoare_ret.
Qed.

Lemma inv_new_ControlGroup controls optionals f :
  hoare (I None) (new_ControlGroup controls optionals f) (λ _, I None).
Proof using I_benign I_validate I_alloc.
  unfold new_ControlGroup.
  eapply hoare_bind; [apply inv_AbstractControl_constructor|]. intros r.
  eapply hoare_bind; [apply inv_Container__setParentForControls|]. intros ?.
  eapply hoare_bind; [apply inv_Container__setValueErrorsStatus; by right|]. intros ?.
  by apply hoare_ret.
Qed.

Lemma inv_new_ControlArray controls f :
  hoare (I None) (new_ControlArray controls f) (λ _, I None).
Proof using I_benign I_validate I_alloc.
  unfold new_ControlArray.
  eapply hoare_bind; [apply inv_AbstractControl_constructor|]. intros r.
  eapply hoare_bind; [apply inv_Container__setParentForControls|]. intros ?.
  eapply hoare_bind; [apply inv_Container__setValueErrorsStatus; by right|]. intros ?.
  by apply hoare_ret.
Qed.

Lemma inv_as_ControlGroup this :
  hoare (I None) (as_ControlGroup this) (λ _, I None).
Proof.
  unfold as_ControlGroup. eapply hoare_bind; [apply hoare_get_node|]. intros n.
  destruct (kind n); try apply hoare_raise. apply hoare_ret. by intros s [HI _].
Qed.

Lemma inv_as_ControlArray this :
  hoare (I None) (as_ControlArray this) (λ _, I None).
Proof.
  unfold as_ControlArray. eapply hoare_bind; [apply hoare_get_node|]. intros n.
  destruct (kind n); try apply hoare_raise. apply hoare_ret. by intros s [HI _].
Qed.

(** Every public operation that returns preserves the invariant. *)
Lemma inv_run_op fuel op : hoare (I None) (run_op fuel op) (λ _, I None).
Proof using I_benign I_validate I_emit I_alloc.
  destruct op as [value f|controls optionals f|controls f|this v|this parent|this
    |this value|this name c|this name|this name|this name|this control
    |this index control|this index]; cbn [run_op].
  - eapply hoare_bind; [apply inv_new_Control|]. intros ?. by apply hoare_ret.
  - eapply hoare_bind; [apply inv_new_ControlGroup|]. intros ?. by apply hoare_ret.
  - eapply hoare_bind; [apply inv_new_ControlArray|]. intros ?. by apply hoare_ret.
  - apply inv_update_node, benign_set_value.
  - apply inv_update_node, benign_set_parent.
  - apply inv_AbstractControl_updateValidity.
  - apply inv_Control_updateValue.
  - unfold ControlGroup_addControl.
    eapply hoare_bind; [apply inv_as_ControlGroup|]. intros g.
    apply inv_update_node, benign_set_kind.
  - unfold ControlGroup_removeControl.
    eapply hoare_bind; [apply inv_as_ControlGroup|]. intros g.
    apply inv_update_node, benign_set_kind.
  - unfold ControlGroup_include.
    eapply hoare_bind; [apply inv_as_ControlGroup|]. intros g.
    eapply hoare_bind; [apply inv_update_node, benign_set_kind|]. intros ?.
    apply inv_Container__updateValue.
  - unfold ControlGroup_exclude.
    eapply hoare_bind; [apply inv_as_ControlGroup|]. intros g.
    eapply hoare_bind; [apply inv_update_node, benign_set_kind|]. intros ?.
    apply inv_Container__updateValue.
  - unfold ControlArray_push.
    eapply hoare_bind; [apply inv_as_ControlArray|]. intros g.
    eapply hoare_bind; [apply inv_update_node, benign_set_kind|]. intros ?.
    eapply hoare_bind; [apply inv_update_node, benign_set_parent|]. intros ?.
    apply inv_Container__updateValue.
  - unfold ControlArray_insert.
    eapply hoare_bind; [apply inv_as_ControlArray|]. intros g.
    destruct (ListWrapper_insert g index control) as [g'|]; [|apply hoare_raise].
    eapply hoare_bind; [apply inv_update_node, benign_set_kind|]. intros ?.
    eapply hoare_bind; [apply inv_update_node, benign_set_parent|]. intros ?.
    apply inv_Container__updateValue.
  - unfold ControlArray_removeAt.
    eapply hoare_bind; [apply inv_as_ControlArray|]. intros g.
    destruct (ListWrapper_removeAt g index) as [g'|]; [|apply hoare_raise].
    eapply hoare_bind; [apply inv_update_node, benign_set_kind|]. intros ?.
    apply inv_Container__updateValue.
Qed.

Lemma inv_run_ops fuel ops : hoare (I None) (run_ops fuel ops) (λ _, I None).
Proof using I_benign I_validate I_emit I_alloc.
  induction ops as [|op ops IH]; cbn [run_ops].
  - by apply hoare_ret.
  - eapply hoare_bind; [apply inv_run_op|]. intros ?. apply IH.
Qed.
End Invariance.

(** ** The status rule and the pristine flag over all operations *)

Section StatusPristine.
Context {Fn : Type} `{!Callable Fn}.
Implicit Types (s : State Fn).

Lemma status_ok_validated (h : gmap nat (Node Fn)) r n : status_ok (validated h r n).
Proof.
  unfold status_ok, validated. cbn.
  destruct (call (validator n) h r) as [e|]; cbn.
  - split; [by split; eauto | by right].
  - split; [|by left]. split; [done | by intros [? ?]].
Qed.

Lemma status_ok_but_benign x s r n f :
  benign f → status_ok_but x s → heap s !! r = Some n →
  status_ok_but x (mkState (<[r := f n]> (heap s)) (emitted s)).
Proof.
  intros Hf HI Hn r' n' Hn' Hx. cbn in Hn'.
  destruct (decide (r' = r)) as [->|Hne].
  - rewrite lookup_insert_eq in Hn'. injection Hn' as <-.
    destruct (Hf n) as (Hst & Her & _). specialize (HI r n Hn Hx).
    unfold status_ok in *. by rewrite Hst, Her.
  - rewrite lookup_insert_ne in Hn' by done. by eapply HI.
Qed.

Lemma status_ok_but_validate x s r n :
  status_ok_but x s → heap s !! r = Some n → x = None ∨ x = Some r →
  status_ok_but None (revalidate_at s r).
Proof.
  intros HI Hn Hx r' n' Hn' _.
  destruct (decide (r' = r)) as [->|Hne].
  - rewrite (revalidate_at_lookup_eq _ _ _ Hn) in Hn'. injection Hn' as <-.
    apply status_ok_validated.
  - rewrite revalidate_at_lookup_ne in Hn' by done. apply (HI r' n' Hn').
    destruct Hx as [-> | ->]; congruence.
Qed.

Lemma status_ok_but_alloc s f k :
  status_ok_but None s → heap s !! fresh (dom (heap s)) = None →
  status_ok_but (Some (fresh (dom (heap s))))
    (mkState (<[fresh (dom (heap s)) := mkNode JUndefined None None true None f k]> (heap s))
             (emitted s)).
Proof.
  intros HI Hfresh r n Hn Hx. cbn in Hn.
  rewrite lookup_insert_ne in Hn by congruence. by eapply HI.
Qed.

(** C2. After every sequence of public operations that return, started
    where no object exists yet or in any state where the rule holds, every
    object has status [INVALID] exactly when its errors are present, and
    its status is one of the two strings [VALID] and [INVALID]. *)
Theorem status_invariant fuel (ops : list (Op Fn)) s s' :
  (∀ r n, heap s !! r = Some n → status_ok n) →
  run_ops fuel ops s = Ok (tt, s') →
  ∀ r n, heap s' !! r = Some n →
    (_status n = Some INVALID ↔ is_Some (_errors n)) ∧
    (_status n = Some VALID ∨ _status n = Some INVALID).
Proof.
  intros Hs Hrun r n Hn.
  pose proof (inv_run_ops status_ok_but status_ok_but_benign status_ok_but_validate
                (λ x s r v HI, HI) status_ok_but_alloc fuel ops s) as Hinv.
  rewrite Hrun in Hinv. apply (Hinv (λ r n Hn _, Hs r n Hn) r n Hn). done.
Qed.

Lemma pristine_kept_refl s : pristine_kept s s.
Proof. intros r n Hn. by exists n. Qed.

Lemma pristine_kept_benign s0 s r n f :
  benign f → pristine_kept s0 s → heap s !! r = Some n →
  pristine_kept s0 (mkState (<[r := f n]> (heap s)) (emitted s)).
Proof.
  intros Hf HI Hn r0 n0 Hn0. destruct (HI r0 n0 Hn0) as (n1 & Hn1 & Hp). cbn.
  destruct (decide (r0 = r)) as [->|Hne].
  - exists (f n). rewrite lookup_insert_eq. split; [done|].
    assert (n1 = n) as -> by congruence. intros H0. by apply Hf, Hp.
  - exists n1. by rewrite lookup_insert_ne.
Qed.

Lemma pristine_kept_validate s0 s r n :
  pristine_kept s0 s → heap s !! r = Some n → pristine_kept s0 (revalidate_at s r).
Proof.
  intros HI Hn r0 n0 Hn0. destruct (HI r0 n0 Hn0) as (n1 & Hn1 & Hp).
  destruct (decide (r0 = r)) as [->|Hne].
  - exists (validated (heap s) r n). rewrite (revalidate_at_lookup_eq _ _ _ Hn).
    split; [done|]. assert (n1 = n) as -> by congruence. exact Hp.
  - exists n1. by rewrite revalidate_at_lookup_ne.
Qed.

Lemma pristine_kept_alloc s0 s n :
  pristine_kept s0 s → heap s !! fresh (dom (heap s)) = None →
  pristine_kept s0 (mkState (<[fresh (dom (heap s)) := n]> (heap s)) (emitted s)).
Proof.
  intros HI Hfresh r0 n0 Hn0. destruct (HI r0 n0 Hn0) as (n1 & Hn1 & Hp).
  exists n1. cbn. rewrite lookup_insert_ne by congruence. done.
Qed.

Lemma fresh_pristine_update s0 r s r' n f :
  (∀ n, _pristine (f n) = _pristine n) →
  fresh_pristine s0 r s → heap s !! r' = Some n →
  fresh_pristine s0 r (mkState (<[r' := f n]> (heap s)) (emitted s)).
Proof.
  intros Hf [Hfresh (n1 & Hn1 & Hp)] Hn. split; [done|]. cbn.
  destruct (decide (r = r')) as [->|Hne].
  - exists (f n). rewrite lookup_insert_eq. split; [done|].
    assert (n1 = n) as -> by congruence. by rewrite Hf.
  - exists n1. by rewrite lookup_insert_ne.
Qed.

Lemma fresh_pristine_validate s0 r r' :
  hoare (fresh_pristine s0 r) (run_validator r') (λ _, fresh_pristine s0 r).
Proof.
  apply hoare_run_validator. intros s n [Hfresh (n1 & Hn1 & Hp)] Hn. split; [done|].
  destruct (decide (r = r')) as [->|Hne].
  - exists (validated (heap s) r' n). rewrite (revalidate_at_lookup_eq _ _ _ Hn).
    split; [done|]. assert (n1 = n) as -> by congruence. exact Hp.
  - exists n1. by rewrite revalidate_at_lookup_ne.
Qed.

Lemma fresh_pristine_constructor s0 f k :
  hoare (λ s, s = s0) (AbstractControl_constructor f k) (fresh_pristine s0).
Proof.
  apply hoare_alloc. intros s -> Hfresh. split; [done|]. cbn.
  eexists. by rewrite lookup_insert_eq.
Qed.

Lemma fresh_pristine_container s0 r :
  hoare (fresh_pristine s0 r)
    (Container__setParentForControls r;; Container__setValueErrorsStatus r;; mret r)
    (fresh_pristine s0).
Proof.
  eapply hoare_bind with (Q := λ _, fresh_pristine s0 r).
  { unfold Container__setParentForControls.
    eapply hoare_bind; [apply hoare_get_node|]. intros n.
    eapply hoare_weaken with (P := fresh_pristine s0 r) (Q := λ _, fresh_pristine s0 r);
      [|by intros s [HI _]|done].
    induction (children (kind n)) as [|c l IH]; cbn [foldr]; [by apply hoare_ret|].
    eapply hoare_bind; [|intros ?; apply IH].
    apply hoare_update_node. intros s n' HI Hn'. by apply fresh_pristine_update. }
  intros ?. eapply hoare_bind with (Q := λ _, fresh_pristine s0 r);
    [|intros ?; by apply hoare_ret].
  unfold Container__setValueErrorsStatus.
  eapply hoare_bind; [apply hoare_get_node|]. intros n.
  eapply hoare_bind; [apply hoare_get_heap|]. intros h.
  destruct (aggregate h (kind n)); [|apply hoare_raise].
  eapply hoare_bind; [|intros ?; apply fresh_pristine_validate].
  apply hoare_update_node. intros s n' [[HI _] _] Hn'. by apply fresh_pristine_update.
Qed.

(** C7. The object each constructor returns is new and has
    [pristine = true]; and over every sequence of public operations that
    return, every object stays in the store and, if its [pristine] was
    false before, it is false after: nothing sets it back to true. *)
Theorem pristine_monotone :
  (∀ value f (s s' : State Fn) r,
     new_Control value f s = Ok (r, s') → fresh_pristine s r s') ∧
  (∀ controls optionals f (s s' : State Fn) r,
     new_ControlGroup controls optionals f s = Ok (r, s') → fresh_pristine s r s') ∧
  (∀ controls f (s s' : State Fn) r,
     new_ControlArray controls f s = Ok (r, s') → fresh_pristine s r s') ∧
  (∀ fuel (ops : list (Op Fn)) s s',
     run_ops fuel ops s = Ok (tt, s') →
     ∀ r n, heap s !! r = Some n →
       ∃ n', heap s' !! r = Some n' ∧ (_pristine n = false → _pristine n' = false)).
Proof.
  split_and!.
  - intros value f s s' r Hrun.
    assert (hoare (λ s1, s1 = s) (new_Control value f) (fresh_pristine s)) as Hh.
    { unfold new_Control.
      eapply hoare_bind; [apply fresh_pristine_constructor|]. intros r0.
      eapply hoare_bind with (Q := λ _, fresh_pristine s r0);
        [|intros ?; by apply hoare_ret].
      unfold Control__setValueErrorsStatus.
      eapply hoare_bind; [|intros ?; apply fresh_pristine_validate].
      apply hoare_update_node. intros s1 n HI Hn. by apply fresh_pristine_update. }
    specialize (Hh s eq_refl). by rewrite Hrun in Hh.
  - intros controls optionals f s s' r Hrun.
    assert (hoare (λ s1, s1 = s) (new_ControlGroup controls optionals f)
                  (fresh_pristine s)) as Hh.
    { unfold new_ControlGroup.
      eapply hoare_bind; [apply fresh_pristine_constructor|]. intros r0.
      apply fresh_pristine_container. }
    specialize (Hh s eq_refl). by rewrite Hrun in Hh.
  - intros controls f s s' r Hrun.
    assert (hoare (λ s1, s1 = s) (new_ControlArray controls f) (fresh_pristine s)) as Hh.
    { unfold new_ControlArray.
      eapply hoare_bind; [apply fresh_pristine_constructor|]. intros r0.
      apply fresh_pristine_container. }
    specialize (Hh s eq_refl). by rewrite Hrun in Hh.
  - intros fuel ops s s' Hrun.
    pose proof (inv_run_ops (λ _, pristine_kept s)
                  (λ _, pristine_kept_benign s)
                  (λ _ s1 r n HI Hn _, pristine_kept_validate s s1 r n HI Hn)
                  (λ _ s1 r v HI, HI)
                  (λ s1 f k, pristine_kept_alloc s s1 _) fuel ops s (pristine_kept_refl s))
      as Hinv.
    by rewrite Hrun in Hinv.
Qed.
End StatusPristine.

Lemma status_invariant_witness :
  (∀ r n, heap (initial (Fn:=TestFn)) !! r = Some n → status_ok n) ∧
  ∃ s', run_ops 2 (scenario_B_ops ++ [Exclude 2 "b"; UpdateValue 1 (JNum 3)]) initial
          = Ok (tt, s') ∧
        ∀ r n, heap s' !! r = Some n →
          (_status n = Some INVALID ↔ is_Some (_errors n)) ∧
          (_status n = Some VALID ∨ _status n = Some INVALID).
Proof.
  assert (∀ r n, heap (initial (Fn:=TestFn)) !! r = Some n → status_ok n) as Hinit.
  { intros r n Hn. cbn in Hn. rewrite lookup_empty in Hn. discriminate Hn. }
  split; [exact Hinit|].
  destruct (run_ops 2 (scenario_B_ops ++ [Exclude 2 "b"; UpdateValue 1 (JNum 3)]) initial)
    as [[[] s']| |] eqn:Hrun; [|exfalso; vm_compute in Hrun; discriminate..].
  exists s'. split; [reflexivity|].
  exact (status_invariant 2 _ initial s' Hinit Hrun).
Defined.

Lemma pristine_monotone_witness :
  ∃ s', run_ops 2 [UpdateValidity 0; SetValue 0 JNull; Exclude 2 "a"] scenario_B_dirty
          = Ok (tt, s') ∧
        ∃ n', heap s' !! 0 = Some n' ∧ _pristine n' = false.
Proof.
  destruct (run_ops 2 [UpdateValidity 0; SetValue 0 JNull; Exclude 2 "a"] scenario_B_dirty)
    as [[[] s']| |] eqn:Hrun; [|exfalso; vm_compute in Hrun; discriminate..].
  exists s'. split; [reflexivity|].
  assert (heap scenario_B_dirty !! 0
          = Some (mkNode (JNum 2) (Some VALID) None false (Some 2) accept_all KControl))
    as Hn by solve_lookup.
  destruct (proj2 (proj2 (proj2 pristine_monotone)) 2 _ scenario_B_dirty s' Hrun 0 _ Hn)
    as (n' & Hn' & Hp).
  exists n'. split; [exact Hn' | exact (Hp eq_refl)].
Defined.

(** ** exclude and include *)

Section Exclusion.
Context {Fn : Type} `{!Callable Fn}.
Implicit Types (h : gmap nat (Node Fn)) (s : State Fn).

Lemma shape_restructured_ne s this n k x :
  x ≠ this → shape (heap (restructured s this n k)) !! x = shape (heap s) !! x.
Proof. intros Hne. unfold shape. cbn. by rewrite !lookup_fmap, lookup_insert_ne. Qed.

Lemma shape_restructured_eq s this n k :
  shape (heap (restructured s this n k)) !! this = Some (_parent n, k).
Proof. unfold shape. cbn. by rewrite lookup_fmap, lookup_insert_eq. Qed.

(** New child storage does not change the parent chain of any node. *)
Lemma chain_restructured s this n k r l :
  heap s !! this = Some n →
  chain (shape (heap s)) r l → chain (shape (heap (restructured s this n k))) r l.
Proof.
  intros Hn. induction 1 as [r k' Hr | r p k' l Hr _ IH].
  - destruct (decide (r = this)) as [->|Hne].
    + apply shape_lookup in Hr as (n' & Hn' & Hp & _).
      assert (n' = n) as -> by congruence.
      eapply chain_root. by rewrite shape_restructured_eq, Hp.
    + eapply chain_root. by rewrite shape_restructured_ne.
  - destruct (decide (r = this)) as [->|Hne].
    + apply shape_lookup in Hr as (n' & Hn' & Hp & _).
      assert (n' = n) as -> by congruence.
      eapply chain_step; [|done]. by rewrite shape_restructured_eq, Hp.
    + eapply chain_step; [|done]. by rewrite shape_restructured_ne.
Qed.

Lemma containers_restructured s this n k l :
  is_container k = true →
  containers (shape (heap s)) l → containers (shape (heap (restructured s this n k))) l.
Proof.
  intros Hk Hl. unfold containers. eapply Forall_impl; [exact Hl|]. intros x Hx. cbn beta in *.
  destruct (decide (x = this)) as [->|Hne].
  - rewrite shape_restructured_eq. cbn. by rewrite Hk.
  - by rewrite shape_restructured_ne.
Qed.

Lemma status_at_insert_same h r n n' c :
  h !! r = Some n → _status n' = _status n →
  status_at (<[r := n']> h) c = status_at h c.
Proof.
  intros Hn Hst. unfold status_at. destruct (decide (c = r)) as [->|Hne].
  - rewrite lookup_insert_eq, Hn. cbn. by rewrite Hst.
  - by rewrite lookup_insert_ne.
Qed.

(** What [_updateValue] leaves at a group whose validator follows the
    default policy. *)
Lemma group_updateValue_result fuel this l s n controls _optionals :
  heap s !! this = Some n → kind n = KControlGroup controls _optionals →
  chain (shape (heap s)) this l → containers (shape (heap s)) l → length l < fuel →
  group_policy (validator n) →
  ∃ n', Container__updateValue fuel this s = Ok (tt, foldl recompute_at s (this :: l)) ∧
    heap (foldl recompute_at s (this :: l)) !! this = Some n' ∧
    kind n' = kind n ∧ validator n' = validator n ∧
    _value n' = ControlGroup__reduceValue (heap s) controls _optionals ∧
    (_status n' = Some INVALID ↔
     some_included_child_invalid (heap s) controls _optionals).
Proof.
  intros Hn Hk Hc Hcont Hfuel Hpol.
  assert (containers (shape (heap s)) (this :: l)) as Hcont'.
  { apply containers_cons. split; [|done].
    exists (_parent n), (kind n). split; [by apply shape_lookup_node | by rewrite Hk]. }
  pose proof (chain_NoDup _ _ _ Hc) as Hnd. apply NoDup_cons in Hnd as [Hthis _].
  set (v := ControlGroup__reduceValue (heap s) controls _optionals).
  assert (aggregate (heap s) (kind n) = Some v) as Hv by by rewrite Hk.
  exists (recomputed (heap s) this v n). split_and!; try done.
  - by apply updateValue_closed.
  - cbn [foldl]. rewrite (foldl_recompute_at_lookup_notin _ _ _ Hthis).
    by apply recompute_at_lookup_eq.
  - cbn. unfold status_for.
    set (hm := <[this := set_value v n]> (heap s)).
    assert (is_Some (call (validator n) hm this) ↔
            some_included_child_invalid (heap s) controls _optionals) as Hiff.
    { rewrite (Hpol hm this (set_value v n) controls _optionals);
        [|apply lookup_insert_eq|done].
      unfold some_included_child_invalid.
      assert (∀ c, status_at hm c = status_at (heap s) c) as Hsta.
      { intros c. by apply (status_at_insert_same _ _ n). }
      do 2 (apply exist_proper; intros ?). by rewrite Hsta. }
    rewrite <- Hiff. destruct (call (validator n) hm this); cbn.
    + split; eauto.
    + split; [done | by intros [? ?]].
Qed.

(** C5. [exclude(name)] on a keyed container of a tree, whose validator
    follows the default policy (invalid iff some included child is
    invalid): the call returns; the container's value then has no entry
    under [name], and its status is [INVALID] exactly when some included
    child under another name is invalid, whatever the state of the child
    under [name].  A following [include(name)] returns as well; the value
    then has the child's value under [name] again (and is the value
    aggregated with the original flags if the child was included before),
    and the child under [name] counts again for the status. *)
Theorem exclude_include_roundtrip fuel this name l s n controls _optionals :
  heap s !! this = Some n → kind n = KControlGroup controls _optionals →
  chain (shape (heap s)) this l → containers (shape (heap s)) l → length l < fuel →
  wf_parents (shape (heap s)) →
  group_policy (validator n) →
  ∃ s1 s2 n1 n2,
    ControlGroup_exclude fuel this name s = Ok (tt, s1) ∧
    heap s1 !! this = Some n1 ∧
    _value n1 = ControlGroup__reduceValue (heap s) controls (<[name := false]> _optionals) ∧
    obj_fields (_value n1) !! name = None ∧
    (_status n1 = Some INVALID ↔
     ∃ name' c, name' ≠ name ∧ controls !! name' = Some c ∧
                ControlGroup__included _optionals name' = true ∧
                status_at (heap s) c = Some INVALID) ∧
    ControlGroup_include fuel this name s1 = Ok (tt, s2) ∧
    heap s2 !! this = Some n2 ∧
    _value n2 = ControlGroup__reduceValue (heap s) controls (<[name := true]> _optionals) ∧
    obj_fields (_value n2) !! name = value_of (heap s) <$> controls !! name ∧
    (ControlGroup__included _optionals name = true →
     _value n2 = ControlGroup__reduceValue (heap s) controls _optionals) ∧
    (_status n2 = Some INVALID ↔
     ∃ name' c, controls !! name' = Some c ∧
                (name' = name ∨ ControlGroup__included _optionals name' = true) ∧
                status_at (heap s) c = Some INVALID).
Proof.
  intros Hn Hk Hc Hcont Hfuel Hwf Hpol.
  (* exclude *)
  set (k1 := KControlGroup controls (<[name := false]> _optionals)).
  set (s0 := restructured s this n k1).
  assert (heap s0 !! this = Some (set_kind k1 n)) as Hn0 by apply lookup_insert_eq.
  destruct (group_updateValue_result fuel this l s0 (set_kind k1 n) controls
              (<[name := false]> _optionals)) as (n1 & Hrun1 & Hn1 & Hk1 & Hf1 & Hv1 & Hst1);
    [done|done|by apply chain_restructured|by apply containers_restructured|done|done|].
  set (s1 := foldl recompute_at s0 (this :: l)) in *.
  assert (∀ c, value_of (heap s0) c = value_of (heap s) c) as Hval0.
  { intros c. by apply (value_of_insert_same _ _ n). }
  assert (∀ c, status_at (heap s0) c = status_at (heap s) c) as Hsta0.
  { intros c. by apply (status_at_insert_same _ _ n). }
  (* the children of the container are not on its parent chain *)
  assert (∀ name' c, controls !! name' = Some c → c ∉ this :: l) as Hchild.
  { intros name' c Hc'. eapply desc_not_on_chain; [done|done|].
    apply desc_child. exists (_parent n), (kind n).
    split; [by apply shape_lookup_node|]. rewrite Hk.
    apply elem_of_children_group. eauto. }
  assert (∀ name' c, controls !! name' = Some c → heap s1 !! c = heap s !! c) as Hsame1.
  { intros name' c Hc'. unfold s1.
    rewrite foldl_recompute_at_lookup_notin by eauto.
    cbn. rewrite lookup_insert_ne; [done|].
    intros ->. apply (Hchild _ _ Hc'). by left. }
  (* include *)
  set (k2 := KControlGroup controls (<[name := true]> (<[name := false]> _optionals))).
  set (s1' := restructured s1 this n1 k2).
  assert (kind n1 = k1) as Hk1' by by rewrite Hk1.
  assert (chain (shape (heap s1)) this l) as Hc1.
  { unfold s1. rewrite shape_foldl_recompute_at. by apply chain_restructured. }
  assert (containers (shape (heap s1)) l) as Hcont1.
  { unfold s1. rewrite shape_foldl_recompute_at. by apply containers_restructured. }
  assert (heap s1' !! this = Some (set_kind k2 n1)) as Hn1' by apply lookup_insert_eq.
  destruct (group_updateValue_result fuel this l s1' (set_kind k2 n1) controls
              (<[name := true]> (<[name := false]> _optionals)))
    as (n2 & Hrun2 & Hn2 & Hk2 & Hf2 & Hv2 & Hst2);
    [done|done|by apply chain_restructured|by apply containers_restructured|done| |].
  { cbn. by rewrite Hf1. }
  assert (∀ name' c, controls !! name' = Some c →
            value_of (heap s1') c = value_of (heap s) c) as Hval1.
  { intros name' c Hc'. unfold value_of, s1', restructured. cbn [heap].
    rewrite lookup_insert_ne, (Hsame1 _ _ Hc'); [done|].
    intros ->. apply (Hchild _ _ Hc'). by left. }
  assert (∀ name' c, controls !! name' = Some c →
            status_at (heap s1') c = status_at (heap s) c) as Hsta1.
  { intros name' c Hc'. unfold status_at, s1', restructured. cbn [heap].
    rewrite lookup_insert_ne, (Hsame1 _ _ Hc'); [done|].
    intros ->. apply (Hchild _ _ Hc'). by left. }
  assert (_value n1
          = ControlGroup__reduceValue (heap s) controls (<[name := false]> _optionals))
    as Hv1'.
  { rewrite Hv1. apply (inj Some).
    apply (aggregate_ext (heap s) (heap s0) k1). intros c _. apply Hval0. }
  assert (_value n2
          = ControlGroup__reduceValue (heap s) controls (<[name := true]> _optionals))
    as Hv2'.
  { rewrite Hv2, insert_insert_eq. apply (inj Some).
    apply (aggregate_ext (heap s) (heap s1')
             (KControlGroup controls (<[name := true]> _optionals))).
    intros c Hin. apply elem_of_children_group in Hin as [name' Hc']. by eapply Hval1. }
  exists s1, (foldl recompute_at s1' (this :: l)), n1, n2. split_and!.
  - by rewrite (ControlGroup_exclude_eq _ _ _ _ _ _ _ Hn Hk).
  - done.
  - done.
  - rewrite Hv1', ControlGroup__reduceValue_lookup, ControlGroup__included_insert.
    rewrite decide_True by done. by destruct (controls !! name).
  - rewrite Hst1. unfold some_included_child_invalid. split.
    + intros (name' & c & Hc' & Hinc & Hst).
      rewrite ControlGroup__included_insert in Hinc.
      destruct (decide (name = name')) as [->|Hne]; [done|].
      exists name', c. rewrite <- Hsta0. by split_and!.
    + intros (name' & c & Hne & Hc' & Hinc & Hst). exists name', c.
      rewrite ControlGroup__included_insert, decide_False by done.
      by rewrite Hsta0.
  - by rewrite (ControlGroup_include_eq _ _ _ _ _ _ _ Hn1 Hk1').
  - done.
  - done.
  - rewrite Hv2', ControlGroup__reduceValue_lookup, ControlGroup__included_insert.
    rewrite decide_True by done. by destruct (controls !! name).
  - intros Hinc. rewrite Hv2'. apply (inj Some).
    change (aggregate (heap s) (KControlGroup controls (<[name := true]> _optionals))
            = aggregate (heap s) (KControlGroup controls _optionals)).
    cbn. f_equal. rewrite !ControlGroup__reduceValue_eq. f_equal.
    apply map_eq. intros name'. rewrite !map_lookup_imap.
    destruct (controls !! name') as [c|]; [|done]. cbn.
    rewrite ControlGroup__included_insert.
    destruct (decide (name = name')) as [->|Hne]; [by rewrite Hinc | done].
  - rewrite Hst2, insert_insert_eq. unfold some_included_child_invalid. split.
    + intros (name' & c & Hc' & Hinc & Hst).
      rewrite ControlGroup__included_insert in Hinc.
      exists name', c. rewrite <- (Hsta1 _ _ Hc'). split_and!; [done| |done].
      destruct (decide (name = name')) as [->|Hne]; [by left | by right].
    + intros (name' & c & Hc' & Hinc & Hst). exists name', c.
      rewrite ControlGroup__included_insert, (Hsta1 _ _ Hc'). split_and!; [done| |done].
      destruct (decide (name = name')) as [->|Hne]; [done|].
      destruct Hinc as [->|Hinc]; done.
Qed.
End Exclusion.

(** ** The validators of the scenarios *)

Lemma any_child_invalid_group_policy : group_policy any_child_invalid.
Proof.
  intros h this n controls _optionals Hn Hk.
  unfold call, TestFn_call. rewrite Hn. cbn. rewrite Hk.
  unfold some_included_child_invalid, status_at.
  case_bool_decide as Hex.
  - split; [|by eauto]. intros _. destruct Hex as (name & c & Hc & Hinc & Hst). eauto.
  - split; [by intros [? ?]|]. intros (name & c & Hc & Hinc & Hst).
    exfalso. apply Hex. exists name, c. eauto.
Qed.

Lemma TestFn_reads_subtree_only (f : TestFn) : reads_subtree_only f.
Proof.
  intros h h' a n n' Hn Hn' Hv Hk Hbelow.
  assert (∀ c, c ∈ children (kind n) → h !! c = h' !! c) as Hchild.
  { intros c Hc. apply Hbelow, desc_child. exists (_parent n), (kind n).
    split; [by apply shape_lookup_node | done]. }
  destruct f; unfold call, TestFn_call; [done|rewrite Hn, Hn'; cbn..].
  - by rewrite Hv.
  - rewrite <- Hk. destruct (kind n) as [|controls _optionals|controls] eqn:Hkn; [done| |].
    + erewrite bool_decide_ext; [done|]. unfold map_Exists.
      do 2 (apply exist_proper; intros ?). split.
      * intros (Hc & Hinc & Hst). rewrite <- Hchild; [done|].
        apply elem_of_children_group. eauto.
      * intros (Hc & Hinc & Hst). rewrite Hchild; [done|].
        apply elem_of_children_group. eauto.
    + erewrite bool_decide_ext; [done|]. rewrite !Exists_exists.
      apply exist_proper; intros c. split.
      * intros (Hc & Hst). by rewrite <- Hchild.
      * intros (Hc & Hst). by rewrite Hchild.
Qed.

Lemma scenario_B_wf : wf_parents (shape (heap scenario_B)).
Proof. apply (bool_decide_unpack _). vm_compute. exact I. Defined.

Lemma exclude_include_roundtrip_witness :
  ∃ s1 s2 n1 n2,
    ControlGroup_exclude 1 2 "b" scenario_B = Ok (tt, s1) ∧
    heap s1 !! 2 = Some n1 ∧ _value n1 = JObj {[ "a" := JNum 1 ]} ∧
    _status n1 = Some VALID ∧
    ControlGroup_include 1 2 "b" s1 = Ok (tt, s2) ∧
    heap s2 !! 2 = Some n2 ∧ _value n2 = JObj {[ "a" := JNum 1; "b" := JNull ]} ∧
    _status n2 = Some INVALID.
Proof.
  assert (heap scenario_B !! 2
          = Some (mkNode (JObj {[ "a" := JNum 1; "b" := JNull ]}) (Some INVALID)
                         (Some {[ "invalid" := JBool true ]}) true None any_child_invalid
                         (KControlGroup {[ "a" := 0; "b" := 1 ]} ∅))) as Hn
    by solve_lookup.
  assert (chain (shape (heap scenario_B)) 2 []) as Hc.
  { apply (chain_root _ 2 (KControlGroup {[ "a" := 0; "b" := 1 ]} ∅)). solve_lookup. }
  assert (length (@nil nat) < 1) as Hfuel by (cbn; lia).
  destruct (exclude_include_roundtrip 1 2 "b" [] scenario_B _ _ _ Hn eq_refl Hc
              (Forall_nil_2 _) Hfuel scenario_B_wf any_child_invalid_group_policy)
    as (s1 & s2 & n1 & n2 & Hrun1 & Hn1 & Hv1 & _ & _ & Hrun2 & Hn2 & Hv2 & _).
  exists s1, s2, n1, n2. split; [exact Hrun1|]. split; [exact Hn1|].
  split; [rewrite Hv1; vm_compute; reflexivity|].
  split.
  { vm_compute in Hrun1. injection Hrun1 as <-.
    vm_compute in Hn1. injection Hn1 as <-. reflexivity. }
  split; [exact Hrun2|]. split; [exact Hn2|].
  split; [rewrite Hv2; vm_compute; reflexivity|].
  vm_compute in Hrun1. injection Hrun1 as <-.
  vm_compute in Hrun2. injection Hrun2 as <-.
  vm_compute in Hn2. injection Hn2 as <-. reflexivity.
Defined.

(** ** Values stay aggregated: the walk of [_updateValue] *)

Section Consistency.
Context {Fn : Type} `{!Callable Fn}.
Implicit Types (h : gmap nat (Node Fn)) (s : State Fn).

Lemma holds_shape h q x :
  holds (shape h) q x ↔ ∃ n, h !! q = Some n ∧ x ∈ children (kind n).
Proof.
  unfold holds. split.
  - intros (p & k & Hq & Hx). apply shape_lookup in Hq as (n & Hn & _ & <-). eauto.
  - intros (n & Hn & Hx). exists (_parent n), (kind n).
    split; [by apply shape_lookup_node | done].
Qed.

(** A node [r] gets a new value that is right for its own children; a
    node [x] that does not hold [r] is consistent afterwards if it was
    before (or is [r] itself). *)
Lemma value_consistent_insert h r n n' x :
  h !! r = Some n → kind n' = kind n →
  (∀ v, aggregate h (kind n) = Some v → _value n' = v) →
  ¬ holds (shape h) x r →
  (x ≠ r → value_consistent h x) →
  value_consistent (<[r := n']> h) x.
Proof.
  intros Hn Hk Hval Hnh Hx nx v Hnx Hv.
  assert (∃ nx0, h !! x = Some nx0 ∧ kind nx = kind nx0) as (nx0 & Hnx0 & Hkx).
  { destruct (decide (x = r)) as [->|Hne].
    - rewrite lookup_insert_eq in Hnx. injection Hnx as <-. eauto.
    - rewrite lookup_insert_ne in Hnx by done. eauto. }
  assert (aggregate (<[r := n']> h) (kind nx) = aggregate h (kind nx)) as Hagg.
  { apply aggregate_ext. intros c Hc. apply value_of_insert_ne. intros ->.
    apply Hnh, holds_shape. exists nx0. by rewrite <- Hkx. }
  rewrite Hagg in Hv.
  destruct (decide (x = r)) as [->|Hne].
  - rewrite lookup_insert_eq in Hnx. injection Hnx as <-. apply Hval. by rewrite <- Hk.
  - rewrite lookup_insert_ne in Hnx by done. by apply (Hx Hne nx v).
Qed.

(** If the nodes of the chain of [r] are held by their parents only, the
    walk from [r] leaves consistent every node of the chain, and every
    other node that was consistent. *)
Lemma walk_consistent l r s x :
  chain (shape (heap s)) r l → containers (shape (heap s)) (r :: l) →
  held_by_parent (shape (heap s)) (r :: l) →
  (x ∉ r :: l → value_consistent (heap s) x) →
  value_consistent (heap (foldl recompute_at s (r :: l))) x.
Proof.
  revert r s. induction l as [|p l IH]; intros r s Hc Hcont Htree Hcons.
  - inversion Hc as [? k Hr|]; subst.
    apply containers_cons in Hcont as [(p' & k' & Hr' & Hk) _].
    assert (p' = None ∧ k' = k) as [-> ->] by (split; congruence).
    pose proof Hr as Hr2. apply shape_lookup in Hr2 as (n & Hn & Hp & <-).
    apply (aggregate_is_container (heap s)) in Hk as [v Hv].
    cbn. unfold recompute_at. rewrite Hn, Hv. cbn.
    apply (value_consistent_insert _ _ n); [done|done| | |].
    + intros v' Hv'. cbn. congruence.
    + intros Hh. destruct (Htree r x) as [k'' Hk'']; [by left|done|]. congruence.
    + intros Hne. apply Hcons. intros Hin. by apply list_elem_of_singleton in Hin.
  - inversion Hc as [|? ? k ? Hr Hc']; subst.
    pose proof Hcont as Hcont0.
    apply containers_cons in Hcont as [(p' & k' & Hr' & Hk) Hcont].
    assert (p' = Some p ∧ k' = k) as [-> ->] by (split; congruence).
    pose proof Hr as Hr2. apply shape_lookup in Hr2 as (n & Hn & Hp & <-).
    apply (aggregate_is_container (heap s)) in Hk as [v Hv].
    cbn [foldl]. apply IH.
    + by rewrite shape_recompute_at.
    + by rewrite shape_recompute_at.
    + rewrite shape_recompute_at. intros y q Hy. apply Htree. by right.
    + intros Hx. unfold recompute_at. rewrite Hn, Hv. cbn.
      apply (value_consistent_insert _ _ n); [done|done| | |].
      * intros v' Hv'. cbn. congruence.
      * intros Hh. destruct (Htree r x) as [k'' Hk'']; [by left|done|].
        assert (x = p) as -> by congruence. apply Hx. by left.
      * intros Hne. apply Hcons. intros Hin.
        apply elem_of_cons in Hin as [->|Hin]; done.
Qed.

(** A chain is decided by the parent links of its nodes. *)
Lemma chain_ext sh sh' r l :
  (∀ x, x ∈ r :: l → fst <$> sh !! x = fst <$> sh' !! x) →
  chain sh r l → chain sh' r l.
Proof.
  intros Hp Hc. induction Hc as [r k Hr | r p k l Hr _ IH].
  - pose proof (Hp r ltac:(left)) as Hpr. rewrite Hr in Hpr. cbn in Hpr.
    destruct (sh' !! r) as [[p' k']|] eqn:Hr'; [|done].
    cbn in Hpr. injection Hpr as <-. by eapply chain_root.
  - pose proof (Hp r ltac:(left)) as Hpr. rewrite Hr in Hpr. cbn in Hpr.
    destruct (sh' !! r) as [[p' k']|] eqn:Hr'; [|done].
    cbn in Hpr. injection Hpr as <-. eapply chain_step; [done|].
    apply IH. intros x Hx. apply Hp. by right.
Qed.

(** A node whose parent is [r] is not on the chain of [r]. *)
Lemma chain_child_not_in sh r l c k :
  chain sh r l → sh !! c = Some (Some r, k) → c ∉ r :: l.
Proof.
  intros Hc Hcr Hin.
  assert (chain sh c (r :: l)) as Hcc by by econstructor.
  apply elem_of_cons in Hin as [-> | Hin].
  - pose proof (chain_det _ _ _ _ Hc Hcc) as Heq.
    apply (f_equal length) in Heq. cbn in Heq. lia.
  - apply list_elem_of_split in Hin as (l1 & l2 & ->).
    pose proof (chain_suffix _ _ _ _ _ Hc) as Hc2.
    pose proof (chain_det _ _ _ _ Hcc Hc2) as Heq.
    apply (f_equal length) in Heq. cbn in Heq. rewrite length_app in Heq.
    cbn in Heq. lia.
Qed.

(** After the child storage of [this] is replaced (and some nodes, those
    of [avoid], got a new parent), the nodes outside [avoid] are still
    held by their parents only, provided the new children are old
    children or in [avoid]. *)
Lemma held_after_restructure h h1 this k' (avoid : nat → Prop) l :
  wf_parents (shape h) →
  (∀ q nq1, h1 !! q = Some nq1 →
     (q = this ∧ kind nq1 = k') ∨
     (q ≠ this ∧ ∃ nq, h !! q = Some nq ∧ kind nq1 = kind nq)) →
  (∀ x q kx, ¬ avoid x → shape h !! x = Some (Some q, kx) →
     ∃ k1, shape h1 !! x = Some (Some q, k1)) →
  (∀ x, x ∈ children k' → avoid x ∨ holds (shape h) this x) →
  (∀ x, x ∈ l → ¬ avoid x) →
  held_by_parent (shape h1) l.
Proof.
  intros Hwf Hkinds Hparents Hnew Hl x q Hx Hh.
  apply holds_shape in Hh as (nq1 & Hnq1 & Hin).
  assert (holds (shape h) q x) as Hold.
  { destruct (Hkinds q nq1 Hnq1) as [[-> Hk] | [Hne (nq & Hnq & Hk)]].
    - rewrite Hk in Hin. destruct (Hnew x Hin) as [Hav | Hh]; [|done].
      by destruct (Hl x Hx).
    - apply holds_shape. exists nq. by rewrite <- Hk. }
  destruct (wf_parents_holds _ _ _ Hwf Hold) as [kx Hkx].
  eapply Hparents; [by apply Hl | done].
Qed.

(** The recomputation after a change of child storage that changed no
    value. *)
Lemma restructure_consistent fuel this s s1 s' :
  (∀ y, value_of (heap s1) y = value_of (heap s) y) →
  (∀ y ny1, y ≠ this → heap s1 !! y = Some ny1 →
     ∃ ny, heap s !! y = Some ny ∧ kind ny1 = kind ny) →
  (∀ l, chain (shape (heap s1)) this l → held_by_parent (shape (heap s1)) (this :: l)) →
  Container__updateValue fuel this s1 = Ok (tt, s') →
  ∃ l, chain (shape (heap s1)) this l ∧
       ∀ x, (x ∉ this :: l → value_consistent (heap s) x) →
            value_consistent (heap s') x.
Proof.
  intros Hval Hkinds Hheld Hrun.
  apply updateValue_inv in Hrun as (l & Hc & Hcont & _ & ->).
  exists l. split; [done|]. intros x Hx.
  apply walk_consistent; [done|done|by apply Hheld|].
  intros Hnin nx1 v Hnx1 Hv.
  assert (x ≠ this) as Hne by (intros ->; apply Hnin; by left).
  destruct (Hkinds x nx1 Hne Hnx1) as (nx & Hnx & Hk).
  assert (_value nx1 = _value nx) as ->.
  { pose proof (Hval x) as Hvx. unfold value_of in Hvx. by rewrite Hnx1, Hnx in Hvx. }
  apply (Hx Hnin nx v Hnx). rewrite <- Hk, <- Hv. symmetry.
  apply aggregate_ext. intros c _. apply Hval.
Qed.
End Consistency.

(** ** Every mutation that recomputes *)

Section Mutations.
Context {Fn : Type} `{!Callable Fn}.
Implicit Types (h : gmap nat (Node Fn)) (s : State Fn).

Lemma wf_held_by_parent sh l : wf_parents sh → held_by_parent sh l.
Proof. intros Hwf x q _ Hh. by apply wf_parents_holds. Qed.

(** [include], [exclude], [removeAt]: new child storage with no new
    child.  The nodes of the receiver's chain end consistent, and so
    does every node that was. *)
Lemma restructured_consistent fuel this s n k' s' :
  wf_parents (shape (heap s)) →
  heap s !! this = Some n →
  (∀ x, x ∈ children k' → x ∈ children (kind n)) →
  Container__updateValue fuel this (restructured s this n k') = Ok (tt, s') →
  ∃ l, chain (shape (heap s)) this l ∧
       ∀ x, (x ∉ this :: l → value_consistent (heap s) x) →
            value_consistent (heap s') x.
Proof.
  intros Hwf Hn Hsub Hrun.
  destruct (restructure_consistent fuel this s (restructured s this n k') s')
    as (l & Hc & Hat); [| | |exact Hrun|].
  - intros x. by apply (value_of_insert_same _ _ n).
  - intros x nx1 Hne Hx. cbn in Hx. rewrite lookup_insert_ne in Hx by done. eauto.
  - intros l _.
    apply (held_after_restructure (heap s) _ this k' (λ _, False));
      [done| | | |by intros ? ? []].
    + intros q nq1 Hq. cbn in Hq. destruct (decide (q = this)) as [->|Hne].
      * rewrite lookup_insert_eq in Hq. injection Hq as <-. by left.
      * rewrite lookup_insert_ne in Hq by done. right. eauto.
    + intros x q kx _ Hx. destruct (decide (x = this)) as [->|Hne].
      * apply shape_lookup in Hx as (n0 & Hn0 & Hp & _).
        assert (n0 = n) as -> by congruence.
        exists k'. by rewrite shape_restructured_eq, Hp.
      * exists kx. by rewrite shape_restructured_ne.
    + intros x Hx. right. apply holds_shape. exists n. split; [done | by apply Hsub].
  - exists l. split; [|done]. eapply chain_ext; [|exact Hc]. intros x _.
    destruct (decide (x = this)) as [->|Hne].
    + by rewrite shape_restructured_eq, (shape_lookup_node _ _ _ Hn).
    + by rewrite shape_restructured_ne.
Qed.

(** [push], [insert]: new child storage with the new child [c], whose
    parent becomes [this]. *)
Lemma reparented_consistent fuel this c s n nc controls' s' :
  wf_parents (shape (heap s)) →
  heap s !! this = Some n →
  heap (restructured s this n (KControlArray controls')) !! c = Some nc →
  (∀ x, x ∈ controls' → x = c ∨ x ∈ children (kind n)) →
  Container__updateValue fuel this
    (reparented (restructured s this n (KControlArray controls')) c this nc)
    = Ok (tt, s') →
  ∃ l, chain (shape (heap s)) this l ∧
       ∀ x, (x ∉ this :: l → value_consistent (heap s) x) →
            value_consistent (heap s') x.
Proof.
  intros Hwf Hn Hc Hsub Hrun.
  set (k' := KControlArray controls') in *.
  set (s1 := reparented (restructured s this n k') c this nc) in *.
  assert (∀ q nq1, heap s1 !! q = Some nq1 →
            (q = this ∧ kind nq1 = k') ∨
            (q ≠ this ∧ ∃ nq, heap s !! q = Some nq ∧ kind nq1 = kind nq)) as Hkinds.
  { intros q nq1 Hq. unfold s1, reparented, restructured in Hq, Hc. cbn [heap] in Hq, Hc.
    destruct (decide (q = c)) as [->|Hqc].
    - rewrite lookup_insert_eq in Hq. injection Hq as <-.
      destruct (decide (c = this)) as [->|Hct].
      + rewrite lookup_insert_eq in Hc. injection Hc as <-. by left.
      + rewrite lookup_insert_ne in Hc by done. right. eauto.
    - rewrite lookup_insert_ne in Hq by done.
      destruct (decide (q = this)) as [->|Hqt].
      + rewrite lookup_insert_eq in Hq. injection Hq as <-. by left.
      + rewrite lookup_insert_ne in Hq by done. right. eauto. }
  assert (∀ x, value_of (heap s1) x = value_of (heap s) x) as Hval.
  { intros x. unfold s1, reparented. cbn [heap].
    rewrite (value_of_insert_same _ _ nc); [|done|done].
    by apply (value_of_insert_same _ _ n). }
  assert (shape (heap s1) !! c = Some (Some this, kind nc)) as Hshc.
  { apply shape_lookup. eexists. unfold s1, reparented. cbn [heap].
    by rewrite lookup_insert_eq. }
  destruct (restructure_consistent fuel this s s1 s') as (l & Hl & Hat);
    [done| | |exact Hrun|].
  - intros x nx1 Hne Hx. destruct (Hkinds x nx1 Hx) as [[-> _] | [_ Hk]]; done.
  - intros l Hl.
    apply (held_after_restructure (heap s) _ this k' (λ x, x = c)); [done|done| | |].
    + intros x q kx Hxc Hx. unfold s1, reparented, restructured.
      destruct (decide (x = this)) as [->|Hne].
      * apply shape_lookup in Hx as (n0 & Hn0 & Hp & _).
        assert (n0 = n) as -> by congruence.
        exists k'. apply shape_lookup. eexists. cbn [heap].
        rewrite lookup_insert_ne, lookup_insert_eq by done. done.
      * exists kx. unfold shape in Hx |- *. cbn [heap].
        by rewrite lookup_fmap, !lookup_insert_ne, <- lookup_fmap.
    + intros x Hx. destruct (Hsub x Hx) as [-> | Hin]; [by left|].
      right. apply holds_shape. eauto.
    + intros x Hx ->. by eapply chain_child_not_in.
  - exists l. split; [|done]. eapply chain_ext; [|exact Hl]. intros x Hx.
    assert (x ≠ c) as Hxc.
    { intros ->. by eapply (chain_child_not_in _ this l c). }
    unfold s1, reparented, restructured, shape. cbn [heap].
    rewrite !lookup_fmap, lookup_insert_ne by done.
    destruct (decide (x = this)) as [->|Hne].
    + by rewrite lookup_insert_eq, Hn.
    + by rewrite lookup_insert_ne.
Qed.

(** The status a step has set is the status its validator gives when
    the walk is over, for a validator that reads the subtree only. *)
Lemma recomputed_status_fresh h hf a n v post :
  reads_subtree_only (validator n) →
  wf_parents (shape h) → chain (shape h) a post → h !! a = Some n →
  hf !! a = Some (recomputed h a v n) →
  (∀ x, x ∉ a :: post → hf !! x = h !! x) →
  status_fresh hf a.
Proof.
  intros Hlocal Hwf Hc Hn Hfa Hframe n' Hn'.
  assert (n' = recomputed h a v n) as -> by congruence. cbn. f_equal.
  apply (Hlocal _ _ a (set_value v n) (recomputed h a v n));
    [apply lookup_insert_eq|done|done|done|].
  intros x Hd. rewrite (shape_insert _ _ n) in Hd by done.
  pose proof (desc_not_on_chain _ _ _ _ Hwf Hc Hd) as Hx.
  rewrite Hframe by done. apply lookup_insert_ne. intros ->. apply Hx. by left.
Qed.

Lemma walk_status_fresh r l s a :
  (∀ f : Fn, reads_subtree_only f) →
  wf_parents (shape (heap s)) →
  chain (shape (heap s)) r l → containers (shape (heap s)) (r :: l) →
  a ∈ r :: l →
  status_fresh (heap (foldl recompute_at s (r :: l))) a.
Proof.
  intros Hlocal Hwf Hc Hcont Ha.
  pose proof (chain_NoDup _ _ _ Hc) as Hnd.
  apply list_elem_of_split in Ha as (pre & post & Heq).
  assert (chain (shape (heap s)) a post) as Hca.
  { destruct pre as [|r' pre]; cbn in Heq.
    - by injection Heq as -> ->.
    - injection Heq as -> ->. by eapply chain_suffix. }
  rewrite Heq in Hnd, Hcont |- *.
  apply NoDup_app in Hnd as (_ & _ & Hnd). apply NoDup_cons in Hnd as [Ha_post _].
  apply Forall_app in Hcont as [_ Hcont].
  apply containers_cons in Hcont as [(p & k & Ha & Hk) _].
  rewrite foldl_app. cbn [foldl]. set (sa := foldl recompute_at s pre).
  assert (shape (heap sa) = shape (heap s)) as Hsh by apply shape_foldl_recompute_at.
  rewrite <- Hsh in Ha, Hwf, Hca.
  apply shape_lookup in Ha as (n & Hn & _ & <-).
  apply (aggregate_is_container (heap sa)) in Hk as [v Hv].
  apply (recomputed_status_fresh (heap sa) _ a n v post); [done|done|done|done| |].
  - rewrite (foldl_recompute_at_lookup_notin _ _ _ Ha_post).
    by apply recompute_at_lookup_eq.
  - intros x Hx. apply not_elem_of_cons in Hx as [Hxa Hx].
    by rewrite foldl_recompute_at_lookup_notin, recompute_at_lookup_ne.
Qed.
End Mutations.

Section LeafMutation.
Context {Fn : Type} `{!Callable Fn}.
Implicit Types (h : gmap nat (Node Fn)) (s : State Fn).

(** A returning [updateValue] was called on a leaf whose ancestors are
    containers up to a root. *)
Lemma Control_updateValue_inv fuel this value s s' :
  Control_updateValue fuel this value s = Ok (tt, s') →
  ∃ n l, heap s !! this = Some n ∧ kind n = KControl ∧
         chain (shape (heap s)) this l ∧ containers (shape (heap s)) l ∧
         s' = foldl recompute_at (assign_at s this value) l.
Proof.
  intros Hrun. destruct (heap s !! this) as [n|] eqn:Hn;
    [|by rewrite (Control_updateValue_absent _ _ _ _ Hn) in Hrun].
  assert (kind n = KControl) as Hk.
  { destruct (kind n) eqn:Hk; [done|exfalso..];
      rewrite (Control_updateValue_not_Control _ _ _ _ _ Hn) in Hrun
        by (by rewrite Hk); done. }
  rewrite (Control_updateValue_eq _ _ _ _ _ Hn Hk) in Hrun.
  destruct (_parent n) as [p|] eqn:Hp.
  - apply updateValue_inv in Hrun as (l & Hc & Hcont & _ & ->).
    rewrite shape_assign_at in Hc, Hcont.
    exists n, (p :: l). split_and!; try done.
    eapply chain_step; [|done]. by rewrite (shape_lookup_node _ _ _ Hn), Hp.
  - injection Hrun as <-. exists n, []. split_and!; try done.
    + eapply chain_root. by rewrite (shape_lookup_node _ _ _ Hn), Hp.
    + apply Forall_nil_2.
Qed.

Lemma leaf_update_consistent fuel leaf value s s' :
  wf_parents (shape (heap s)) →
  Control_updateValue fuel leaf value s = Ok (tt, s') →
  ∃ l, chain (shape (heap s)) leaf l ∧
       ∀ x, (x ∉ leaf :: l → value_consistent (heap s) x) →
            value_consistent (heap s') x.
Proof.
  intros Hwf Hrun.
  apply Control_updateValue_inv in Hrun as (n & l & Hn & Hk & Hc & Hcont & ->).
  exists l. split; [done|]. intros x Hx.
  assert (Some x ≠ _parent n → (x ≠ leaf → value_consistent (heap s) x) →
          value_consistent (heap (assign_at s leaf value)) x) as Hstep.
  { intros Hxp Hxc. unfold assign_at. rewrite Hn. cbn [heap].
    apply (value_consistent_insert _ _ n); [done|done| | |done].
    - intros v. by rewrite Hk.
    - intros Hh. destruct (wf_parents_holds _ _ _ Hwf Hh) as [k Hk'].
      rewrite (shape_lookup_node _ _ _ Hn) in Hk'. congruence. }
  inversion Hc as [? k Hr | ? p k l' Hr Hc']; subst.
  - cbn [foldl]. apply Hstep.
    + rewrite (shape_lookup_node _ _ _ Hn) in Hr. congruence.
    + intros Hne. apply Hx. intros Hin. by apply list_elem_of_singleton in Hin.
  - apply walk_consistent; rewrite ?shape_assign_at; [done|done| |].
    + by apply wf_held_by_parent.
    + intros Hnin. apply Hstep.
      * rewrite (shape_lookup_node _ _ _ Hn) in Hr.
        intros Heq. apply Hnin. assert (x = p) as -> by congruence. by left.
      * intros Hne. apply Hx. intros Hin.
        apply elem_of_cons in Hin as [->|Hin]; done.
Qed.

Lemma leaf_update_status fuel leaf value l s s' a :
  (∀ f : Fn, reads_subtree_only f) →
  wf_parents (shape (heap s)) →
  Control_updateValue fuel leaf value s = Ok (tt, s') →
  chain (shape (heap s)) leaf l → a ∈ leaf :: l →
  status_fresh (heap s') a.
Proof.
  intros Hlocal Hwf Hrun Hc Ha.
  apply Control_updateValue_inv in Hrun as (n & l0 & Hn & Hk & Hc0 & Hcont & ->).
  assert (l0 = l) as -> by by eapply chain_det.
  pose proof (chain_NoDup _ _ _ Hc) as Hnd. apply NoDup_cons in Hnd as [Hleaf _].
  apply elem_of_cons in Ha as [-> | Ha].
  - apply (recomputed_status_fresh (heap s) _ leaf n value l); [done|done|done|done| |].
    + rewrite (foldl_recompute_at_lookup_notin _ _ _ Hleaf).
      by apply assign_at_lookup_eq.
    + intros x Hx. apply not_elem_of_cons in Hx as [Hxl Hx].
      by rewrite foldl_recompute_at_lookup_notin, assign_at_lookup_ne.
  - inversion Hc as [? k Hr | ? p k l' Hr Hc']; subst; [by apply elem_of_nil in Ha|].
    apply walk_status_fresh; rewrite ?shape_assign_at; done.
Qed.

(** C1, amended. On a tree (every child held by a container has that
    container as its parent), after a returning leaf [updateValue] or
    container [push], [insert], [removeAt], [include] or [exclude], the
    parent chain of the receiver ends at a root, and every node of that
    chain, the receiver included, has the value aggregated from its
    current children: the map from the names of the included children to
    their values for a keyed container, the list of the children's values
    for an indexed one; and so has every other node that had the
    aggregated value before the call.  After a leaf [updateValue], if the
    validators read only the value and the subtree of the node they are
    given, the status of the leaf and of each of its ancestors is the one
    its validator gives when invoked again on the final store.
    [addControl] and [removeControl] recompute nothing: after them every
    node other than the receiving group that had the aggregated value
    still has it, and of the group itself nothing is said (a node they
    left stale stays stale until a mutation walks through it). *)
Theorem mutation_keeps_values_aggregated fuel (op : Op Fn) s s' :
  wf_parents (shape (heap s)) →
  run_op fuel op s = Ok (tt, s') →
  (recomputing op = true →
   ∃ l, chain (shape (heap s)) (receiver op) l ∧
     (∀ r n v,
        r ∈ receiver op :: l ∨ value_consistent (heap s) r →
        heap s' !! r = Some n → aggregate (heap s') (kind n) = Some v →
        _value n = v) ∧
     ((∀ f : Fn, reads_subtree_only f) →
      ∀ leaf value, op = UpdateValue leaf value →
      ∀ a n, a ∈ leaf :: l → heap s' !! a = Some n →
        _status n = Some (if isPresent (call (validator n) (heap s') a)
                          then INVALID else VALID))) ∧
  (∀ this name c, op = AddControl this name c ∨ op = RemoveControl this name →
   ∀ r n v,
     r ≠ this → value_consistent (heap s) r →
     heap s' !! r = Some n → aggregate (heap s') (kind n) = Some v →
     _value n = v).
Proof.
  intros Hwf Hrun. split.
  - intros Hop.
    assert (∃ l, chain (shape (heap s)) (receiver op) l ∧
              ∀ x, (x ∉ receiver op :: l → value_consistent (heap s) x) →
                   value_consistent (heap s') x) as (l & Hc & Hat).
    { destruct op as [value f|controls optionals f|controls f|this v|this parent|this
        |this value|this name c|this name|this name|this name|this c|this index c
        |this index]; try discriminate Hop; cbn [run_op receiver] in Hrun |- *.
      - by eapply leaf_update_consistent.
      - apply ControlGroup_include_inv in Hrun as (n & cs & opt & Hn & Hk & Hrun).
        eapply restructured_consistent; [done|exact Hn| |exact Hrun].
        intros x. by rewrite Hk.
      - apply ControlGroup_exclude_inv in Hrun as (n & cs & opt & Hn & Hk & Hrun).
        eapply restructured_consistent; [done|exact Hn| |exact Hrun].
        intros x. by rewrite Hk.
      - apply ControlArray_push_inv in Hrun as (n & cs & nc & Hn & Hk & Hc & Hrun).
        eapply reparented_consistent; [done|exact Hn|exact Hc| |exact Hrun].
        intros x Hx. rewrite Hk. cbn. apply elem_of_app in Hx as [Hx|Hx]; [by right|].
        left. by apply list_elem_of_singleton in Hx.
      - apply ControlArray_insert_inv in Hrun
          as (n & cs & nc & Hn & Hk & _ & Hc & Hrun).
        eapply reparented_consistent; [done|exact Hn|exact Hc| |exact Hrun].
        intros x Hx. rewrite Hk. cbn.
        apply elem_of_app in Hx as [Hx|Hx].
        + right. by eapply subseteq_take.
        + apply elem_of_cons in Hx as [->|Hx]; [by left|]. right.
          by eapply subseteq_drop.
      - apply ControlArray_removeAt_inv in Hrun as (n & cs & Hn & Hk & _ & Hrun).
        eapply restructured_consistent; [done|exact Hn| |exact Hrun].
        intros x Hx. rewrite Hk. cbn in Hx |- *. by eapply list_elem_of_delete_inv. }
    exists l. split; [done|]. split.
    + intros r n v Hr Hn Hv. apply (Hat r); [|done..].
      intros Hnin. by destruct Hr.
    + intros Hlocal leaf value -> a n Ha Hn. cbn [run_op receiver] in Hrun, Hc.
      by apply (leaf_update_status fuel leaf value l s s' a Hlocal Hwf Hrun Hc Ha n Hn).
  - intros this name c Hop r nr v Hr Hcons Hnr Hv.
    assert (∃ n k', heap s !! this = Some n ∧ s' = restructured s this n k')
      as (n & k' & Hn & ->).
    { destruct Hop as [-> | ->]; cbn [run_op] in Hrun.
      - apply ControlGroup_addControl_inv in Hrun as (n & cs & opt & Hn & _ & ->).
        by eexists _, _.
      - apply ControlGroup_removeControl_inv in Hrun as (n & cs & opt & Hn & _ & ->).
        by eexists _, _. }
    unfold restructured in Hnr, Hv. cbn [heap] in Hnr, Hv.
    rewrite lookup_insert_ne in Hnr by done.
    apply (Hcons nr v Hnr). rewrite <- Hv. symmetry.
    apply aggregate_ext. intros x _. by apply (value_of_insert_same _ _ n).
Qed.
End LeafMutation.

(** ** The amended C1 on a tree, and what the claim as stated misses *)

Lemma heap_consistent_check {Fn : Type} `{!Callable Fn} (h : gmap nat (Node Fn)) :
  Forall (λ rn, ∀ v, aggregate h (kind rn.2) = Some v → _value rn.2 = v) (map_to_list h) →
  heap_consistent h.
Proof.
  intros Hall r n v Hn. rewrite Forall_forall in Hall.
  apply (Hall (r, n)). by apply elem_of_map_to_list.
Qed.

(** Checks [heap_consistent] on a closed store, node by node. *)
Ltac check_consistent :=
  apply heap_consistent_check;
  match goal with
  | |- Forall _ ?l => let L := fresh "L" in set (L := l); vm_compute in L; subst L
  end;
  repeat (apply Forall_cons; split;
          [let v := fresh "v" in let Hv := fresh "Hv" in
           intros v Hv; vm_compute in Hv;
           first [discriminate Hv | injection Hv as <-; vm_compute; reflexivity]|]);
  apply Forall_nil_2.

Lemma three_levels_wf : wf_parents (shape (heap three_levels)).
Proof. apply (bool_decide_unpack _). vm_compute. exact I. Defined.

Lemma three_levels_consistent : heap_consistent (heap three_levels).
Proof. check_consistent. Defined.

Lemma mutation_keeps_values_aggregated_witness :
  ∃ s1 s',
    run_ops 1 [AddControl 2 "c" 3; SetParent 3 2] scenario_B_extra = Ok (tt, s1) ∧
    wf_parents (shape (heap s1)) ∧ ¬ value_consistent (heap s1) 2 ∧
    run_op 1 (UpdateValue 0 (JNum 5)) s1 = Ok (tt, s') ∧
    (∀ r n v, r ∈ [0; 2] → heap s' !! r = Some n →
              aggregate (heap s') (kind n) = Some v → _value n = v) ∧
    (∀ a n, a ∈ [0; 2] → heap s' !! a = Some n →
            _status n = Some (if isPresent (call (validator n) (heap s') a)
                              then INVALID else VALID)).
Proof.
  destruct (run_ops 1 [AddControl 2 "c" 3; SetParent 3 2] scenario_B_extra)
    as [[[] s1]| |] eqn:Hrun1; [|exfalso; vm_compute in Hrun1; discriminate Hrun1..].
  vm_compute in Hrun1. injection Hrun1 as <-.
  match goal with |- ∃ s1 s', Ok (tt, ?t) = _ ∧ _ => set (s1 := t) end.
  assert (wf_parents (shape (heap s1))) as Hwf.
  { apply (bool_decide_unpack _). vm_compute. exact I. }
  assert (chain (shape (heap s1)) 0 [2]) as Hc.
  { apply (chain_step _ 0 2 KControl); [solve_lookup|].
    apply (chain_root _ 2 (KControlGroup {[ "a" := 0; "b" := 1; "c" := 3 ]} ∅)).
    solve_lookup. }
  destruct (run_op 1 (UpdateValue 0 (JNum 5)) s1) as [[[] s']| |] eqn:Hrun;
    [|exfalso; vm_compute in Hrun; discriminate Hrun..].
  exists s1, s'. split; [reflexivity|]. split; [exact Hwf|]. split.
  { intros Hcons. unfold value_consistent in Hcons.
    epose proof (Hcons _ _ ltac:(vm_compute; reflexivity) ltac:(vm_compute; reflexivity))
      as Heq.
    apply (f_equal (λ v, obj_fields v !! "c")) in Heq. vm_compute in Heq.
    discriminate Heq. }
  split; [exact Hrun|].
  destruct (proj1 (mutation_keeps_values_aggregated 1 (UpdateValue 0 (JNum 5)) s1 s'
                     Hwf Hrun) eq_refl) as (l & Hl & Hval & Hst).
  assert (l = [2]) as -> by exact (chain_det _ _ _ _ Hl Hc).
  split.
  - intros r n v Hr. apply Hval. left. exact Hr.
  - exact (Hst TestFn_reads_subtree_only 0 (JNum 5) eq_refl).
Defined.

(** C1 as stated fails.  After [addControl] and after [removeControl]
    the group of scenario B has the value it had, which is no longer the
    map of its included children's values; a group that [addControl] left
    with a stale value stays stale through a mutation elsewhere in the
    store; and with a validator that reads [pristine], the status a group
    got during a leaf's [updateValue] is not the one its validator gives
    once the call is over. *)
Lemma mutation_claim_counterexample :
  (wf_parents (shape (heap scenario_B_extra)) ∧ heap_consistent (heap scenario_B_extra)) ∧
  (∃ s', run_op 1 (AddControl 2 "c" 3) scenario_B_extra = Ok (tt, s') ∧
         value_of (heap s') 2 = JObj {[ "a" := JNum 1; "b" := JNull ]} ∧
         aggregate (heap s') (KControlGroup {[ "a" := 0; "b" := 1; "c" := 3 ]} ∅)
           = Some (JObj {[ "a" := JNum 1; "b" := JNull; "c" := JNum 9 ]}) ∧
         ¬ value_consistent (heap s') 2) ∧
  (∃ s', run_op 1 (RemoveControl 2 "a") scenario_B_extra = Ok (tt, s') ∧
         value_of (heap s') 2 = JObj {[ "a" := JNum 1; "b" := JNull ]} ∧
         aggregate (heap s') (KControlGroup {[ "b" := 1 ]} ∅)
           = Some (JObj {[ "b" := JNull ]}) ∧
         ¬ value_consistent (heap s') 2) ∧
  (∃ s1 s2,
     run_ops 1 [NewControlGroup {[ "z" := 3 ]} None any_child_invalid;
                AddControl 4 "y" 3] scenario_B_extra = Ok (tt, s1) ∧
     wf_parents (shape (heap s1)) ∧
     run_op 1 (UpdateValue 0 (JNum 5)) s1 = Ok (tt, s2) ∧
     value_of (heap s2) 4 = JObj {[ "z" := JNum 9 ]} ∧
     ¬ value_consistent (heap s2) 4) ∧
  (wf_parents (shape (heap untouched)) ∧ heap_consistent (heap untouched) ∧
   chain (shape (heap untouched)) 0 [1] ∧
   ∃ s', run_op 1 (UpdateValue 0 (JNum 5)) untouched = Ok (tt, s') ∧
         status_at (heap s') 1 = Some INVALID ∧
         call reject_pristine (heap s') 1 = None ∧
         ¬ status_fresh (heap s') 1).
Proof.
  split_and!.
  - apply (bool_decide_unpack _). vm_compute. exact I.
  - check_consistent.
  - eexists. split; [vm_compute; reflexivity|].
    split; [vm_compute; reflexivity|]. split; [vm_compute; reflexivity|].
    intros Hcons. unfold value_consistent in Hcons.
    epose proof (Hcons _ _ ltac:(vm_compute; reflexivity) ltac:(vm_compute; reflexivity))
      as Heq.
    apply (f_equal (λ v, obj_fields v !! "c")) in Heq. vm_compute in Heq. discriminate Heq.
  - eexists. split; [vm_compute; reflexivity|].
    split; [vm_compute; reflexivity|]. split; [vm_compute; reflexivity|].
    intros Hcons. unfold value_consistent in Hcons.
    epose proof (Hcons _ _ ltac:(vm_compute; reflexivity) ltac:(vm_compute; reflexivity))
      as Heq.
    apply (f_equal (λ v, obj_fields v !! "a")) in Heq. vm_compute in Heq. discriminate Heq.
  - eexists _, _. split; [vm_compute; reflexivity|].
    split; [apply (bool_decide_unpack _); vm_compute; exact I|].
    split; [vm_compute; reflexivity|]. split; [vm_compute; reflexivity|].
    intros Hcons. unfold value_consistent in Hcons.
    epose proof (Hcons _ _ ltac:(vm_compute; reflexivity) ltac:(vm_compute; reflexivity))
      as Heq.
    apply (f_equal (λ v, obj_fields v !! "y")) in Heq. vm_compute in Heq. discriminate Heq.
  - apply (bool_decide_unpack _). vm_compute. exact I.
  - check_consistent.
  - apply (chain_step _ 0 1 KControl); [solve_lookup|].
    apply (chain_root _ 1 (KControlGroup {[ "a" := 0 ]} ∅)). solve_lookup.
  - eexists. split; [vm_compute; reflexivity|].
    split; [vm_compute; reflexivity|]. split; [vm_compute; reflexivity|].
    intros Hfresh. unfold status_fresh in Hfresh.
    epose proof (Hfresh _ ltac:(vm_compute; reflexivity)) as Heq.
    vm_compute in Heq. discriminate Heq.
Qed.

(** ** addControl and removeControl against push, insert and removeAt *)

Section ArrayReturns.
Context {Fn : Type} `{!Callable Fn}.
Implicit Types (h : gmap nat (Node Fn)) (s : State Fn).

(** Storing a new list and adopting a child change no parent link but
    the child's. *)
Lemma adopted_parent s this n k c nc x :
  heap s !! this = Some n → x ≠ c →
  _parent <$> heap (reparented (restructured s this n k) c this nc) !! x
  = _parent <$> heap s !! x.
Proof.
  intros Hn Hxc. unfold reparented, restructured. cbn [heap].
  rewrite lookup_insert_ne by done.
  destruct (decide (x = this)) as [->|Hne].
  - by rewrite lookup_insert_eq, Hn.
  - by rewrite lookup_insert_ne.
Qed.

Lemma restructured_parent s this n k x :
  heap s !! this = Some n →
  _parent <$> heap (restructured s this n k) !! x = _parent <$> heap s !! x.
Proof.
  intros Hn. unfold restructured. cbn [heap].
  destruct (decide (x = this)) as [->|Hne].
  - by rewrite lookup_insert_eq, Hn.
  - by rewrite lookup_insert_ne.
Qed.

Lemma shape_parent h x : fst <$> shape h !! x = _parent <$> h !! x.
Proof. unfold shape. rewrite lookup_fmap. by destruct (h !! x). Qed.

Lemma shape_kind h x : snd <$> shape h !! x = kind <$> h !! x.
Proof. unfold shape. rewrite lookup_fmap. by destruct (h !! x). Qed.

(** A walk keeps every parent link. *)
Lemma walk_parents fuel this s s' x :
  Container__updateValue fuel this s = Ok (tt, s') →
  _parent <$> heap s' !! x = _parent <$> heap s !! x.
Proof.
  intros Hrun.
  apply updateValue_self in Hrun as (n & v & l & _ & _ & _ & _ & _ & _ & Hsh & _).
  by rewrite <- !shape_parent, Hsh.
Qed.

(** [_updateValue] on a container whose child storage was just replaced
    returns, when the parent chain of the container ends and consists of
    containers. *)
Lemma restructured_returns fuel this s n k' l :
  heap s !! this = Some n → is_container k' = true →
  chain (shape (heap s)) this l → containers (shape (heap s)) l →
  length l < fuel →
  ∃ s', Container__updateValue fuel this (restructured s this n k') = Ok (tt, s').
Proof.
  intros Hn Hk Hc Hcont Hfuel. eexists. apply (updateValue_closed _ _ l); [| |done].
  - by apply chain_restructured.
  - apply containers_cons. split; [|by apply containers_restructured].
    exists (_parent n), k'. by rewrite shape_restructured_eq.
Qed.

(** The same with a child adopted, which must be neither the container
    nor one of its ancestors: else the parent links would form a cycle. *)
Lemma adopted_returns fuel this c s n nc k' l :
  heap s !! this = Some n → is_container k' = true →
  heap (restructured s this n k') !! c = Some nc →
  chain (shape (heap s)) this l → containers (shape (heap s)) l →
  c ∉ this :: l → length l < fuel →
  ∃ s', Container__updateValue fuel this
          (reparented (restructured s this n k') c this nc) = Ok (tt, s').
Proof.
  intros Hn Hk Hnc Hc Hcont Hcl Hfuel.
  set (s2 := reparented (restructured s this n k') c this nc).
  assert (∀ x, x ≠ c → shape (heap s2) !! x = shape (heap (restructured s this n k')) !! x)
    as Hsame.
  { intros x Hx. unfold s2, reparented, shape. cbn [heap].
    by rewrite !lookup_fmap, lookup_insert_ne. }
  eexists. apply (updateValue_closed _ _ l); [| |done].
  - eapply chain_ext; [|exact Hc]. intros x Hx. rewrite !shape_parent.
    symmetry. apply adopted_parent; [done|]. intros ->. by apply Hcl.
  - apply containers_cons. split.
    + exists (_parent n), k'. split; [|done].
      rewrite Hsame by (intros ->; apply Hcl; by left).
      by rewrite shape_restructured_eq.
    + unfold containers in *. rewrite Forall_forall in Hcont |- *.
      intros x Hx. rewrite Hsame by (intros ->; apply Hcl; by right).
      pose proof (containers_restructured s this n k' [x] Hk) as Hone.
      unfold containers in Hone. rewrite !Forall_singleton in Hone.
      apply Hone. by apply Hcont.
Qed.

(** What [removeAt] does after the new list is stored. *)
Lemma drop_child_effect fuel this s s' n controls' :
  heap s !! this = Some n →
  Container__updateValue fuel this (restructured s this n (KControlArray controls'))
    = Ok (tt, s') →
  ∃ n' evs,
    heap s' !! this = Some n' ∧ kind n' = KControlArray controls' ∧
    _value n' = JArr (value_of (heap s) <$> controls') ∧ _pristine n' = false ∧
    emitted s' = emitted s ++ (this, _value n') :: evs ∧
    ∀ x, _parent <$> heap s' !! x = _parent <$> heap s !! x.
Proof.
  intros Hn Hrun. pose proof Hrun as Hwalk.
  apply updateValue_self in Hrun
    as (n1 & v & l & Hn1 & Hv & _ & _ & _ & Hself & _ & Hem).
  cbn in Hn1, Hv, Hem. rewrite lookup_insert_eq in Hn1. injection Hn1 as <-.
  cbn in Hv. injection Hv as <-.
  eexists _, _. split; [exact Hself|]. split_and!; try done.
  - cbn. f_equal. apply list_fmap_ext. intros i x _.
    by rewrite (value_of_insert_same _ _ n).
  - intros x. rewrite (walk_parents _ _ _ _ x Hwalk). by apply restructured_parent.
Qed.

(** C8, amended. On a keyed container [addControl(name, child)] returns
    after storing the child under the name (a new entry, or in place of
    the one there was) and [removeControl(name)] after deleting the
    entry, and this is all either does: the container keeps its value,
    status, errors, pristine flag and parent, every other object (the
    child included, whose parent link is not set) is as it was, and
    nothing is emitted.  On an indexed container whose parent chain ends
    and consists of containers, [push(child)] and, for an index that is a
    position of the list, [insert(index, child)] return when the child is
    an object that is neither the container nor one of its ancestors:
    they set the parent link of the child, and no other, and recompute,
    so that the container ends with the value aggregated over the new
    list and with [pristine = false], and its emission is the first.
    [removeAt(index)], for an index of a child, returns and recomputes in
    the same way, and changes no parent link at all. *)
Theorem addControl_removeControl_frame fuel this name c index s :
  (∀ n controls _optionals,
     heap s !! this = Some n → kind n = KControlGroup controls _optionals →
     ControlGroup_addControl this name c s
       = Ok (tt, mkState
                   (<[this := mkNode (_value n) (_status n) (_errors n) (_pristine n)
                                (_parent n) (validator n)
                                (KControlGroup (<[name := c]> controls) _optionals)]>
                      (heap s))
                   (emitted s)) ∧
     ControlGroup_removeControl this name s
       = Ok (tt, mkState
                   (<[this := mkNode (_value n) (_status n) (_errors n) (_pristine n)
                                (_parent n) (validator n)
                                (KControlGroup (delete name controls) _optionals)]>
                      (heap s))
                   (emitted s))) ∧
  (∀ n controls nc l,
     heap s !! this = Some n → kind n = KControlArray controls →
     heap s !! c = Some nc →
     chain (shape (heap s)) this l → containers (shape (heap s)) l →
     c ∉ this :: l → length l < fuel →
     (∃ s' n' nc' evs,
        ControlArray_push fuel this c s = Ok (tt, s') ∧
        heap s' !! this = Some n' ∧ kind n' = KControlArray (controls ++ [c]) ∧
        _value n' = JArr (value_of (heap s) <$> controls ++ [c]) ∧
        _pristine n' = false ∧
        heap s' !! c = Some nc' ∧ _parent nc' = Some this ∧
        (∀ x, x ≠ c → _parent <$> heap s' !! x = _parent <$> heap s !! x) ∧
        emitted s' = emitted s ++ (this, _value n') :: evs) ∧
     ((0 ≤ index ≤ Z.of_nat (length controls))%Z →
      ∃ s' n' nc' evs,
        ControlArray_insert fuel this index c s = Ok (tt, s') ∧
        heap s' !! this = Some n' ∧
        kind n' = KControlArray (take (Z.to_nat index) controls
                                   ++ c :: drop (Z.to_nat index) controls) ∧
        _value n' = JArr (value_of (heap s) <$>
                            take (Z.to_nat index) controls
                              ++ c :: drop (Z.to_nat index) controls) ∧
        _pristine n' = false ∧
        heap s' !! c = Some nc' ∧ _parent nc' = Some this ∧
        (∀ x, x ≠ c → _parent <$> heap s' !! x = _parent <$> heap s !! x) ∧
        emitted s' = emitted s ++ (this, _value n') :: evs)) ∧
  (∀ n controls l,
     heap s !! this = Some n → kind n = KControlArray controls →
     chain (shape (heap s)) this l → containers (shape (heap s)) l →
     length l < fuel →
     (0 ≤ index < Z.of_nat (length controls))%Z →
     ∃ s' n' evs,
       ControlArray_removeAt fuel this index s = Ok (tt, s') ∧
       heap s' !! this = Some n' ∧
       kind n' = KControlArray (delete (Z.to_nat index) controls) ∧
       _value n' = JArr (value_of (heap s) <$> delete (Z.to_nat index) controls) ∧
       _pristine n' = false ∧
       (∀ x, _parent <$> heap s' !! x = _parent <$> heap s !! x) ∧
       emitted s' = emitted s ++ (this, _value n') :: evs).
Proof.
  split_and!.
  - intros n cs opt Hn Hk.
    unfold ControlGroup_addControl, ControlGroup_removeControl, as_ControlGroup.
    rewrite !run_bind, (run_get_node _ _ _ Hn). cbn. rewrite Hk.
    unfold ret. cbn. by rewrite !(run_update_node _ _ _ _ Hn).
  - intros n cs nc l Hn Hk Hnc Hc Hcont Hcl Hfuel.
    assert (c ≠ this) as Hct by (intros ->; apply Hcl; by left).
    assert (∀ k', heap (restructured s this n k') !! c = Some nc) as Hc1.
    { intros k'. unfold restructured. cbn [heap]. by rewrite lookup_insert_ne. }
    assert (∀ cs' s',
              Container__updateValue fuel this
                (reparented (restructured s this n (KControlArray cs')) c this nc)
                = Ok (tt, s') →
              ∃ n' nc' evs,
                heap s' !! this = Some n' ∧ kind n' = KControlArray cs' ∧
                _value n' = JArr (value_of (heap s) <$> cs') ∧ _pristine n' = false ∧
                heap s' !! c = Some nc' ∧ _parent nc' = Some this ∧
                (∀ x, x ≠ c → _parent <$> heap s' !! x = _parent <$> heap s !! x) ∧
                emitted s' = emitted s ++ (this, _value n') :: evs) as Heffect.
    { intros cs' s' Hrun.
      destruct (add_child_effect _ _ _ _ _ _ _ _ Hn (Hc1 _) Hrun)
        as (n' & nc' & evs & H1 & H2 & H3 & H4 & H5 & H6 & H7).
      exists n', nc', evs. split_and!; try done.
      intros x Hx. rewrite (walk_parents _ _ _ _ x Hrun). by apply adopted_parent. }
    split.
    + destruct (adopted_returns fuel this c s n nc (KControlArray (cs ++ [c])) l)
        as [s' Hrun]; try done.
      destruct (Heffect _ _ Hrun) as (n' & nc' & evs & H').
      exists s', n', nc', evs. split; [|exact H'].
      by rewrite (ControlArray_push_eq _ _ _ _ _ _ _ Hn Hk (Hc1 _)).
    + intros Hrange.
      destruct (adopted_returns fuel this c s n nc
                  (KControlArray (take (Z.to_nat index) cs
                                    ++ c :: drop (Z.to_nat index) cs)) l)
        as [s' Hrun]; try done.
      destruct (Heffect _ _ Hrun) as (n' & nc' & evs & H').
      exists s', n', nc', evs. split; [|exact H'].
      by rewrite (ControlArray_insert_eq _ _ _ _ _ _ _ _ Hn Hk Hrange (Hc1 _)).
  - intros n cs l Hn Hk Hc Hcont Hfuel Hrange.
    destruct (restructured_returns fuel this s n
                (KControlArray (delete (Z.to_nat index) cs)) l) as [s' Hrun]; try done.
    destruct (drop_child_effect _ _ _ _ _ _ Hn Hrun)
      as (n' & evs & H1 & H2 & H3 & H4 & H5 & H6).
    exists s', n', evs. split_and!; try done.
    by rewrite (ControlArray_removeAt_eq _ _ _ _ _ _ Hn Hk Hrange).
Qed.
End ArrayReturns.

Lemma addControl_removeControl_frame_witness :
  (∃ s', ControlGroup_addControl 2 "c" 0 scenario_B = Ok (tt, s') ∧
         emitted s' = emitted scenario_B ∧
         value_of (heap s') 2 = value_of (heap scenario_B) 2) ∧
  (∃ s', ControlArray_push 1 2 3 scenario_D = Ok (tt, s') ∧
         value_of (heap s') 2 = JArr [JNum 1; JNum 2; JNum 3] ∧
         _parent <$> heap s' !! 3 = Some (Some 2)) ∧
  (∃ s', ControlArray_insert 1 2 1 3 scenario_D = Ok (tt, s') ∧
         value_of (heap s') 2 = JArr [JNum 1; JNum 3; JNum 2] ∧
         _parent <$> heap s' !! 3 = Some (Some 2)) ∧
  (∃ s', ControlArray_removeAt 1 2 0 scenario_D = Ok (tt, s') ∧
         value_of (heap s') 2 = JArr [JNum 2] ∧
         _parent <$> heap s' !! 0 = Some (Some 2)).
Proof.
  assert (heap scenario_B !! 2
          = Some (mkNode (JObj {[ "a" := JNum 1; "b" := JNull ]}) (Some INVALID)
                         (Some {[ "invalid" := JBool true ]}) true None any_child_invalid
                         (KControlGroup {[ "a" := 0; "b" := 1 ]} ∅))) as Hn
    by solve_lookup.
  assert (heap scenario_D !! 2
          = Some (mkNode (JArr [JNum 1; JNum 2]) (Some VALID) None true None
                         any_child_invalid (KControlArray [0; 1]))) as Ha
    by solve_lookup.
  assert (heap scenario_D !! 3
          = Some (mkNode (JNum 3) (Some VALID) None true None accept_all KControl)) as H3
    by solve_lookup.
  assert (chain (shape (heap scenario_D)) 2 []) as Hc.
  { apply (chain_root _ 2 (KControlArray [0; 1])). solve_lookup. }
  assert (containers (shape (heap scenario_D)) []) as Hcont by apply Forall_nil_2.
  assert (3 ∉ [2]) as Hcl.
  { intros Hin. apply list_elem_of_singleton in Hin. discriminate Hin. }
  assert (length (@nil nat) < 1) as Hfuel by (cbn; lia).
  split_and!.
  - destruct (proj1 (addControl_removeControl_frame 1 2 "c" 0 0 scenario_B)
                _ _ _ Hn eq_refl) as [Hadd _].
    eexists. split; [exact Hadd|]. split; [reflexivity|].
    unfold value_of. cbn [heap]. rewrite lookup_insert_eq, Hn. reflexivity.
  - destruct (proj1 (proj2 (addControl_removeControl_frame 1 2 "c" 3 1 scenario_D))
                _ _ _ _ Ha eq_refl H3 Hc Hcont Hcl Hfuel)
      as [(s' & n' & nc' & evs & Hrun & Hn' & _ & Hv & _ & Hnc' & Hp & _) _].
    exists s'. split; [exact Hrun|]. split.
    + unfold value_of. rewrite Hn', Hv. vm_compute. reflexivity.
    + rewrite Hnc'. cbn. by rewrite Hp.
  - destruct (proj1 (proj2 (addControl_removeControl_frame 1 2 "c" 3 1 scenario_D))
                _ _ _ _ Ha eq_refl H3 Hc Hcont Hcl Hfuel)
      as [_ Hins].
    destruct Hins as (s' & n' & nc' & evs & Hrun & Hn' & _ & Hv & _ & Hnc' & Hp & _);
      [cbn; lia|].
    exists s'. split; [exact Hrun|]. split.
    + unfold value_of. rewrite Hn', Hv. vm_compute. reflexivity.
    + rewrite Hnc'. cbn. by rewrite Hp.
  - destruct (proj2 (proj2 (addControl_removeControl_frame 1 2 "c" 3 0 scenario_D))
                _ _ _ Ha eq_refl Hc Hcont Hfuel)
      as (s' & n' & evs & Hrun & Hn' & _ & Hv & _ & Hpar & _); [cbn; lia|].
    exists s'. split; [exact Hrun|]. split.
    + unfold value_of. rewrite Hn', Hv. vm_compute. reflexivity.
    + rewrite Hpar. vm_compute. reflexivity.
Defined.

(** C8 as stated fails for [removeAt], which does not re-parent: in
    scenario D, after [removeAt(0)] the former second child is first,
    and every object has the parent it had; the child that was dropped
    still has the array as its parent. *)
Lemma removeAt_claim_counterexample :
  ∃ s', ControlArray_removeAt 1 2 0 scenario_D = Ok (tt, s') ∧
        ControlArray_at (heap s') 2 0 = Some 1 ∧
        ControlArray_length (heap s') 2 = Some 1 ∧
        (∀ x, _parent <$> heap s' !! x = _parent <$> heap scenario_D !! x) ∧
        _parent <$> heap s' !! 0 = Some (Some 2).
Proof.
  destruct (ControlArray_removeAt 1 2 0 scenario_D) as [[[] s']| |] eqn:Hrun;
    [|exfalso; vm_compute in Hrun; discriminate Hrun..].
  exists s'. split; [reflexivity|].
  assert (∀ x, _parent <$> heap s' !! x = _parent <$> heap scenario_D !! x) as Hpar.
  { intros x.
    apply ControlArray_removeAt_inv in Hrun as (n & cs & Hn & _ & _ & Hwalk).
    rewrite (walk_parents _ _ _ _ x Hwalk). by apply restructured_parent. }
  split_and!; [| |exact Hpar|].
  - vm_compute in Hrun. injection Hrun as <-. vm_compute. reflexivity.
  - vm_compute in Hrun. injection Hrun as <-. vm_compute. reflexivity.
  - rewrite Hpar. vm_compute. reflexivity.
Qed.

(** ** The scenarios of the specification, by evaluation *)

(** The trees of the scenarios are what their constructions return. *)
Example scenarios_built :
  state_of (run_ops 1 scenario_B_ops initial) = Some scenario_B ∧
  state_of (run_ops 1 three_levels_ops initial) = Some three_levels ∧
  state_of (run_ops 1 scenario_D_ops initial) = Some scenario_D ∧
  state_of (run_ops 1 scenario_F_ops initial) = Some scenario_F ∧
  state_of (run_ops 1 untouched_ops initial) = Some untouched ∧
  state_of (run_ops 1 (scenario_B_ops ++ [UpdateValue 0 (JNum 2)]) initial)
    = Some scenario_B_dirty ∧
  state_of (run_ops 1 (scenario_B_ops ++ [NewControl (JNum 9) accept_all]) initial)
    = Some scenario_B_extra.
Proof. split_and!; vm_compute; reflexivity. Qed.

(** Scenario A: a leaf with value [5] and the validator "reject if null". *)
Example scenario_A :
  ∃ s, new_Control (JNum 5) reject_if_null initial = Ok (0, s) ∧
       status_at (heap s) 0 = Some VALID ∧ (heap s !! 0 ≫= _errors) = None.
Proof. eexists. split_and!; vm_compute; reflexivity. Qed.

(** Scenario B: the group is invalid and has the value [{a: 1, b: null}]. *)
Example scenario_B_state :
  status_at (heap scenario_B) 2 = Some INVALID ∧
  value_of (heap scenario_B) 2 = JObj {[ "a" := JNum 1; "b" := JNull ]}.
Proof. split; vm_compute; reflexivity. Qed.

(** Scenario C: after [exclude("b")] the group is valid with value [{a: 1}]. *)
Example scenario_C :
  ∃ s, ControlGroup_exclude 1 2 "b" scenario_B = Ok (tt, s) ∧
       status_at (heap s) 2 = Some VALID ∧
       value_of (heap s) 2 = JObj {[ "a" := JNum 1 ]} ∧
       ControlGroup_contains (heap s) 2 "b" = false.
Proof. eexists. split_and!; vm_compute; reflexivity. Qed.

(** Scenario D: [push] of a third leaf gives the value [[1, 2, 3]] and
    length 3. *)
Example scenario_D_push :
  ∃ s, ControlArray_push 1 2 3 scenario_D = Ok (tt, s) ∧
       value_of (heap s) 2 = JArr [JNum 1; JNum 2; JNum 3] ∧
       ControlArray_length (heap s) 2 = Some 3 ∧
       ControlArray_at (heap s) 2 2 = Some 3.
Proof. eexists. split_and!; vm_compute; reflexivity. Qed.

(** Scenario E: [removeAt(0)] gives the value [[2]]. *)
Example scenario_E :
  ∃ s, ControlArray_removeAt 1 2 0 scenario_D = Ok (tt, s) ∧
       value_of (heap s) 2 = JArr [JNum 2].
Proof. eexists. split_and!; vm_compute; reflexivity. Qed.

Local Open Scope nat_scope.

(** * Further properties of the model *)

(** ** find on inherited names *)

(** C9. [find] is a method of the keyed container; it takes a list of
    segment names, or a string that it splits at ["/"], and walks it
    from the receiver without raising.  At a segment [name] it goes to
    the child the group stores under [name] when there is one.  When
    there is none, the claim has the result absent, and so it is unless
    the [controls] object inherits a property [name]: [find] reads
    [v.controls[name]] by plain property access, while [contains] asks
    for an own entry, so that the inherited property is the result when
    [name] is the last segment.  With the prototype of an object
    literal, in scenario F (a root group with the group [a], which has
    the group [b]): ["a/b"] finds [b] and ["a/x"] nothing, as the claim
    says; but ["toString"] and ["a/constructor"], under which no child
    is stored and which the root does not contain, yield the inherited
    property and not an absent result. *)
Theorem find_inherited_segment {Fn : Type} `{!Callable Fn}
    (proto : Prototype) (h : gmap nat (Node Fn)) this :
  (∀ s, ControlGroup_find proto h this (PathString s)
        = ControlGroup_find proto h this (PathList (StringWrapper_split_slash s))) ∧
  (∀ name rest,
     ControlGroup_find proto h this (PathList (name :: rest)) =
     match kind <$> h !! this with
     | Some (KControlGroup controls _) =>
         match controls !! name with
         | Some child => Ok (foldl (find_step proto h) (Some (FControl child)) rest)
         | None =>
             Ok (if proto name
                 then match rest with [] => Some (FInherited name) | _ :: _ => None end
                 else None)
         end
     | _ => Raise TypeError
     end) ∧
  StringWrapper_split_slash "a/b" = ["a"; "b"] ∧
  ControlGroup_find Object_prototype (heap scenario_F) 2 (PathString "a/b")
    = Ok (Some (FControl 0)) ∧
  ControlGroup_find Object_prototype (heap scenario_F) 2 (PathString "a/x") = Ok None ∧
  ControlGroup_find Object_prototype (heap scenario_B) 2 (PathString "a/b") = Ok None ∧
  ControlGroup_contains (heap scenario_F) 2 "toString" = false ∧
  ControlGroup_find Object_prototype (heap scenario_F) 2 (PathString "toString")
    = Ok (Some (FInherited "toString")) ∧
  ControlGroup_find Object_prototype (heap scenario_F) 2 (PathList ["a"; "constructor"])
    = Ok (Some (FInherited "constructor")).
Proof.
  split_and!; try reflexivity; try (vm_compute; reflexivity).
  intros name rest. unfold ControlGroup_find.
  destruct (kind <$> h !! this) as [[|controls opt|cs]|] eqn:Hk; try done.
  cbn [foldl]. rewrite find_step_eq, Hk. unfold plain_get.
  destruct (controls !! name) as [child|]; [done|].
  destruct (proto name).
  - by rewrite find_step_inherited.
  - by rewrite find_step_absent.
Qed.

(** ** find and contains *)

Section FindContains.
Context {Fn : Type} `{!Callable Fn}.
Implicit Types (h : gmap nat (Node Fn)) (s : State Fn) (proto : Prototype).

(** From a control that is no group the walk goes nowhere. *)
Lemma find_step_not_group proto h r (path : list string) :
  (∀ controls _optionals, kind <$> h !! r ≠ Some (KControlGroup controls _optionals)) →
  foldl (find_step proto h) (Some (FControl r)) path
  = match path with [] => Some (FControl r) | _ => None end.
Proof.
  intros Hr. destruct path as [|name path]; [done|]. cbn [foldl].
  rewrite find_step_eq.
  destruct (kind <$> h !! r) as [[|controls opt|]|] eqn:Hk;
    try apply find_step_absent.
  by destruct (Hr controls opt).
Qed.

(** X1. [find] composes along a path when the first part ends at a
    group: looking up the concatenation of two lists of segments is then
    looking up the second list from that group.  When the first part
    ends at a control that is no group, or at an inherited property, the
    whole lookup gives that result if no segment is left and nothing
    otherwise, where a second call of [find] would be a [TypeError]; when
    the first part finds nothing, so does the whole; and on a receiver
    that is no group both are a [TypeError]. *)
Theorem find_concat proto h this (p q : list string) :
  ControlGroup_find proto h this (PathList (p ++ q)) =
  match ControlGroup_find proto h this (PathList p) with
  | Ok (Some (FControl r)) =>
      match kind <$> h !! r with
      | Some (KControlGroup _ _) => ControlGroup_find proto h r (PathList q)
      | _ => Ok (match q with [] => Some (FControl r) | _ => None end)
      end
  | Ok (Some (FInherited nm)) =>
      Ok (match q with [] => Some (FInherited nm) | _ => None end)
  | Ok None => Ok None
  | Raise e => Raise e
  | OutOfFuel => OutOfFuel
  end.
Proof.
  unfold ControlGroup_find at 1 2.
  destruct (kind <$> h !! this) as [[|controls opt|]|]; try done.
  rewrite foldl_app.
  destruct (foldl (find_step proto h) (Some (FControl this)) p) as [[r|nm]|].
  - unfold ControlGroup_find.
    destruct (kind <$> h !! r) as [[|controls' opt'|]|] eqn:Hk; [|done|..];
      rewrite find_step_not_group; try done; intros ? ?; by rewrite Hk.
  - by rewrite find_step_inherited.
  - by rewrite find_step_absent.
Qed.

Lemma find_step_holds proto h r name c :
  find_step proto h (Some (FControl r)) name = Some (FControl c) → holds (shape h) r c.
Proof.
  intros Hstep. apply find_step_FControl in Hstep as (n & controls & opt & Hn & Hk & Hc).
  apply holds_shape. exists n. split; [done|]. rewrite Hk.
  apply elem_of_children_group. eauto.
Qed.

Lemma find_desc proto h (path : list string) r0 f :
  foldl (find_step proto h) (Some (FControl r0)) path = Some f →
  match f with
  | FControl r => (path = [] ∧ r = r0) ∨ desc (shape h) r0 r
  | FInherited nm => proto nm = true ∧ last path = Some nm
  end.
Proof.
  revert r0. induction path as [|name path IH]; intros r0 Hfind; cbn [foldl] in Hfind.
  - injection Hfind as <-. by left.
  - destruct (find_step proto h (Some (FControl r0)) name) as [[c|nm]|] eqn:Hstep;
      [| |by rewrite find_step_absent in Hfind].
    + apply find_step_holds in Hstep. specialize (IH c Hfind).
      destruct f as [r|nm].
      * right. destruct IH as [[_ ->] | Hd]; [by apply desc_child|by eapply desc_below].
      * destruct IH as [Hp Hlast]. split; [done|].
        destruct path as [|name' path]; [done|exact Hlast].
    + rewrite find_step_inherited in Hfind.
      destruct path as [|name' path]; [|done]. injection Hfind as <-.
      rewrite find_step_eq in Hstep.
      destruct (kind <$> h !! r0) as [[|controls opt|]|]; try done.
      unfold plain_get in Hstep. destruct (controls !! name); [done|].
      destruct (proto name) eqn:Hp; [|done]. by injection Hstep as <-.
Qed.

(** X2. What [find] returns for a path with at least one segment is
    either a control below the receiver, reached through [controls] maps
    only (in a tree it therefore is an object of the store, and it is
    neither the receiver nor one of the receiver's ancestors), or the
    property that the [controls] object reached last inherits under the
    last segment. *)
Theorem find_below proto h this name (rest : list string) f :
  ControlGroup_find proto h this (PathList (name :: rest)) = Ok (Some f) →
  match f with
  | FControl r =>
      desc (shape h) this r ∧
      ∀ l, wf_parents (shape h) → chain (shape h) this l →
           is_Some (h !! r) ∧ r ∉ this :: l
  | FInherited nm => proto nm = true ∧ last (name :: rest) = Some nm
  end.
Proof.
  intros Hfind. unfold ControlGroup_find in Hfind.
  destruct (kind <$> h !! this) as [[|controls opt|]|] eqn:Hgroup; try done.
  assert (foldl (find_step proto h) (Some (FControl this)) (name :: rest) = Some f)
    as Hf by congruence.
  clear Hfind. apply find_desc in Hf as Hfind.
  destruct f as [r|nm]; [|done].
  destruct Hfind as [[? _] | Hd]; [done|].
  split; [done|]. intros l Hwf Hc. split.
  - destruct (desc_chain _ _ _ _ Hwf Hd Hc) as [mid Hr].
    inversion Hr as [? k Hk | ? p k ? Hk]; subst;
      apply shape_lookup in Hk as (n & Hn & _); eauto.
  - by eapply desc_not_on_chain.
Qed.

(** X3. [contains(name)] holds exactly when [name] is a key of the map
    [_reduceValue()] builds, hence, where the group's value is up to
    date, exactly when it is a key of the group's value. *)
Theorem contains_iff_value_key h this n controls _optionals name :
  h !! this = Some n → kind n = KControlGroup controls _optionals →
  (ControlGroup_contains h this name = true ↔
   is_Some (obj_fields (ControlGroup__reduceValue h controls _optionals) !! name)) ∧
  (value_consistent h this →
   (ControlGroup_contains h this name = true ↔
    is_Some (obj_fields (_value n) !! name))).
Proof.
  intros Hn Hk.
  assert (ControlGroup_contains h this name = true ↔
          is_Some (obj_fields (ControlGroup__reduceValue h controls _optionals) !! name))
    as Hiff.
  { rewrite ControlGroup__reduceValue_lookup.
    unfold ControlGroup_contains. rewrite Hn. cbn. rewrite Hk.
    destruct (controls !! name) as [c|] eqn:Hc.
    - rewrite bool_decide_eq_true_2 by eauto. cbn.
      destruct (ControlGroup__included _optionals name);
        (split; [eauto; done | try done; by intros [? ?]]).
    - rewrite bool_decide_eq_false_2 by (by intros [? ?]). cbn.
      split; [done | by intros [? ?]]. }
  split; [exact Hiff|]. intros Hcons.
  rewrite (Hcons n (ControlGroup__reduceValue h controls _optionals) Hn); [done|].
  by rewrite Hk.
Qed.

(** [find] reads [controls] only: stores with the same [controls] maps
    give the same answers. *)
Lemma find_step_controls proto h r name :
  find_step proto h (Some (FControl r)) name =
  match (kind <$> h !! r) ≫= group_controls with
  | Some controls => plain_get proto controls name
  | None => None
  end.
Proof.
  rewrite find_step_eq. by destruct (kind <$> h !! r) as [[|controls opt|]|].
Qed.

Lemma find_ext proto h h' this path :
  (∀ r, (kind <$> h !! r) ≫= group_controls = (kind <$> h' !! r) ≫= group_controls) →
  ControlGroup_find proto h this path = ControlGroup_find proto h' this path.
Proof.
  intros Hext.
  assert (∀ v name, find_step proto h v name = find_step proto h' v name) as Hstep.
  { intros [[r|nm]|] name; [|done..]. by rewrite !find_step_controls, Hext. }
  assert (∀ l v, foldl (find_step proto h) v l = foldl (find_step proto h') v l) as Hfold.
  { induction l as [|name l IH]; intros v; [done|]. cbn [foldl]. by rewrite IH, Hstep. }
  unfold ControlGroup_find. specialize (Hext this).
  destruct (kind <$> h !! this) as [[|c1 o1|]|];
    destruct (kind <$> h' !! this) as [[|c2 o2|]|]; try done.
  by rewrite Hfold.
Qed.

End FindContains.

Lemma find_below_witness :
  ControlGroup_find Object_prototype (heap scenario_F) 2 (PathList ["a"; "b"])
    = Ok (Some (FControl 0)) ∧
  wf_parents (shape (heap scenario_F)) ∧ chain (shape (heap scenario_F)) 2 [] ∧
  desc (shape (heap scenario_F)) 2 0 ∧ is_Some (heap scenario_F !! 0) ∧ 0 ∉ [2].
Proof.
  assert (ControlGroup_find Object_prototype (heap scenario_F) 2 (PathList ["a"; "b"])
          = Ok (Some (FControl 0))) as Hfind
    by (vm_compute; reflexivity).
  assert (wf_parents (shape (heap scenario_F))) as Hwf
    by (apply (bool_decide_unpack _); vm_compute; exact I).
  assert (chain (shape (heap scenario_F)) 2 []) as Hc.
  { apply (chain_root _ 2 (KControlGroup {[ "a" := 1 ]} ∅)). solve_lookup. }
  destruct (find_below Object_prototype (heap scenario_F) 2 "a" ["b"] (FControl 0) Hfind)
    as [Hd Hrest].
  destruct (Hrest [] Hwf Hc) as [Hsome Hnot].
  split; [exact Hfind|]. split; [exact Hwf|]. split; [exact Hc|].
  split; [exact Hd|]. split; [exact Hsome | exact Hnot].
Defined.

Lemma contains_iff_value_key_witness :
  heap scenario_B !! 2
    = Some (mkNode (JObj {[ "a" := JNum 1; "b" := JNull ]}) (Some INVALID)
                   (Some {[ "invalid" := JBool true ]}) true None any_child_invalid
                   (KControlGroup {[ "a" := 0; "b" := 1 ]} ∅)) ∧
  (ControlGroup_contains (heap scenario_B) 2 "a" = true ↔
   is_Some (obj_fields (ControlGroup__reduceValue (heap scenario_B)
                          {[ "a" := 0; "b" := 1 ]} ∅) !! "a")).
Proof.
  assert (heap scenario_B !! 2
    = Some (mkNode (JObj {[ "a" := JNum 1; "b" := JNull ]}) (Some INVALID)
                   (Some {[ "invalid" := JBool true ]}) true None any_child_invalid
                   (KControlGroup {[ "a" := 0; "b" := 1 ]} ∅))) as Hn by solve_lookup.
  split; [exact Hn|].
  exact (proj1 (contains_iff_value_key (heap scenario_B) 2 _ _ _ "a" Hn eq_refl)).
Defined.

Section Flags.
Context {Fn : Type} `{!Callable Fn}.
Implicit Types (h : gmap nat (Node Fn)) (s : State Fn) (proto : Prototype).

(** A walk after new flags were stored: the receiver is a group with the
    same [controls] and the new flags, and [find] answers as before. *)
Lemma flags_walk fuel this s n controls _optionals opt' s' :
  heap s !! this = Some n → kind n = KControlGroup controls _optionals →
  Container__updateValue fuel this
    (restructured s this n (KControlGroup controls opt')) = Ok (tt, s') →
  (∃ n', heap s' !! this = Some n' ∧ kind n' = KControlGroup controls opt') ∧
  ∀ proto r path,
    ControlGroup_find proto (heap s') r path = ControlGroup_find proto (heap s) r path.
Proof.
  intros Hn Hk Hrun.
  apply updateValue_self in Hrun as (n1 & v & l & Hn1 & _ & _ & _ & _ & Hself & Hsh & _).
  cbn in Hn1. rewrite lookup_insert_eq in Hn1. injection Hn1 as <-.
  split; [by eexists|].
  intros proto r path. apply find_ext. intros x. rewrite <- !shape_kind, Hsh.
  destruct (decide (x = this)) as [->|Hne].
  - rewrite shape_restructured_eq, (shape_lookup_node _ _ _ Hn), Hk. done.
  - by rewrite shape_restructured_ne.
Qed.

(** X4. [include] and [exclude] change what [contains] says and never what
    [find] returns.  On a keyed container whose parent chain ends and
    consists of containers, both return; after [exclude(name)] the group
    does not contain [name], after [include(name)] it contains [name]
    exactly when [controls] has an entry for it, that is, when [find]
    returns a control for [name], and in both cases every [find], from
    any node and for any path, returns what it returned before.  An
    excluded child is still found. *)
Theorem flags_change_contains_not_find fuel this name s n controls _optionals l :
  heap s !! this = Some n → kind n = KControlGroup controls _optionals →
  chain (shape (heap s)) this l → containers (shape (heap s)) l →
  length l < fuel →
  (∃ s',
     ControlGroup_exclude fuel this name s = Ok (tt, s') ∧
     ControlGroup_contains (heap s') this name = false ∧
     ∀ proto r path,
       ControlGroup_find proto (heap s') r path = ControlGroup_find proto (heap s) r path) ∧
  (∃ s',
     ControlGroup_include fuel this name s = Ok (tt, s') ∧
     (∀ proto,
        ControlGroup_contains (heap s') this name = true ↔
        ∃ c, ControlGroup_find proto (heap s) this (PathList [name])
             = Ok (Some (FControl c))) ∧
     ∀ proto r path,
       ControlGroup_find proto (heap s') r path = ControlGroup_find proto (heap s) r path).
Proof.
  intros Hn Hk Hc Hcont Hfuel. split.
  - destruct (restructured_returns fuel this s n
                (KControlGroup controls (<[name := false]> _optionals)) l
                Hn eq_refl Hc Hcont Hfuel) as [s' Hrun].
    exists s'.
    split; [by rewrite (ControlGroup_exclude_eq fuel this name s n controls _optionals Hn Hk)|].
    destruct (flags_walk _ _ _ _ _ _ _ _ Hn Hk Hrun) as [(n' & Hn' & Hk') Hfind].
    split; [|done]. unfold ControlGroup_contains. rewrite Hn'. cbn. rewrite Hk'.
    rewrite ControlGroup__included_insert, decide_True by done. apply andb_false_r.
  - destruct (restructured_returns fuel this s n
                (KControlGroup controls (<[name := true]> _optionals)) l
                Hn eq_refl Hc Hcont Hfuel) as [s' Hrun].
    exists s'.
    split; [by rewrite (ControlGroup_include_eq fuel this name s n controls _optionals Hn Hk)|].
    destruct (flags_walk _ _ _ _ _ _ _ _ Hn Hk Hrun) as [(n' & Hn' & Hk') Hfind].
    split; [|done]. intros proto.
    assert (ControlGroup_contains (heap s') this name = true ↔ is_Some (controls !! name))
      as Hiff.
    { unfold ControlGroup_contains. rewrite Hn'. cbn. rewrite Hk'.
      rewrite ControlGroup__included_insert, decide_True by done. rewrite andb_true_r.
      apply bool_decide_eq_true. }
    rewrite Hiff, (ControlGroup_find_group _ _ _ _ _ _ _ Hn Hk). cbn [foldl]. split.
    + intros [c Hcn]. exists c. by rewrite (find_step_own _ _ _ _ _ _ _ _ Hn Hk Hcn).
    + intros [c Hcn].
      assert (find_step proto (heap s) (Some (FControl this)) name = Some (FControl c))
        as Hs by congruence.
      apply find_step_FControl in Hs as (n0 & cs0 & opt0 & Hn0 & Hk0 & Hc0).
      assert (n0 = n) as -> by congruence.
      assert (cs0 = controls) as -> by congruence.
      by exists c.
Qed.

(** X5. The exclusion flag of a name outlives the child: after
    [exclude(name)], [removeControl(name)] and [addControl(name, c)] the
    group holds the new child [c] under [name] ([find] returns it) but
    does not contain [name]: the new child is excluded from the start. *)
Theorem exclusion_outlives_child proto fuel this name c s s' :
  run_ops fuel [Exclude this name; RemoveControl this name; AddControl this name c] s
    = Ok (tt, s') →
  ControlGroup_contains (heap s') this name = false ∧
  ControlGroup_find proto (heap s') this (PathList [name]) = Ok (Some (FControl c)).
Proof.
  cbn [run_ops run_op]. rewrite run_bind.
  destruct (ControlGroup_exclude fuel this name s) as [[[] s1]| |] eqn:H1; [|done..].
  rewrite run_bind.
  destruct (ControlGroup_removeControl this name s1) as [[[] s2]| |] eqn:H2; [|done..].
  rewrite run_bind.
  destruct (ControlGroup_addControl this name c s2) as [[[] s3]| |] eqn:H3; [|done..].
  intros [= <-].
  apply ControlGroup_exclude_inv in H1 as (n & cs & opt & Hn & Hk & H1).
  destruct (flags_walk _ _ _ _ _ _ _ _ Hn Hk H1) as [(n1 & Hn1 & Hk1) _].
  apply ControlGroup_removeControl_inv in H2 as (n1' & cs1 & opt1 & Hn1' & Hk1' & ->).
  assert (n1' = n1) as -> by congruence.
  assert (opt1 = <[name := false]> opt) as -> by congruence.
  apply ControlGroup_addControl_inv in H3 as (n2 & cs2 & opt2 & Hn2 & Hk2 & ->).
  cbn in Hn2. rewrite lookup_insert_eq in Hn2. injection Hn2 as <-. cbn in Hk2.
  injection Hk2 as <- <-.
  split.
  - unfold ControlGroup_contains. cbn.
    rewrite !lookup_insert_eq. cbn.
    rewrite ControlGroup__included_insert, decide_True by done.
    by rewrite ?andb_false_r.
  - erewrite ControlGroup_find_group;
      [|apply lookup_insert_eq|reflexivity].
    cbn [foldl]. f_equal.
    eapply find_step_own; [apply lookup_insert_eq|reflexivity|apply lookup_insert_eq].
Qed.
End Flags.

Lemma flags_change_contains_not_find_witness :
  (∃ s', ControlGroup_exclude 1 2 "b" scenario_B = Ok (tt, s') ∧
         ControlGroup_contains (heap s') 2 "b" = false ∧
         ControlGroup_find Object_prototype (heap s') 2 (PathString "b")
           = Ok (Some (FControl 1))) ∧
  (∃ s', ControlGroup_include 1 2 "toString" scenario_B = Ok (tt, s') ∧
         ControlGroup_contains (heap s') 2 "toString" = false ∧
         ControlGroup_find Object_prototype (heap s') 2 (PathString "toString")
           = Ok (Some (FInherited "toString"))).
Proof.
  assert (heap scenario_B !! 2
          = Some (mkNode (JObj {[ "a" := JNum 1; "b" := JNull ]}) (Some INVALID)
                         (Some {[ "invalid" := JBool true ]}) true None any_child_invalid
                         (KControlGroup {[ "a" := 0; "b" := 1 ]} ∅))) as Hn
    by solve_lookup.
  assert (chain (shape (heap scenario_B)) 2 []) as Hc.
  { apply (chain_root _ 2 (KControlGroup {[ "a" := 0; "b" := 1 ]} ∅)). solve_lookup. }
  assert (containers (shape (heap scenario_B)) []) as Hcont by apply Forall_nil_2.
  assert (length (@nil nat) < 1) as Hfuel by (cbn; lia).
  split.
  - destruct (proj1 (flags_change_contains_not_find 1 2 "b" scenario_B _ _ _ _
                       Hn eq_refl Hc Hcont Hfuel))
      as (s' & Hrun & Hcontains & Hfind).
    exists s'. split; [exact Hrun|]. split; [exact Hcontains|].
    rewrite Hfind. vm_compute. reflexivity.
  - destruct (proj2 (flags_change_contains_not_find 1 2 "toString" scenario_B _ _ _ _
                       Hn eq_refl Hc Hcont Hfuel))
      as (s' & Hrun & Hcontains & Hfind).
    exists s'. split; [exact Hrun|]. split.
    + destruct (ControlGroup_contains (heap s') 2 "toString") eqn:Hct; [|reflexivity].
      destruct (proj1 (Hcontains Object_prototype) eq_refl) as [c Hfc].
      vm_compute in Hfc. discriminate Hfc.
    + rewrite Hfind. vm_compute. reflexivity.
Defined.

Lemma exclusion_outlives_child_witness :
  ∃ s', run_ops 1 [Exclude 2 "b"; RemoveControl 2 "b"; AddControl 2 "b" 3] scenario_B_extra
          = Ok (tt, s') ∧
        ControlGroup_contains (heap s') 2 "b" = false ∧
        ControlGroup_find Object_prototype (heap s') 2 (PathList ["b"])
          = Ok (Some (FControl 3)).
Proof.
  destruct (run_ops 1 [Exclude 2 "b"; RemoveControl 2 "b"; AddControl 2 "b" 3]
              scenario_B_extra) as [[[] s']| |] eqn:Hrun;
    [|exfalso; vm_compute in Hrun; discriminate..].
  exists s'. split; [reflexivity|].
  exact (exclusion_outlives_child Object_prototype 1 2 "b" 3 scenario_B_extra s' Hrun).
Defined.

(** ** What a mutation leaves alone *)

Section Frame.
Context {Fn : Type} `{!Callable Fn}.
Implicit Types (h : gmap nat (Node Fn)) (s : State Fn).

Lemma foldl_recompute_at_validator l s x n :
  heap s !! x = Some n →
  ∃ n', heap (foldl recompute_at s l) !! x = Some n' ∧ validator n' = validator n.
Proof.
  revert s n. induction l as [|y l IH]; intros s n Hn; cbn [foldl]; [by eexists|].
  destruct (decide (x = y)) as [->|Hne].
  - unfold recompute_at at 2. rewrite Hn.
    destruct (aggregate (heap s) (kind n)) as [v|] eqn:Hv; [|by apply IH].
    edestruct (IH (mkState (<[y := recomputed (heap s) y v n]> (heap s))
                           (emitted s ++ [(y, v)])) (recomputed (heap s) y v n))
      as (n' & Hn' & Hval); [apply lookup_insert_eq|].
    by exists n'.
  - apply IH. by rewrite recompute_at_lookup_ne.
Qed.

(** X10. A returning [updateValue] on a leaf changes the leaf and the
    nodes of its parent chain and nothing else: every other object
    (siblings, other subtrees) is as it was, no parent link and no child
    storage changes anywhere, no object appears or disappears, and every
    node keeps its validator. *)
Theorem updateValue_frame fuel leaf v s s' :
  Control_updateValue fuel leaf v s = Ok (tt, s') →
  shape (heap s') = shape (heap s) ∧
  (∀ x n, heap s !! x = Some n →
     ∃ n', heap s' !! x = Some n' ∧ validator n' = validator n) ∧
  ∃ l, chain (shape (heap s)) leaf l ∧
       ∀ x, x ∉ leaf :: l → heap s' !! x = heap s !! x.
Proof.
  intros Hrun.
  apply Control_updateValue_inv in Hrun as (n & l & Hn & Hk & Hc & Hcont & ->).
  split_and!.
  - by rewrite shape_foldl_recompute_at, shape_assign_at.
  - intros x nx Hx. destruct (decide (x = leaf)) as [->|Hne].
    + assert (nx = n) as -> by congruence.
      destruct (foldl_recompute_at_validator l (assign_at s leaf v) leaf _
                  (assign_at_lookup_eq _ _ _ _ Hn)) as (n' & Hn' & Hval).
      by exists n'.
    + apply foldl_recompute_at_validator. by rewrite assign_at_lookup_ne.
  - exists l. split; [done|]. intros x Hx. apply not_elem_of_cons in Hx as [Hxl Hx].
    by rewrite foldl_recompute_at_lookup_notin, assign_at_lookup_ne.
Qed.

(** ** Which operations emit *)

(** X11. The operations that emit are the six that recompute.  A
    constructor, the [value] setter, [setParent], [updateValidity],
    [addControl] and [removeControl] leave the emissions as they were; a
    returning [updateValue], [include], [exclude], [push], [insert] or
    [removeAt] adds at least one emission after those there were, and
    removes none. *)
Theorem emissions_by_operation fuel (op : Op Fn) s s' :
  run_op fuel op s = Ok (tt, s') →
  (recomputing op = false → emitted s' = emitted s) ∧
  (recomputing op = true → ∃ r v evs, emitted s' = emitted s ++ (r, v) :: evs).
Proof.
  intros Hrun.
  set (I := λ (_ : option nat) (s1 : State Fn), emitted s1 = emitted s).
  assert (∀ x s1 r n f, benign f → I x s1 → heap s1 !! r = Some n →
            I x (mkState (<[r := f n]> (heap s1)) (emitted s1))) as Hb by done.
  assert (∀ x s1 r n, I x s1 → heap s1 !! r = Some n → x = None ∨ x = Some r →
            I None (revalidate_at s1 r)) as Hv.
  { intros x s1 r n HI _ _. unfold I. by rewrite revalidate_at_emitted. }
  assert (∀ s1 f k, I None s1 → heap s1 !! fresh (dom (heap s1)) = None →
            I (Some (fresh (dom (heap s1))))
              (mkState (<[fresh (dom (heap s1)) :=
                           mkNode JUndefined None None true None f k]> (heap s1))
                       (emitted s1))) as Ha by done.
  assert (∀ {A} (m : M Fn A) a, hoare (I None) m (λ _, I None) →
            m s = Ok (a, s') → emitted s' = emitted s) as Hquiet.
  { intros A m a Hm Hms. specialize (Hm s eq_refl). by rewrite Hms in Hm. }
  assert (∀ this s1, Container__updateValue fuel this s1 = Ok (tt, s') →
            emitted s1 = emitted s →
            ∃ r v evs, emitted s' = emitted s ++ (r, v) :: evs) as Hloud.
  { intros this s1 Hwalk Hs1.
    apply updateValue_self in Hwalk as (n & v & l & _ & _ & _ & _ & _ & _ & _ & Hem).
    rewrite Hs1 in Hem. eauto. }
  split; intros Hop;
    destruct op as [value f|controls optionals f|controls f|this v|this parent|this
      |this value|this name c|this name|this name|this name|this c|this index c|this index];
    try discriminate Hop; cbn [run_op] in Hrun.
  - rewrite run_bind in Hrun.
    destruct (new_Control value f s) as [[r s1]| |] eqn:Hnew; [|done..].
    injection Hrun as <-. eapply Hquiet; [|exact Hnew]. by apply inv_new_Control.
  - rewrite run_bind in Hrun.
    destruct (new_ControlGroup controls optionals f s) as [[r s1]| |] eqn:Hnew;
      [|done..].
    injection Hrun as <-. eapply Hquiet; [|exact Hnew]. by apply inv_new_ControlGroup.
  - rewrite run_bind in Hrun.
    destruct (new_ControlArray controls f s) as [[r s1]| |] eqn:Hnew; [|done..].
    injection Hrun as <-. eapply Hquiet; [|exact Hnew]. by apply inv_new_ControlArray.
  - eapply Hquiet; [|exact Hrun]. apply inv_update_node; [done|apply benign_set_value].
  - eapply Hquiet; [|exact Hrun]. apply inv_update_node; [done|apply benign_set_parent].
  - eapply Hquiet; [|exact Hrun]. by apply inv_AbstractControl_updateValidity.
  - by apply ControlGroup_addControl_inv in Hrun as (n & cs & opt & _ & _ & ->).
  - by apply ControlGroup_removeControl_inv in Hrun as (n & cs & opt & _ & _ & ->).
  - apply Control_updateValue_inv in Hrun as (n & l & Hn & Hk & Hc & Hcont & ->).
    pose proof (chain_NoDup _ _ _ Hc) as Hnd. apply NoDup_cons in Hnd as [_ Hnd].
    rewrite foldl_recompute_at_emitted; [|by rewrite shape_assign_at|done].
    rewrite (assign_at_emitted _ _ _ _ Hn), <- app_assoc. cbn. eauto.
  - apply ControlGroup_include_inv in Hrun as (n & cs & opt & _ & _ & Hrun).
    by eapply Hloud.
  - apply ControlGroup_exclude_inv in Hrun as (n & cs & opt & _ & _ & Hrun).
    by eapply Hloud.
  - apply ControlArray_push_inv in Hrun as (n & cs & nc & _ & _ & _ & Hrun).
    by eapply Hloud.
  - apply ControlArray_insert_inv in Hrun as (n & cs & nc & _ & _ & _ & _ & Hrun).
    by eapply Hloud.
  - apply ControlArray_removeAt_inv in Hrun as (n & cs & _ & _ & _ & Hrun).
    by eapply Hloud.
Qed.
End Frame.

Lemma updateValue_frame_witness :
  ∃ s', Control_updateValue 1 0 (JNum 7) scenario_B = Ok (tt, s') ∧
        heap s' !! 1 = heap scenario_B !! 1.
Proof.
  destruct (Control_updateValue 1 0 (JNum 7) scenario_B) as [[[] s']| |] eqn:Hrun;
    [|exfalso; vm_compute in Hrun; discriminate..].
  exists s'. split; [reflexivity|].
  destruct (updateValue_frame 1 0 (JNum 7) scenario_B s' Hrun) as (_ & _ & l & Hc & Hframe).
  assert (chain (shape (heap scenario_B)) 0 [2]) as Hc'.
  { apply (chain_step _ 0 2 KControl); [solve_lookup|].
    apply (chain_root _ 2 (KControlGroup {[ "a" := 0; "b" := 1 ]} ∅)). solve_lookup. }
  assert (l = [2]) as -> by exact (chain_det _ _ _ _ Hc Hc').
  apply Hframe. intros Hin. apply elem_of_cons in Hin as [Hin|Hin]; [discriminate Hin|].
  apply elem_of_cons in Hin as [Hin|Hin]; [discriminate Hin|]. by apply elem_of_nil in Hin.
Defined.

Lemma emissions_by_operation_witness :
  ∃ s', run_op 1 (NewControlGroup {[ "x" := 0 ]} None any_child_invalid) scenario_B_dirty
          = Ok (tt, s') ∧
        emitted s' = emitted scenario_B_dirty.
Proof.
  destruct (run_op 1 (NewControlGroup {[ "x" := 0 ]} None any_child_invalid)
              scenario_B_dirty) as [[[] s']| |] eqn:Hrun;
    [|exfalso; vm_compute in Hrun; discriminate..].
  exists s'. split; [reflexivity|].
  exact (proj1 (emissions_by_operation 1 _ scenario_B_dirty s' Hrun) eq_refl).
Defined.

(** ** Constructors *)

Section Constructors.
Context {Fn : Type} `{!Callable Fn}.
Implicit Types (h : gmap nat (Node Fn)) (s : State Fn).

(** [control.setParent(this)] for each child in turn. *)
Lemma setParent_each this cs s :
  (∀ c, c ∈ cs → is_Some (heap s !! c)) →
  ∃ s', foldr (λ control rest, AbstractControl_setParent control this;; rest)
              (ret tt) cs s = Ok (tt, s') ∧
        emitted s' = emitted s ∧
        ∀ x, heap s' !! x =
             (if bool_decide (x ∈ cs) then set_parent (Some this) else id) <$> heap s !! x.
Proof.
  revert s. induction cs as [|c cs IH]; intros s Hex.
  - exists s. split_and!; [done..|]. intros x. cbn. by destruct (heap s !! x).
  - destruct (Hex c) as [nc Hc]; [left|].
    cbn [foldr]. rewrite run_bind. unfold AbstractControl_setParent.
    rewrite (run_update_node _ _ _ _ Hc).
    set (s1 := mkState (<[c := set_parent (Some this) nc]> (heap s)) (emitted s)).
    destruct (IH s1) as (s' & Hrun & Hem & Hl).
    { intros x Hx. cbn. destruct (decide (x = c)) as [->|Hne].
      - rewrite lookup_insert_eq. by eexists.
      - rewrite lookup_insert_ne by done. apply Hex. by right. }
    exists s'. split_and!; [done..|]. intros x. rewrite Hl. cbn.
    destruct (decide (x = c)) as [->|Hne].
    + rewrite lookup_insert_eq, Hc. rewrite (bool_decide_eq_true_2 (c ∈ c :: cs)) by left.
      cbn. by destruct (bool_decide (c ∈ cs)).
    + rewrite lookup_insert_ne by done.
      destruct (decide (x ∈ cs)) as [Hin|Hnin].
      * rewrite (bool_decide_eq_true_2 _ Hin).
        by rewrite (bool_decide_eq_true_2 (x ∈ c :: cs)) by by right.
      * rewrite (bool_decide_eq_false_2 _ Hnin).
        rewrite (bool_decide_eq_false_2 (x ∈ c :: cs)); [done|].
        intros Hin. by apply elem_of_cons in Hin as [?|?].
Qed.

(** The common text of the constructors of [ControlGroup] and
    [ControlArray], over children that are objects of the store. *)
Lemma construct_result k f s :
  is_container k = true →
  (∀ c, c ∈ children k → is_Some (heap s !! c)) →
  ∃ r s' v,
    (this ← AbstractControl_constructor f k;
     Container__setParentForControls this;;
     Container__setValueErrorsStatus this;;
     ret this) s = Ok (r, s') ∧
    heap s !! r = None ∧ emitted s' = emitted s ∧
    aggregate (heap s) k = Some v ∧
    heap s' !! r =
      Some (validated (<[r := mkNode v None None true None f k]> (heap s')) r
                      (mkNode v None None true None f k)) ∧
    ∀ x, x ≠ r →
      heap s' !! x =
      (if bool_decide (x ∈ children k) then set_parent (Some r) else id) <$> heap s !! x.
Proof.
  intros Hk Hex.
  set (r := fresh (dom (heap s))).
  assert (heap s !! r = None) as Hr by apply not_elem_of_dom, is_fresh.
  assert (r ∉ children k) as Hrk.
  { intros Hin. destruct (Hex _ Hin) as [n Hn]. congruence. }
  set (n0 := mkNode JUndefined None None true None f k).
  set (s1 := mkState (<[r := n0]> (heap s)) (emitted s)).
  destruct (setParent_each r (children k) s1) as (s2 & Hloop & Hem2 & Hl2).
  { intros c Hc. cbn. rewrite lookup_insert_ne by (intros ->; done). by apply Hex. }
  assert (heap s2 !! r = Some n0) as Hr2.
  { rewrite Hl2. cbn. rewrite lookup_insert_eq.
    by rewrite (bool_decide_eq_false_2 _ Hrk). }
  assert (∀ x, x ≠ r → heap s2 !! x =
            (if bool_decide (x ∈ children k) then set_parent (Some r) else id)
              <$> heap s !! x) as Hother.
  { intros x Hx. rewrite Hl2. cbn. by rewrite lookup_insert_ne. }
  destruct (proj2 (aggregate_is_container (heap s) k) Hk) as [v Hv].
  assert (aggregate (heap s2) k = Some v) as Hv2.
  { rewrite <- Hv. apply aggregate_ext. intros c Hc. unfold value_of.
    rewrite Hother by (intros ->; done).
    destruct (heap s !! c); [|done]. cbn. by destruct (bool_decide _). }
  set (n1 := mkNode v None None true None f k).
  set (s3 := mkState (<[r := n1]> (heap s2)) (emitted s2)).
  exists r, (revalidate_at s3 r), v.
  assert (heap s3 !! r = Some n1) as Hr3 by apply lookup_insert_eq.
  split_and!; try done.
  - unfold AbstractControl_constructor. rewrite run_bind. unfold alloc. fold r n0 s1.
    rewrite run_bind. unfold Container__setParentForControls at 1. rewrite run_bind.
    rewrite (run_get_node s1 r n0) by apply lookup_insert_eq. cbn [kind n0].
    change (kind n0) with k. rewrite Hloop.
    rewrite run_bind. unfold Container__setValueErrorsStatus. rewrite run_bind.
    rewrite (run_get_node _ _ _ Hr2). rewrite run_bind. unfold get_heap at 1.
    change (kind n0) with k. rewrite Hv2. rewrite run_bind.
    rewrite (run_update_node _ _ _ _ Hr2). change (set_value v n0) with n1. fold s3.
    by rewrite (run_validator_eq _ _ _ Hr3).
  - by rewrite revalidate_at_emitted.
  - unfold revalidate_at. rewrite Hr3. cbn [heap s3].
    rewrite lookup_insert_eq. do 2 f_equal.
    by rewrite !insert_insert_eq.
  - intros x Hx. rewrite revalidate_at_lookup_ne by done. unfold s3. cbn [heap].
    rewrite lookup_insert_ne by done. by apply Hother.
Qed.

(** X12. [new ControlGroup(controls, optionals, validator)] over children
    that are objects of the store returns a new object and emits
    nothing.  The group starts pristine and without parent, holds
    [controls] and the given flags (none when [optionals] is absent), has
    the value its included children aggregate to, and the errors its
    validator yields on the store where the children are adopted and the
    value is assigned but errors and status are not.  Every child gets
    the new group as parent, whatever parent it had; nothing else of the
    store changes, so a container that listed a child before still lists
    it. *)
Theorem new_ControlGroup_adopts controls optionals f s :
  (∀ name c, controls !! name = Some c → is_Some (heap s !! c)) →
  ∃ r s',
    new_ControlGroup controls optionals f s = Ok (r, s') ∧
    heap s !! r = None ∧ emitted s' = emitted s ∧
    (let n0 := mkNode (ControlGroup__reduceValue (heap s) controls (default ∅ optionals))
                      None None true None f
                      (KControlGroup controls (default ∅ optionals)) in
     heap s' !! r = Some (validated (<[r := n0]> (heap s')) r n0)) ∧
    (∀ name c nc, controls !! name = Some c → heap s !! c = Some nc →
       heap s' !! c = Some (set_parent (Some r) nc)) ∧
    (∀ x, x ≠ r → (∀ name, controls !! name ≠ Some x) → heap s' !! x = heap s !! x).
Proof.
  intros Hex.
  assert ((if isPresent optionals then default ∅ optionals else ∅)
          = default ∅ optionals) as Hopt by by destruct optionals.
  unfold new_ControlGroup. rewrite Hopt.
  destruct (construct_result (KControlGroup controls (default ∅ optionals)) f s)
    as (r & s' & v & Hrun & Hr & Hem & Hv & Hnew & Hother); [done| |].
  { intros c Hc. apply elem_of_children_group in Hc as [name Hc]. by eapply Hex. }
  injection Hv as <-.
  exists r, s'. split_and!; try done.
  - intros name c nc Hc Hnc.
    assert (c ≠ r) as Hne by (intros ->; congruence).
    rewrite (Hother _ Hne), Hnc.
    rewrite bool_decide_eq_true_2; [done|]. apply elem_of_children_group. by exists name.
  - intros x Hx Hnot. rewrite (Hother _ Hx).
    rewrite bool_decide_eq_false_2; [by destruct (heap s !! x)|].
    intros Hin. apply elem_of_children_group in Hin as [name Hin]. by apply (Hnot name).
Qed.

(** Construction over children that have no parent keeps a tree a tree
    and the values aggregated. *)
Lemma construct_tree k f s r s' v :
  wf_parents (shape (heap s)) →
  (∀ c, c ∈ children k → ∃ nc, heap s !! c = Some nc ∧ _parent nc = None) →
  heap s !! r = None → aggregate (heap s) k = Some v →
  heap s' !! r =
    Some (validated (<[r := mkNode v None None true None f k]> (heap s')) r
                    (mkNode v None None true None f k)) →
  (∀ x, x ≠ r →
     heap s' !! x =
     (if bool_decide (x ∈ children k) then set_parent (Some r) else id) <$> heap s !! x) →
  wf_parents (shape (heap s')) ∧ (heap_consistent (heap s) → heap_consistent (heap s')).
Proof.
  intros Hwf Hroots Hr Hv Hnew Hother.
  assert (r ∉ children k) as Hrk.
  { intros Hin. destruct (Hroots _ Hin) as (n & Hn & _). congruence. }
  assert (∀ q x, holds (shape (heap s)) q x → x ≠ r ∧ x ∉ children k) as Hheld.
  { intros q x Hh. destruct (wf_parents_holds _ _ _ Hwf Hh) as [kx Hx].
    apply shape_lookup in Hx as (nx & Hnx & Hp & _). split; [intros ->; congruence|].
    intros Hin. destruct (Hroots _ Hin) as (n & Hn & Hpn). congruence. }
  assert (∀ x, value_of (heap s') x = value_of (heap s) x ∨ x = r) as Hval.
  { intros x. destruct (decide (x = r)) as [->|Hne]; [by right|left].
    unfold value_of. rewrite (Hother _ Hne). destruct (heap s !! x); [|done].
    cbn. by destruct (bool_decide _). }
  split.
  - intros q [p kq] Hq. cbn [snd]. apply Forall_forall. intros x Hx.
    apply shape_lookup in Hq as (nq & Hnq & Hp & Hkq).
    destruct (decide (q = r)) as [->|Hqr].
    + rewrite Hnew in Hnq. injection Hnq as <-. cbn in Hkq. subst kq.
      destruct (Hroots _ Hx) as (nx & Hnx & _).
      assert (x ≠ r) as Hne by (intros ->; congruence).
      erewrite shape_lookup_node; [|rewrite (Hother _ Hne), Hnx; cbn; reflexivity].
      by rewrite (bool_decide_eq_true_2 _ Hx).
    + rewrite (Hother _ Hqr) in Hnq.
      destruct (heap s !! q) as [nq0|] eqn:Hq0; [|done].
      assert (kind nq0 = kq) as Hk0.
      { cbn in Hnq. injection Hnq as <-. by destruct (bool_decide _). }
      assert (holds (shape (heap s)) q x) as Hh.
      { exists (_parent nq0), kq. split; [|done]. rewrite <- Hk0.
        by apply shape_lookup_node. }
      destruct (Hheld _ _ Hh) as [Hne Hnin].
      destruct (wf_parents_holds _ _ _ Hwf Hh) as [kx Hsx].
      apply shape_lookup in Hsx as (nx & Hnx & Hpx & _).
      erewrite shape_lookup_node; [|rewrite (Hother _ Hne), Hnx; cbn; reflexivity].
      rewrite (bool_decide_eq_false_2 _ Hnin). cbn. by rewrite Hpx.
  - intros Hcons q nq w Hnq Hw.
    destruct (decide (q = r)) as [->|Hqr].
    + rewrite Hnew in Hnq. injection Hnq as <-.
      change (aggregate (heap s') k = Some w) in Hw. change (v = w).
      assert (aggregate (heap s') k = aggregate (heap s) k) as Heq.
      { apply aggregate_ext. intros c Hc. destruct (Hval c) as [?| ->]; done. }
      congruence.
    + rewrite (Hother _ Hqr) in Hnq.
      destruct (heap s !! q) as [nq0|] eqn:Hq0; [|done].
      assert (kind nq = kind nq0 ∧ _value nq = _value nq0) as [Hk0 Hv0].
      { cbn in Hnq. injection Hnq as <-. by destruct (bool_decide _). }
      rewrite Hv0. apply (Hcons q nq0 w Hq0). rewrite <- Hw, Hk0. symmetry.
      apply aggregate_ext. intros c Hc. destruct (Hval c) as [?| ->]; [done|].
      exfalso. destruct (Hheld q r) as [Hne _]; [|done].
      exists (_parent nq0), (kind nq0). split; [by apply shape_lookup_node|done].
Qed.

(** [new Control(value, validator)] on a tree. *)
Lemma new_Control_tree value f s :
  wf_parents (shape (heap s)) →
  ∃ r s',
    new_Control value f s = Ok (r, s') ∧
    wf_parents (shape (heap s')) ∧ (heap_consistent (heap s) → heap_consistent (heap s')).
Proof.
  intros Hwf.
  set (r := fresh (dom (heap s))).
  assert (heap s !! r = None) as Hr by apply not_elem_of_dom, is_fresh.
  set (n1 := mkNode value None None true None f KControl).
  set (s1 := mkState (<[r := n1]> (heap s)) (emitted s)).
  assert (heap s1 !! r = Some n1) as Hr1 by apply lookup_insert_eq.
  assert (new_Control value f s = Ok (r, revalidate_at s1 r)) as Hrun.
  { unfold new_Control, AbstractControl_constructor. rewrite run_bind.
    unfold alloc. fold r. rewrite run_bind. unfold Control__setValueErrorsStatus.
    rewrite run_bind.
    erewrite run_update_node by apply lookup_insert_eq. cbn [heap emitted].
    rewrite insert_insert_eq.
    change (set_value value _) with n1. fold s1.
    by rewrite (run_validator_eq _ _ _ Hr1). }
  exists r, (revalidate_at s1 r). split; [done|].
  assert (∀ q x, holds (shape (heap s)) q x → x ≠ r) as Hheld.
  { intros q x Hh. destruct (wf_parents_holds _ _ _ Hwf Hh) as [kx Hx].
    apply shape_lookup in Hx as (nx & Hnx & _). intros ->; congruence. }
  assert (heap (revalidate_at s1 r) !! r = Some (validated (heap s1) r n1)) as Hnew.
  { unfold revalidate_at. rewrite Hr1. apply lookup_insert_eq. }
  assert (∀ x, x ≠ r → heap (revalidate_at s1 r) !! x = heap s !! x) as Hother.
  { intros x Hx. rewrite revalidate_at_lookup_ne by done. cbn.
    by rewrite lookup_insert_ne. }
  split.
  - intros q [p kq] Hq. cbn [snd]. apply Forall_forall. intros x Hx.
    apply shape_lookup in Hq as (nq & Hnq & Hp & Hkq).
    destruct (decide (q = r)) as [->|Hqr].
    { rewrite Hnew in Hnq. injection Hnq as <-. cbn in Hkq. subst kq.
      by apply elem_of_nil in Hx. }
    rewrite (Hother _ Hqr) in Hnq.
    assert (holds (shape (heap s)) q x) as Hh.
    { exists p, kq. split; [|done]. apply shape_lookup. by exists nq. }
    destruct (wf_parents_holds _ _ _ Hwf Hh) as [kx Hsx].
    apply shape_lookup in Hsx as (nx & Hnx & Hpx & _).
    erewrite shape_lookup_node; [|rewrite (Hother _ (Hheld _ _ Hh)); exact Hnx].
    cbn. by rewrite Hpx.
  - intros Hcons q nq w Hnq Hw.
    destruct (decide (q = r)) as [->|Hqr].
    { rewrite Hnew in Hnq. injection Hnq as <-. cbn in Hw. discriminate Hw. }
    rewrite (Hother _ Hqr) in Hnq. apply (Hcons q nq w Hnq). rewrite <- Hw.
    symmetry. apply aggregate_ext. intros c Hc.
    assert (c ≠ r) as Hcr.
    { eapply (Hheld q). exists (_parent nq), (kind nq).
      split; [by apply shape_lookup_node|done]. }
    unfold value_of. by rewrite (Hother _ Hcr).
Qed.

(** X13. Building a form bottom-up keeps it a tree with aggregated
    values: on a store that is a tree whose containers' values are what
    their children aggregate to, each constructor returns when the
    children it is given are objects without parent, and the store it
    returns in is again such a tree. *)
Theorem constructors_build_trees s :
  wf_parents (shape (heap s)) → heap_consistent (heap s) →
  (∀ value f, ∃ r s',
     new_Control value f s = Ok (r, s') ∧
     wf_parents (shape (heap s')) ∧ heap_consistent (heap s')) ∧
  (∀ controls optionals f,
     (∀ name c, controls !! name = Some c →
        ∃ nc, heap s !! c = Some nc ∧ _parent nc = None) →
     ∃ r s',
       new_ControlGroup controls optionals f s = Ok (r, s') ∧
       wf_parents (shape (heap s')) ∧ heap_consistent (heap s')) ∧
  (∀ controls f,
     (∀ c, c ∈ controls → ∃ nc, heap s !! c = Some nc ∧ _parent nc = None) →
     ∃ r s',
       new_ControlArray controls f s = Ok (r, s') ∧
       wf_parents (shape (heap s')) ∧ heap_consistent (heap s')).
Proof.
  intros Hwf Hcons. split_and!.
  - intros value f.
    destruct (new_Control_tree value f s Hwf) as (r & s' & Hrun & Hwf' & Hcons').
    exists r, s'. split_and!; [done|done|by apply Hcons'].
  - intros controls optionals f Hroots.
    assert ((if isPresent optionals then default ∅ optionals else ∅)
            = default ∅ optionals) as Hopt by by destruct optionals.
    unfold new_ControlGroup. rewrite Hopt.
    assert (∀ c, c ∈ children (KControlGroup controls (default ∅ optionals)) →
              ∃ nc, heap s !! c = Some nc ∧ _parent nc = None) as Hroots'.
    { intros c Hc. apply elem_of_children_group in Hc as [name Hc]. by eapply Hroots. }
    destruct (construct_result (KControlGroup controls (default ∅ optionals)) f s)
      as (r & s' & v & Hrun & Hr & Hem & Hv & Hnew & Hother); [done| |].
    { intros c Hc. destruct (Hroots' _ Hc) as (nc & Hnc & _). by eexists. }
    exists r, s'. split; [done|].
    destruct (construct_tree _ f s r s' v Hwf Hroots' Hr Hv Hnew Hother) as [Hwf' Hcons'].
    split; [done|by apply Hcons'].
  - intros controls f Hroots.
    destruct (construct_result (KControlArray controls) f s)
      as (r & s' & v & Hrun & Hr & Hem & Hv & Hnew & Hother); [done| |].
    { intros c Hc. destruct (Hroots _ Hc) as (nc & Hnc & _). by eexists. }
    exists r, s'. split; [done|].
    destruct (construct_tree (KControlArray controls) f s r s' v
                Hwf Hroots Hr Hv Hnew Hother) as [Hwf' Hcons'].
    split; [done|by apply Hcons'].
Qed.

(** X14. A control reports to the container constructed over it last.
    After [new ControlArray(controls, validator)] over existing objects,
    [updateValue] on a leaf among them returns and makes two emissions,
    the leaf's and the new array's; every object other than the leaf and
    the new array is as the constructor left it, and an object that is
    not among [controls] (such as a container that held the leaf before
    and still lists it) is as it was before the construction. *)
Theorem last_container_hears fuel controls f c nc value s :
  (∀ x, x ∈ controls → is_Some (heap s !! x)) →
  c ∈ controls → heap s !! c = Some nc → kind nc = KControl → 0 < fuel →
  ∃ r s1 s2,
    new_ControlArray controls f s = Ok (r, s1) ∧
    Control_updateValue fuel c value s1 = Ok (tt, s2) ∧
    emitted s2 = emitted s ++ [(c, value); (r, value_of (heap s2) r)] ∧
    (∀ q, q ≠ c → q ≠ r → heap s2 !! q = heap s1 !! q) ∧
    (∀ q nq, heap s !! q = Some nq → q ∉ controls → heap s2 !! q = Some nq).
Proof.
  intros Hex Hc Hnc Hk Hfuel.
  destruct (construct_result (KControlArray controls) f s)
    as (r & s1 & v & Hrun & Hr & Hem & Hv & Hnew & Hother); [done..|].
  assert (c ≠ r) as Hcr by (intros ->; congruence).
  assert (heap s1 !! c = Some (set_parent (Some r) nc)) as Hc1.
  { rewrite (Hother _ Hcr), Hnc. cbn in Hc |- *. by rewrite (bool_decide_eq_true_2 _ Hc). }
  assert (chain (shape (heap s1)) c [r]) as Hchain.
  { eapply chain_step; [exact (shape_lookup_node _ _ _ Hc1)|].
    eapply chain_root. exact (shape_lookup_node _ _ _ Hnew). }
  assert (containers (shape (heap s1)) [r]) as Hcont.
  { apply containers_cons. split; [|by apply Forall_nil].
    eexists _, _. split; [exact (shape_lookup_node _ _ _ Hnew)|done]. }
  destruct (Control_updateValue_final fuel c value [r] s1 _ Hc1 Hk Hchain Hcont)
    as (Hrun2 & _ & Hem2); [cbn; lia|].
  eexists r, s1, _. split_and!; [done|exact Hrun2| | |].
  - rewrite Hem2, Hem. done.
  - intros q Hqc Hqr. rewrite foldl_recompute_at_lookup_notin.
    + by rewrite assign_at_lookup_ne.
    + intros Hin. apply list_elem_of_singleton in Hin. done.
  - intros q nq Hq Hnin.
    assert (q ≠ r) as Hqr by (intros ->; congruence).
    assert (q ≠ c) as Hqc by (intros ->; done).
    rewrite foldl_recompute_at_lookup_notin.
    + rewrite assign_at_lookup_ne by done. rewrite (Hother _ Hqr), Hq. cbn.
      by rewrite (bool_decide_eq_false_2 _ Hnin).
    + intros Hin. apply list_elem_of_singleton in Hin. done.
Qed.
End Constructors.

Lemma new_ControlGroup_adopts_witness :
  ∃ r s', new_ControlGroup {[ "z" := 0 ]} None any_child_invalid scenario_B = Ok (r, s') ∧
          emitted s' = emitted scenario_B ∧
          heap s' !! 2 = heap scenario_B !! 2.
Proof.
  destruct (new_ControlGroup_adopts {[ "z" := 0 ]} None any_child_invalid scenario_B)
    as (r & s' & Hrun & Hr & Hem & _ & _ & Hother).
  { intros name c Hc. apply lookup_singleton_Some in Hc as [_ <-].
    vm_compute. by eexists. }
  exists r, s'. split; [exact Hrun|]. split; [exact Hem|].
  apply Hother.
  - intros <-. vm_compute in Hr. discriminate Hr.
  - intros name Hc. apply lookup_singleton_Some in Hc as [_ Hc]. discriminate Hc.
Defined.

Lemma scenario_B_consistent : heap_consistent (heap scenario_B).
Proof. check_consistent. Qed.

Lemma constructors_build_trees_witness :
  ∃ r s', new_ControlArray [2] accept_all scenario_B = Ok (r, s') ∧
          wf_parents (shape (heap s')) ∧ heap_consistent (heap s').
Proof.
  destruct (constructors_build_trees scenario_B scenario_B_wf scenario_B_consistent)
    as (_ & _ & Harr).
  apply (Harr [2] accept_all).
  intros c Hc. apply list_elem_of_singleton in Hc as ->.
  eexists. split; [vm_compute; reflexivity|reflexivity].
Defined.

Lemma last_container_hears_witness :
  ∃ r s1 s2,
    new_ControlArray [0] accept_all scenario_B = Ok (r, s1) ∧
    Control_updateValue 1 0 (JNum 7) s1 = Ok (tt, s2) ∧
    emitted s2 = [(0, JNum 7); (r, value_of (heap s2) r)] ∧
    heap s2 !! 2 = heap scenario_B !! 2.
Proof.
  assert (heap scenario_B !! 0 = Some (mkNode (JNum 1) (Some VALID) None true (Some 2)
                                              accept_all KControl)) as H0
    by solve_lookup.
  assert (heap scenario_B !! 2
          = Some (mkNode (JObj {[ "a" := JNum 1; "b" := JNull ]}) (Some INVALID)
                         (Some {[ "invalid" := JBool true ]}) true None any_child_invalid
                         (KControlGroup {[ "a" := 0; "b" := 1 ]} ∅))) as H2
    by solve_lookup.
  assert (∀ x, x ∈ [0] → is_Some (heap scenario_B !! x)) as Hex.
  { intros x Hx. apply list_elem_of_singleton in Hx as ->. by eexists. }
  assert (0 ∈ [0]) as Hin by left.
  assert (0 < 1) as Hfuel by lia.
  destruct (last_container_hears 1 [0] accept_all 0 _ (JNum 7) scenario_B
              Hex Hin H0 eq_refl Hfuel)
    as (r & s1 & s2 & Hrun1 & Hrun2 & Hem & _ & Hold).
  exists r, s1, s2. split; [exact Hrun1|]. split; [exact Hrun2|]. split; [exact Hem|].
  rewrite H2. apply Hold; [exact H2|].
  intros Hin2. apply list_elem_of_singleton in Hin2. discriminate Hin2.
Defined.

(** ** Doing it again *)

Section Again.
Context {Fn : Type} `{!Callable Fn}.
Implicit Types (h : gmap nat (Node Fn)) (s : State Fn).

Lemma state_eq s h : heap s = h → mkState h (emitted s) = s.
Proof. intros <-. by destruct s. Qed.

Lemma children_off_chain h hf a n post :
  wf_parents (shape h) → chain (shape h) a post → h !! a = Some n →
  (∀ x, x ∉ a :: post → hf !! x = h !! x) →
  aggregate hf (kind n) = aggregate h (kind n).
Proof.
  intros Hwf Hc Hn Hframe. apply aggregate_ext. intros c Hin.
  assert (desc (shape h) a c) as Hd.
  { apply desc_child. exists (_parent n), (kind n).
    split; [by apply shape_lookup_node|done]. }
  unfold value_of. by rewrite (Hframe _ (desc_not_on_chain _ _ _ _ Hwf Hc Hd)).
Qed.

Lemma recomputed_fixed h hf a n v post :
  reads_subtree_only (validator n) →
  wf_parents (shape h) → chain (shape h) a post → h !! a = Some n →
  hf !! a = Some (recomputed h a v n) →
  (∀ x, x ∉ a :: post → hf !! x = h !! x) →
  recomputed hf a v (recomputed h a v n) = recomputed h a v n.
Proof.
  intros Hlocal Hwf Hc Hn Hfa Hframe.
  assert (call (validator n) (<[a := set_value v n]> h) a
          = call (validator n) (<[a := set_value v (recomputed h a v n)]> hf) a) as Hcall.
  { apply (Hlocal _ _ a (set_value v n) (set_value v (recomputed h a v n)));
      [apply lookup_insert_eq|apply lookup_insert_eq|done|done|].
    intros x Hd. rewrite (shape_insert _ _ n) in Hd by done.
    pose proof (desc_not_on_chain _ _ _ _ Hwf Hc Hd) as Hx.
    assert (x ≠ a) as Hne by (intros ->; apply Hx; by left).
    rewrite !lookup_insert_ne by done. symmetry. by apply Hframe. }
  unfold recomputed at 1. unfold validated at 1.
  change (validator (set_value v (recomputed h a v n))) with (validator n).
  rewrite <- Hcall. reflexivity.
Qed.

Lemma validated_fixed h hf a n post :
  reads_subtree_only (validator n) →
  wf_parents (shape h) → chain (shape h) a post → h !! a = Some n →
  hf !! a = Some (validated h a n) →
  (∀ x, x ∉ a :: post → hf !! x = h !! x) →
  validated hf a (validated h a n) = validated h a n.
Proof.
  intros Hlocal Hwf Hc Hn Hfa Hframe.
  assert (call (validator n) h a = call (validator n) hf a) as Hcall.
  { apply (Hlocal _ _ a n (validated h a n)); [done..|].
    intros x Hd. pose proof (desc_not_on_chain _ _ _ _ Hwf Hc Hd) as Hx.
    symmetry. by apply Hframe. }
  unfold validated at 1.
  change (validator (validated h a n)) with (validator n).
  rewrite <- Hcall. reflexivity.
Qed.

Lemma recompute_again h hf a n v post s :
  reads_subtree_only (validator n) →
  wf_parents (shape h) → chain (shape h) a post → h !! a = Some n →
  aggregate h (kind n) = Some v →
  hf !! a = Some (recomputed h a v n) →
  (∀ x, x ∉ a :: post → hf !! x = h !! x) →
  heap s = hf → heap (recompute_at s a) = hf.
Proof.
  intros Hlocal Hwf Hc Hn Hv Hfa Hframe Hs. unfold recompute_at. rewrite Hs, Hfa.
  change (kind (recomputed h a v n)) with (kind n).
  rewrite (children_off_chain h hf a n post), Hv by done. cbn [heap].
  rewrite (recomputed_fixed h hf a n v post) by done. by apply insert_id.
Qed.

Lemma assign_again h hf a n v post s :
  reads_subtree_only (validator n) →
  wf_parents (shape h) → chain (shape h) a post → h !! a = Some n →
  hf !! a = Some (recomputed h a v n) →
  (∀ x, x ∉ a :: post → hf !! x = h !! x) →
  heap s = hf → heap (assign_at s a v) = hf.
Proof.
  intros Hlocal Hwf Hc Hn Hfa Hframe Hs. unfold assign_at. rewrite Hs, Hfa. cbn [heap].
  rewrite (recomputed_fixed h hf a n v post) by done. by apply insert_id.
Qed.

Lemma foldl_again l hf :
  (∀ a s, a ∈ l → heap s = hf → heap (recompute_at s a) = hf) →
  ∀ s, heap s = hf → heap (foldl recompute_at s l) = hf.
Proof.
  induction l as [|a l IH]; intros Hstep s Hs; [done|]. cbn [foldl].
  apply IH; [|apply Hstep; [left|done]].
  intros a' s' Ha'. apply Hstep. by right.
Qed.

Lemma walk_again r l s a s2 :
  (∀ f : Fn, reads_subtree_only f) →
  wf_parents (shape (heap s)) →
  chain (shape (heap s)) r l → containers (shape (heap s)) (r :: l) →
  a ∈ r :: l →
  heap s2 = heap (foldl recompute_at s (r :: l)) →
  heap (recompute_at s2 a) = heap (foldl recompute_at s (r :: l)).
Proof.
  intros Hlocal Hwf Hc Hcont Ha.
  pose proof (chain_NoDup _ _ _ Hc) as Hnd.
  apply list_elem_of_split in Ha as (pre & post & Heq).
  assert (chain (shape (heap s)) a post) as Hca.
  { destruct pre as [|r' pre]; cbn in Heq.
    - by injection Heq as -> ->.
    - injection Heq as -> ->. by eapply chain_suffix. }
  rewrite Heq in Hnd, Hcont |- *.
  apply NoDup_app in Hnd as (_ & _ & Hnd). apply NoDup_cons in Hnd as [Ha_post _].
  apply Forall_app in Hcont as [_ Hcont].
  apply containers_cons in Hcont as [(p & k & Ha & Hk) _].
  rewrite foldl_app. cbn [foldl]. set (sa := foldl recompute_at s pre).
  assert (shape (heap sa) = shape (heap s)) as Hsh by apply shape_foldl_recompute_at.
  rewrite <- Hsh in Ha, Hwf, Hca.
  apply shape_lookup in Ha as (n & Hn & _ & <-).
  apply (aggregate_is_container (heap sa)) in Hk as [v Hv].
  apply (recompute_again (heap sa) _ a n v post); [done|done|done|done|done| |].
  - rewrite (foldl_recompute_at_lookup_notin _ _ _ Ha_post).
    by apply recompute_at_lookup_eq.
  - intros x Hx. apply not_elem_of_cons in Hx as [Hxa Hx].
    by rewrite foldl_recompute_at_lookup_notin, recompute_at_lookup_ne.
Qed.

(** A walk that has run runs again from any state with the store it
    left, leaves that store as it is and repeats its emissions. *)
Lemma updateValue_again fuel this s s1 :
  (∀ f : Fn, reads_subtree_only f) → wf_parents (shape (heap s)) →
  Container__updateValue fuel this s = Ok (tt, s1) →
  ∃ evs, emitted s1 = emitted s ++ evs ∧
    ∀ s1', heap s1' = heap s1 →
      ∃ s2, Container__updateValue fuel this s1' = Ok (tt, s2) ∧
            heap s2 = heap s1 ∧ emitted s2 = emitted s1' ++ evs.
Proof.
  intros Hlocal Hwf Hrun.
  apply updateValue_inv in Hrun as (l & Hc & Hcont & Hfuel & ->).
  pose proof (chain_NoDup _ _ _ Hc) as Hnd.
  set (sf := foldl recompute_at s (this :: l)).
  assert (shape (heap sf) = shape (heap s)) as Hsh by apply shape_foldl_recompute_at.
  exists ((λ x, (x, value_of (heap sf) x)) <$> this :: l). split.
  { by apply foldl_recompute_at_emitted. }
  intros s1' Hs1'.
  assert (heap (foldl recompute_at s1' (this :: l)) = heap sf) as Hheap.
  { apply foldl_again; [|done]. intros a s' Ha Hs'. by apply walk_again. }
  exists (foldl recompute_at s1' (this :: l)). split_and!; [|done|].
  - apply updateValue_closed; rewrite ?Hs1', ?Hsh; done.
  - rewrite foldl_recompute_at_emitted, Hheap; [done| |done].
    by rewrite Hs1', Hsh.
Qed.

(** X15. Assigning a leaf the value it was just assigned changes nothing
    in the store and repeats the emissions.  On a tree whose validators
    read nothing but the subtree they are given, after a returning
    [updateValue(value)] a second [updateValue(value)] returns, leaves
    every object as the first call left it, and appends to the emissions
    exactly what the first call appended. *)
Theorem updateValue_twice fuel leaf value s s1 :
  (∀ f : Fn, reads_subtree_only f) → wf_parents (shape (heap s)) →
  Control_updateValue fuel leaf value s = Ok (tt, s1) →
  ∃ s2 evs,
    Control_updateValue fuel leaf value s1 = Ok (tt, s2) ∧
    heap s2 = heap s1 ∧
    emitted s1 = emitted s ++ evs ∧ emitted s2 = emitted s1 ++ evs.
Proof.
  intros Hlocal Hwf Hrun.
  pose proof Hrun as Hinv.
  apply Control_updateValue_inv in Hinv as (n & l & Hn & Hk & Hc & Hcont & Hs1).
  pose proof (chain_NoDup _ _ _ Hc) as Hnd. apply NoDup_cons in Hnd as [Hleaf Hnd].
  assert (heap s1 !! leaf = Some (recomputed (heap s) leaf value n)) as Hn1.
  { rewrite Hs1, (foldl_recompute_at_lookup_notin _ _ _ Hleaf).
    by apply assign_at_lookup_eq. }
  assert (heap (assign_at s1 leaf value) = heap s1) as Hagain.
  { apply (assign_again (heap s) _ leaf n value l); try done.
    intros x Hx. apply not_elem_of_cons in Hx as [Hxl Hx]. rewrite Hs1.
    by rewrite foldl_recompute_at_lookup_notin, assign_at_lookup_ne. }
  rewrite (Control_updateValue_eq _ _ _ _ _ Hn Hk) in Hrun.
  rewrite (Control_updateValue_eq _ _ _ _ _ Hn1 Hk).
  change (_parent (recomputed (heap s) leaf value n)) with (_parent n).
  destruct (_parent n) as [p|] eqn:Hp.
  - destruct (updateValue_again fuel p (assign_at s leaf value) s1 Hlocal)
      as (evs & Hem & Hnext); [by rewrite shape_assign_at|done|].
    destruct (Hnext (assign_at s1 leaf value) Hagain) as (s2 & Hrun2 & Hheap & Hem2).
    exists s2, ((leaf, value) :: evs). split_and!; [done|done| |].
    + rewrite Hem, (assign_at_emitted _ _ _ _ Hn), <- app_assoc. done.
    + rewrite Hem2, (assign_at_emitted _ _ _ _ Hn1), <- app_assoc. done.
  - injection Hrun as <-.
    exists (assign_at (assign_at s leaf value) leaf value), [(leaf, value)].
    split_and!; [done|done| |].
    + exact (assign_at_emitted _ _ _ _ Hn).
    + exact (assign_at_emitted _ _ _ _ (assign_at_lookup_eq _ _ _ _ Hn)).
Qed.

Lemma foldl_revalidate_again l s :
  (∀ a s', a ∈ l → heap s' = heap s → revalidate_at s' a = s') →
  foldl revalidate_at s l = s.
Proof.
  induction l as [|a l IH]; intros Hstep; [done|]. cbn [foldl].
  rewrite (Hstep a s) by (done || left). apply IH.
  intros a' s' Ha'. apply Hstep. by right.
Qed.

Lemma shape_foldl_revalidate_at l s :
  shape (heap (foldl revalidate_at s l)) = shape (heap s).
Proof.
  revert s. induction l as [|a l IH]; intros s; [done|]. cbn [foldl].
  by rewrite IH, shape_revalidate_at.
Qed.

(** X16. [updateValidity()] is idempotent on a tree whose validators
    read nothing but the subtree they are given: called again where a
    first call returned, it returns in the very same state, store and
    emissions. *)
Theorem updateValidity_twice fuel this s s1 :
  (∀ f : Fn, reads_subtree_only f) → wf_parents (shape (heap s)) →
  AbstractControl_updateValidity fuel this s = Ok (tt, s1) →
  AbstractControl_updateValidity fuel this s1 = Ok (tt, s1).
Proof.
  intros Hlocal Hwf Hrun.
  apply updateValidity_inv in Hrun as (l & Hc & Hfuel & ->).
  set (sf := foldl revalidate_at s (this :: l)).
  assert (shape (heap sf) = shape (heap s)) as Hsh by apply shape_foldl_revalidate_at.
  rewrite (updateValidity_closed fuel this l sf) by (by rewrite ?Hsh).
  do 2 f_equal. apply foldl_revalidate_again. intros a s' Ha Hs'.
  pose proof (chain_NoDup _ _ _ Hc) as Hnd.
  apply list_elem_of_split in Ha as (pre & post & Heq).
  assert (chain (shape (heap s)) a post) as Hca.
  { destruct pre as [|r' pre]; cbn in Heq.
    - by injection Heq as -> ->.
    - injection Heq as -> ->. by eapply chain_suffix. }
  assert (is_Some (heap s !! a)) as [n0 Hn0].
  { inversion Hca as [? k Hk | ? p k ? Hk]; subst;
      apply shape_lookup in Hk as (n & Hn & _); by eexists. }
  unfold sf in *. rewrite Heq in Hnd, Hs'.
  apply NoDup_app in Hnd as (_ & _ & Hnd). apply NoDup_cons in Hnd as [Ha_post _].
  rewrite foldl_app in Hs'. cbn [foldl] in Hs'. set (sa := foldl revalidate_at s pre) in *.
  assert (shape (heap sa) = shape (heap s)) as Hsa by apply shape_foldl_revalidate_at.
  rewrite <- Hsa in Hwf, Hca.
  assert (is_Some (heap sa !! a)) as [n Hn].
  { inversion Hca as [? k Hk | ? p k ? Hk]; subst;
      apply shape_lookup in Hk as (n & Hn & _); by eexists. }
  assert (heap s' !! a = Some (validated (heap sa) a n)) as Hfa.
  { rewrite Hs', (foldl_revalidate_at_lookup_notin _ _ _ Ha_post).
    by apply revalidate_at_lookup_eq. }
  unfold revalidate_at. rewrite Hfa.
  rewrite (validated_fixed (heap sa) (heap s') a n post); try done.
  - rewrite insert_id by done. by destruct s'.
  - intros x Hx. apply not_elem_of_cons in Hx as [Hxa Hx]. rewrite Hs'.
    by rewrite foldl_revalidate_at_lookup_notin, revalidate_at_lookup_ne.
Qed.

Lemma wf_restructured_sub s this n k :
  heap s !! this = Some n → wf_parents (shape (heap s)) →
  (∀ x, x ∈ children k → fst <$> shape (heap s) !! x = Some (Some this)) →
  wf_parents (shape (heap (restructured s this n k))).
Proof.
  intros Hn Hwf Hk q [p kq] Hq. cbn [snd].
  assert (∀ x, fst <$> shape (heap (restructured s this n k)) !! x
               = fst <$> shape (heap s) !! x) as Hfst.
  { intros x. destruct (decide (x = this)) as [->|Hne].
    - by rewrite shape_restructured_eq, (shape_lookup_node _ _ _ Hn).
    - by rewrite shape_restructured_ne. }
  apply Forall_forall. intros x Hx. rewrite Hfst.
  destruct (decide (q = this)) as [->|Hne].
  - rewrite shape_restructured_eq in Hq. injection Hq as <- <-. by apply Hk.
  - rewrite shape_restructured_ne in Hq by done.
    pose proof (Hwf q _ Hq) as Hall. cbn [snd] in Hall.
    by eapply Forall_forall in Hall.
Qed.

Lemma wf_children sh q p k x :
  wf_parents sh → sh !! q = Some (p, k) → x ∈ children k →
  fst <$> sh !! x = Some (Some q).
Proof.
  intros Hwf Hq Hx. pose proof (Hwf q _ Hq) as Hall. cbn [snd] in Hall.
  by eapply Forall_forall in Hall.
Qed.

Lemma restructured_same s this n :
  heap s !! this = Some n → restructured s this n (kind n) = s.
Proof.
  intros Hn. unfold restructured.
  assert (set_kind (kind n) n = n) as -> by by destruct n.
  rewrite insert_id by done. by destruct s.
Qed.

Lemma flag_twice fuel this b name s n controls _optionals s1 :
  (∀ f : Fn, reads_subtree_only f) → wf_parents (shape (heap s)) →
  heap s !! this = Some n → kind n = KControlGroup controls _optionals →
  Container__updateValue fuel this
    (restructured s this n (KControlGroup controls (<[name := b]> _optionals)))
    = Ok (tt, s1) →
  ∃ n1 s2 evs,
    heap s1 !! this = Some n1 ∧
    kind n1 = KControlGroup controls (<[name := b]> _optionals) ∧
    Container__updateValue fuel this
      (restructured s1 this n1
         (KControlGroup controls (<[name := b]> (<[name := b]> _optionals))))
      = Ok (tt, s2) ∧
    heap s2 = heap s1 ∧
    emitted s1 = emitted s ++ evs ∧ emitted s2 = emitted s1 ++ evs.
Proof.
  intros Hlocal Hwf Hn Hk Hrun.
  set (s0 := restructured s this n (KControlGroup controls (<[name := b]> _optionals))) in *.
  assert (wf_parents (shape (heap s0))) as Hwf0.
  { apply wf_restructured_sub; [done|done|]. intros x Hx.
    apply (wf_children _ this (_parent n) (kind n)); [done|by apply shape_lookup_node|].
    by rewrite Hk. }
  destruct (updateValue_again fuel this s0 s1 Hlocal Hwf0 Hrun) as (evs & Hem & Hnext).
  apply updateValue_self in Hrun as (n0 & v & l & Hn0 & _ & _ & _ & _ & Hn1 & _).
  assert (n0 = set_kind (KControlGroup controls (<[name := b]> _optionals)) n) as ->.
  { unfold s0, restructured in Hn0. cbn in Hn0. rewrite lookup_insert_eq in Hn0. congruence. }
  destruct (Hnext s1 eq_refl) as (s2 & Hrun2 & Hheap & Hem2).
  eexists _, s2, evs. split_and!; [exact Hn1|done| |done|done|done].
  rewrite insert_insert_eq.
  pose proof (restructured_same s1 this _ Hn1) as Hsame.
  cbn [kind recomputed validated set_pristine set_status set_errors set_value set_kind]
    in Hsame.
  by rewrite Hsame.
Qed.

(** X17. [include(name)] and [exclude(name)] are idempotent on the
    store.  On a tree whose validators read nothing but the subtree they
    are given, after a returning [include(name)] a second
    [include(name)] returns, leaves every object as the first call left
    it and appends to the emissions exactly what the first call
    appended; and so for [exclude(name)]. *)
Theorem include_exclude_twice fuel this name s s1 :
  (∀ f : Fn, reads_subtree_only f) → wf_parents (shape (heap s)) →
  (ControlGroup_include fuel this name s = Ok (tt, s1) →
   ∃ s2 evs, ControlGroup_include fuel this name s1 = Ok (tt, s2) ∧
             heap s2 = heap s1 ∧
             emitted s1 = emitted s ++ evs ∧ emitted s2 = emitted s1 ++ evs) ∧
  (ControlGroup_exclude fuel this name s = Ok (tt, s1) →
   ∃ s2 evs, ControlGroup_exclude fuel this name s1 = Ok (tt, s2) ∧
             heap s2 = heap s1 ∧
             emitted s1 = emitted s ++ evs ∧ emitted s2 = emitted s1 ++ evs).
Proof.
  intros Hlocal Hwf. split; intros Hrun.
  - apply ControlGroup_include_inv in Hrun as (n & cs & opt & Hn & Hk & Hrun).
    destruct (flag_twice fuel this true name s n cs opt s1 Hlocal Hwf Hn Hk Hrun)
      as (n1 & s2 & evs & Hn1 & Hk1 & Hrun2 & Hheap & Hem & Hem2).
    exists s2, evs. by rewrite (ControlGroup_include_eq _ _ _ _ _ _ _ Hn1 Hk1).
  - apply ControlGroup_exclude_inv in Hrun as (n & cs & opt & Hn & Hk & Hrun).
    destruct (flag_twice fuel this false name s n cs opt s1 Hlocal Hwf Hn Hk Hrun)
      as (n1 & s2 & evs & Hn1 & Hk1 & Hrun2 & Hheap & Hem & Hem2).
    exists s2, evs. by rewrite (ControlGroup_exclude_eq _ _ _ _ _ _ _ Hn1 Hk1).
Qed.
End Again.

Lemma updateValue_twice_witness :
  ∃ s1 s2, Control_updateValue 2 0 (JNum 5) three_levels = Ok (tt, s1) ∧
           Control_updateValue 2 0 (JNum 5) s1 = Ok (tt, s2) ∧
           heap s2 = heap s1.
Proof.
  destruct (Control_updateValue 2 0 (JNum 5) three_levels) as [[[] s1]| |] eqn:Hrun;
    [|exfalso; vm_compute in Hrun; discriminate..].
  destruct (updateValue_twice 2 0 (JNum 5) three_levels s1
              TestFn_reads_subtree_only three_levels_wf Hrun)
    as (s2 & evs & Hrun2 & Hheap & _).
  exists s1, s2. split; [reflexivity|]. split; [exact Hrun2 | exact Hheap].
Defined.

Lemma updateValidity_twice_witness :
  ∃ s1, AbstractControl_updateValidity 3 0 three_levels = Ok (tt, s1) ∧
        AbstractControl_updateValidity 3 0 s1 = Ok (tt, s1).
Proof.
  destruct (AbstractControl_updateValidity 3 0 three_levels) as [[[] s1]| |] eqn:Hrun;
    [|exfalso; vm_compute in Hrun; discriminate..].
  exists s1. split; [reflexivity|].
  exact (updateValidity_twice 3 0 three_levels s1
           TestFn_reads_subtree_only three_levels_wf Hrun).
Defined.

Lemma include_exclude_twice_witness :
  ∃ s1 s2, ControlGroup_exclude 1 2 "b" scenario_B = Ok (tt, s1) ∧
           ControlGroup_exclude 1 2 "b" s1 = Ok (tt, s2) ∧
           heap s2 = heap s1.
Proof.
  destruct (ControlGroup_exclude 1 2 "b" scenario_B) as [[[] s1]| |] eqn:Hrun;
    [|exfalso; vm_compute in Hrun; discriminate..].
  destruct (proj2 (include_exclude_twice 1 2 "b" scenario_B s1
                     TestFn_reads_subtree_only scenario_B_wf) Hrun)
    as (s2 & evs & Hrun2 & Hheap & _).
  exists s1, s2. split; [reflexivity|]. split; [exact Hrun2 | exact Hheap].
Defined.

(** ** Parent links the code does not set, and parent links that mislead *)

Section ParentLinks.
Context {Fn : Type} `{!Callable Fn}.
Implicit Types (h : gmap nat (Node Fn)) (s : State Fn).

Lemma ControlGroup_addControl_eq this name c s n controls _optionals :
  heap s !! this = Some n → kind n = KControlGroup controls _optionals →
  ControlGroup_addControl this name c s
  = Ok (tt, restructured s this n (KControlGroup (<[name := c]> controls) _optionals)).
Proof.
  intros Hn Hk. unfold ControlGroup_addControl, as_ControlGroup.
  rewrite !run_bind, (run_get_node _ _ _ Hn), Hk. cbn.
  by rewrite (run_update_node _ _ _ _ Hn).
Qed.

(** X18. [addControl] stores the child and does not make the group its
    parent.  For a leaf without parent added to a group: its
    [updateValue] returns with one emission and the group keeps the
    value, status, errors and pristine flag it had; with
    [child.setParent(group)] in between, a returning [updateValue]
    leaves the group dirty, with the new value under the child's name
    when the name is included, and the group emits after the child. *)
Theorem addControl_needs_setParent fuel this name c value s n nc controls _optionals :
  heap s !! this = Some n → kind n = KControlGroup controls _optionals →
  heap s !! c = Some nc → kind nc = KControl → _parent nc = None →
  (∃ s', run_ops fuel [AddControl this name c; UpdateValue c value] s = Ok (tt, s') ∧
         heap s' !! this
           = Some (set_kind (KControlGroup (<[name := c]> controls) _optionals) n) ∧
         emitted s' = emitted s ++ [(c, value)]) ∧
  (∀ s', run_ops fuel [AddControl this name c; SetParent c this; UpdateValue c value] s
           = Ok (tt, s') →
     ∃ n' evs,
       heap s' !! this = Some n' ∧ _pristine n' = false ∧
       obj_fields (_value n') !! name
         = (if ControlGroup__included _optionals name then Some value else None) ∧
       emitted s' = emitted s ++ (c, value) :: (this, _value n') :: evs).
Proof.
  intros Hn Hk Hnc Hkc Hpc.
  assert (c ≠ this) as Hne by (intros ->; congruence).
  set (k' := KControlGroup (<[name := c]> controls) _optionals).
  set (s1 := restructured s this n k').
  assert (heap s1 !! c = Some nc) as Hc1.
  { unfold s1, restructured. cbn. by rewrite lookup_insert_ne. }
  assert (heap s1 !! this = Some (set_kind k' n)) as Ht1 by apply lookup_insert_eq.
  split.
  - exists (assign_at s1 c value). split_and!.
    + cbn [run_ops run_op]. rewrite run_bind.
      rewrite (ControlGroup_addControl_eq _ _ _ _ _ _ _ Hn Hk). fold k' s1.
      rewrite run_bind, (Control_updateValue_eq _ _ _ _ _ Hc1 Hkc), Hpc. done.
    + by rewrite assign_at_lookup_ne.
    + by rewrite (assign_at_emitted _ _ _ _ Hc1).
  - intros s' Hrun. cbn [run_ops run_op] in Hrun. rewrite run_bind in Hrun.
    rewrite (ControlGroup_addControl_eq _ _ _ _ _ _ _ Hn Hk) in Hrun. fold k' s1 in Hrun.
    rewrite run_bind in Hrun. unfold AbstractControl_setParent in Hrun.
    rewrite (run_update_node _ _ _ _ Hc1) in Hrun.
    set (s2 := mkState (<[c := set_parent (Some this) nc]> (heap s1)) (emitted s1)) in Hrun.
    assert (heap s2 !! c = Some (set_parent (Some this) nc)) as Hc2
      by apply lookup_insert_eq.
    rewrite run_bind, (Control_updateValue_eq _ _ _ _ _ Hc2 Hkc) in Hrun.
    cbn [_parent set_parent] in Hrun.
    set (s3 := assign_at s2 c value) in Hrun.
    destruct (Container__updateValue fuel this s3) as [[[] sf]| |] eqn:Hwalk;
      [|discriminate Hrun..].
    injection Hrun as <-.
    apply updateValue_self in Hwalk
      as (n3 & v3 & l & Hn3 & Hv3 & _ & _ & _ & Hnf & _ & Hem).
    assert (n3 = set_kind k' n) as ->.
    { unfold s3 in Hn3. rewrite assign_at_lookup_ne in Hn3 by done.
      unfold s2 in Hn3. cbn [heap] in Hn3. rewrite lookup_insert_ne in Hn3 by done.
      congruence. }
    cbn in Hv3. injection Hv3 as <-.
    eexists _, _. split_and!; [exact Hnf|done| |].
    + change (_value (recomputed ?h ?r ?v ?m)) with v.
      rewrite ControlGroup__reduceValue_lookup, lookup_insert_eq.
      destruct (ControlGroup__included _optionals name); [|done].
      f_equal. unfold value_of, s3. by rewrite (assign_at_lookup_eq _ _ _ _ Hc2).
    + rewrite Hem. unfold s3. rewrite (assign_at_emitted _ _ _ _ Hc2).
      rewrite <- app_assoc. done.
Qed.

Lemma updateValidity_no_raise fuel this s :
  (∀ x p k, shape (heap s) !! x = Some (Some p, k) → is_Some (shape (heap s) !! p)) →
  is_Some (shape (heap s) !! this) →
  ∀ e, AbstractControl_updateValidity fuel this s ≠ Raise e.
Proof.
  revert this s. induction fuel as [|fuel IH]; intros this s Hclosed [[p k] Hthis] e;
    [done|].
  pose proof Hthis as Hsh. apply shape_lookup in Hthis as (n & Hn & Hp & Hk).
  rewrite (AbstractControl_updateValidity_S _ _ _ _ Hn), Hp.
  destruct p as [p|]; [|done].
  apply IH; rewrite shape_revalidate_at; [done|]. by eapply Hclosed.
Qed.

(** X19. Whether [updateValidity()] returns is decided by the parent
    links alone.  On a store where every parent link points to an
    object, a call on an object never raises; it returns, given fuel,
    exactly when following [_parent] from the receiver ends at an object
    without parent; and when the links run into a cycle (which
    [setParent] allows) the call does not return, whatever the fuel. *)
Theorem updateValidity_returns_iff_chain_ends this s :
  (∀ x n p, heap s !! x = Some n → _parent n = Some p → is_Some (heap s !! p)) →
  is_Some (heap s !! this) →
  (∀ fuel e, AbstractControl_updateValidity fuel this s ≠ Raise e) ∧
  ((∃ fuel s', AbstractControl_updateValidity fuel this s = Ok (tt, s'))
     ↔ ∃ l, chain (shape (heap s)) this l) ∧
  ((∀ l, ¬ chain (shape (heap s)) this l) →
     ∀ fuel, AbstractControl_updateValidity fuel this s = OutOfFuel).
Proof.
  intros Hclosed [n Hn].
  assert (∀ fuel e, AbstractControl_updateValidity fuel this s ≠ Raise e) as Hno.
  { intros fuel e. apply updateValidity_no_raise.
    - intros x p k Hx. apply shape_lookup in Hx as (nx & Hnx & Hp & _).
      destruct (Hclosed _ _ _ Hnx Hp) as [np Hnp].
      exists (_parent np, kind np). by apply shape_lookup_node.
    - exists (_parent n, kind n). by apply shape_lookup_node. }
  split_and!; [done| |].
  - split.
    + intros (fuel & s' & Hrun).
      apply updateValidity_inv in Hrun as (l & Hc & _). by exists l.
    + intros [l Hc]. exists (S (length l)), (foldl revalidate_at s (this :: l)).
      apply updateValidity_closed; [done|lia].
  - intros Hcyc fuel.
    destruct (AbstractControl_updateValidity fuel this s) as [[[] s']|e|] eqn:Hrun;
      [| |done].
    + apply updateValidity_inv in Hrun as (l & Hc & _). by destruct (Hcyc l).
    + by destruct (Hno fuel e).
Qed.

Lemma walk_hits_leaf x px post pre r rest fuel s :
  r :: rest = pre ++ x :: post →
  chain (shape (heap s)) r rest → containers (shape (heap s)) pre →
  shape (heap s) !! x = Some (px, KControl) → length pre < fuel →
  Container__updateValue fuel r s = Raise TypeError.
Proof.
  revert r rest fuel s.
  induction pre as [|a pre IH]; intros r rest fuel s Heq Hc Hcont Hx Hfuel;
    (destruct fuel as [|fuel]; [cbn in Hfuel; lia|]).
  - cbn in Heq. injection Heq as -> ->.
    apply shape_lookup in Hx as (n & Hn & _ & Hk).
    by apply (Container__updateValue_Control _ _ _ n).
  - cbn in Heq. injection Heq as -> ->.
    apply containers_cons in Hcont as [(p & k & Ha & Hk) Hcont].
    pose proof Ha as Ha'. apply shape_lookup in Ha' as (n & Hn & Hp & <-).
    apply (aggregate_is_container (heap s)) in Hk as [v Hv].
    rewrite (Container__updateValue_S _ _ _ _ _ Hn Hv).
    inversion Hc as [? k0 Hr | ? p0 k0 rest0 Hr Hc' Hl]; subst.
    + by destruct pre.
    + assert (_parent n = Some p0) as -> by congruence.
      apply (IH p0 rest0); rewrite ?shape_recompute_at; try done.
      cbn in Hfuel. lia.
Qed.

(** X20. A parent that is no container stops the propagation with a
    [TypeError].  [setParent] accepts any object; when the parent chain
    of a leaf passes through containers and then reaches a [Control],
    which has no [_updateValue], [updateValue] on the leaf raises. *)
Theorem updateValue_parent_not_container fuel leaf value s n pre x px post :
  heap s !! leaf = Some n → kind n = KControl →
  chain (shape (heap s)) leaf (pre ++ x :: post) →
  containers (shape (heap s)) pre →
  shape (heap s) !! x = Some (px, KControl) → length pre < fuel →
  Control_updateValue fuel leaf value s = Raise TypeError.
Proof.
  intros Hn Hk Hc Hcont Hx Hfuel.
  rewrite (Control_updateValue_eq _ _ _ _ _ Hn Hk).
  inversion Hc as [? k0 Hr Hl | ? p0 k0 rest0 Hr Hc' Hl]; subst.
  - by destruct pre.
  - apply shape_lookup in Hr as (n' & Hn' & Hp & _).
    assert (n' = n) as -> by congruence. rewrite Hp.
    apply (walk_hits_leaf x px post pre p0 rest0); rewrite ?shape_assign_at; done.
Qed.
End ParentLinks.

Lemma addControl_needs_setParent_witness :
  ∃ s', run_ops 1 [AddControl 2 "c" 3; UpdateValue 3 (JNum 4)] scenario_B_extra
          = Ok (tt, s') ∧
        emitted s' = emitted scenario_B_extra ++ [(3, JNum 4)].
Proof.
  assert (heap scenario_B_extra !! 2
          = Some (mkNode (JObj {[ "a" := JNum 1; "b" := JNull ]}) (Some INVALID)
                         (Some {[ "invalid" := JBool true ]}) true None any_child_invalid
                         (KControlGroup {[ "a" := 0; "b" := 1 ]} ∅))) as H2
    by solve_lookup.
  assert (heap scenario_B_extra !! 3
          = Some (mkNode (JNum 9) (Some VALID) None true None accept_all KControl)) as H3
    by solve_lookup.
  destruct (addControl_needs_setParent 1 2 "c" 3 (JNum 4) scenario_B_extra _ _ _ _
              H2 eq_refl H3 eq_refl eq_refl) as [(s' & Hrun & _ & Hem) _].
  exists s'. split; [exact Hrun | exact Hem].
Defined.

Lemma updateValidity_returns_iff_chain_ends_witness :
  ∃ fuel s', AbstractControl_updateValidity fuel 0 three_levels = Ok (tt, s').
Proof.
  assert (map_Forall (λ _ n, ∀ p, _parent n = Some p → is_Some (heap three_levels !! p))
                     (heap three_levels)) as Hall.
  { apply map_Forall_to_list.
    match goal with
    | |- Forall _ ?l => let L := fresh "L" in set (L := l); vm_compute in L; subst L
    end.
    repeat (apply Forall_cons; split;
            [hnf; intros p Hp; vm_compute in Hp;
             first [discriminate Hp
                   | injection Hp as <-; vm_compute; eexists; reflexivity]|]).
    apply Forall_nil_2. }
  assert (is_Some (heap three_levels !! 0)) as H0 by (vm_compute; by eexists).
  destruct (updateValidity_returns_iff_chain_ends 0 three_levels) as (_ & Hiff & _);
    [|exact H0|].
  { intros x n p Hx Hp. exact (Hall x n Hx p Hp). }
  apply Hiff. exists [1; 2]. exact three_levels_chain.
Defined.

Lemma updateValue_parent_not_container_witness :
  ∃ s, run_op 1 (SetParent 3 0) scenario_B_extra = Ok (tt, s) ∧
       Control_updateValue 1 3 (JNum 1) s = Raise TypeError.
Proof.
  destruct (run_op 1 (SetParent 3 0) scenario_B_extra) as [[[] s]| |] eqn:Hrun;
    [|exfalso; vm_compute in Hrun; discriminate..].
  exists s. split; [reflexivity|].
  vm_compute in Hrun. injection Hrun as <-.
  apply (updateValue_parent_not_container 1 3 (JNum 1) _
           (mkNode (JNum 9) (Some VALID) None true (Some 0) accept_all KControl)
           [] 0 (Some 2) [2]); [solve_lookup|reflexivity| |apply Forall_nil_2|solve_lookup|cbn; lia].
  apply (chain_step _ 3 0 KControl); [solve_lookup|].
  apply (chain_step _ 0 2 KControl); [solve_lookup|].
  apply (chain_root _ 2 (KControlGroup {[ "a" := 0; "b" := 1 ]} ∅)). solve_lookup.
Defined.

(** ** Operations that keep a tree a tree *)

Section KeepsTree.
Context {Fn : Type} `{!Callable Fn}.
Implicit Types (h : gmap nat (Node Fn)) (s : State Fn).

Lemma wf_adopt s this n k c nc :
  heap s !! this = Some n → wf_parents (shape (heap s)) →
  heap (restructured s this n k) !! c = Some nc →
  (∀ q, holds (shape (heap s)) q c → q = this) →
  (∀ x, x ∈ children k → x = c ∨ x ∈ children (kind n)) →
  wf_parents (shape (heap (reparented (restructured s this n k) c this nc))).
Proof.
  intros Hn Hwf Hc Honly Hk.
  set (s2 := reparented (restructured s this n k) c this nc).
  assert (∀ q nq, heap s2 !! q = Some nq →
            (q = this ∧ kind nq = k) ∨
            (q ≠ this ∧ ∃ nq0, heap s !! q = Some nq0 ∧ kind nq = kind nq0)) as Hkind.
  { intros q nq Hq. unfold s2, reparented, restructured in Hq, Hc. cbn [heap] in Hq, Hc.
    destruct (decide (q = c)) as [->|Hqc].
    - rewrite lookup_insert_eq in Hq. injection Hq as <-.
      destruct (decide (c = this)) as [->|Hct].
      + left. rewrite lookup_insert_eq in Hc. injection Hc as <-. done.
      + right. rewrite lookup_insert_ne in Hc by done. split; [done|]. by exists nc.
    - rewrite lookup_insert_ne in Hq by done.
      destruct (decide (q = this)) as [->|Hqt].
      + left. rewrite lookup_insert_eq in Hq. injection Hq as <-. done.
      + right. rewrite lookup_insert_ne in Hq by done. split; [done|]. by exists nq. }
  assert (∀ x, x ≠ c → fst <$> shape (heap s2) !! x = fst <$> shape (heap s) !! x)
    as Hparent.
  { intros x Hxc. unfold s2, reparented, restructured, shape. cbn [heap].
    rewrite !lookup_fmap, lookup_insert_ne by done.
    destruct (decide (x = this)) as [->|Hxt].
    - by rewrite lookup_insert_eq, Hn.
    - by rewrite lookup_insert_ne. }
  assert (fst <$> shape (heap s2) !! c = Some (Some this)) as Hpc.
  { unfold s2, reparented, shape. cbn [heap]. by rewrite lookup_fmap, lookup_insert_eq. }
  intros q [p kq] Hq. cbn [snd]. apply Forall_forall. intros x Hx.
  apply shape_lookup in Hq as (nq & Hnq & _ & <-).
  destruct (Hkind _ _ Hnq) as [[-> Hkq] | [Hqt (nq0 & Hnq0 & Hkq)]]; rewrite Hkq in Hx.
  - destruct (Hk _ Hx) as [->|Hold]; [done|].
    destruct (decide (x = c)) as [->|Hxc]; [done|]. rewrite (Hparent _ Hxc).
    by apply (wf_children _ this (_parent n) (kind n)); [|apply shape_lookup_node|].
  - assert (holds (shape (heap s)) q x) as Hh.
    { exists (_parent nq0), (kind nq0). split; [by apply shape_lookup_node|done]. }
    destruct (decide (x = c)) as [->|Hxc]; [by destruct (Hqt (Honly _ Hh))|].
    rewrite (Hparent _ Hxc).
    by apply (wf_children _ q (_parent nq0) (kind nq0)); [|apply shape_lookup_node|].
Qed.

Lemma walk_keeps_tree fuel this s s' :
  wf_parents (shape (heap s)) →
  Container__updateValue fuel this s = Ok (tt, s') →
  wf_parents (shape (heap s')).
Proof.
  intros Hwf Hrun.
  apply updateValue_self in Hrun as (n & v & l & _ & _ & _ & _ & _ & _ & Hsh & _).
  by rewrite Hsh.
Qed.

(** X21. A tree stays a tree.  On a store where every child a container
    holds has that container as parent, each operation that returns
    leaves such a store again, provided a constructor is given children
    without parent, [push] and [insert] a child that no other container
    holds, and [addControl] a child whose parent is the group already;
    [removeControl], [removeAt], [include], [exclude], [updateValue],
    [updateValidity] and the value setter need nothing. *)
Theorem operations_keep_tree fuel (op : Op Fn) s s' :
  wf_parents (shape (heap s)) → keeps_tree (heap s) op →
  run_op fuel op s = Ok (tt, s') →
  wf_parents (shape (heap s')).
Proof.
  intros Hwf Hok Hrun.
  destruct op as [value f|controls optionals f|controls f|this v|this parent|this
    |this value|this name c|this name|this name|this name|this c|this index c|this index];
    cbn [run_op keeps_tree] in Hok, Hrun.
  - destruct (new_Control_tree value f s Hwf) as (r & s1 & Hnew & Hwf1 & _).
    rewrite run_bind, Hnew in Hrun. by injection Hrun as <-.
  - assert ((if isPresent optionals then default ∅ optionals else ∅)
            = default ∅ optionals) as Hopt by by destruct optionals.
    unfold new_ControlGroup in Hrun. rewrite Hopt in Hrun.
    assert (∀ c, c ∈ children (KControlGroup controls (default ∅ optionals)) →
              ∃ nc, heap s !! c = Some nc ∧ _parent nc = None) as Hroots.
    { intros c Hc. apply elem_of_children_group in Hc as [name Hc]. by eapply Hok. }
    destruct (construct_result (KControlGroup controls (default ∅ optionals)) f s)
      as (r & s1 & v & Hnew & Hr & _ & Hv & Hnode & Hother); [done| |].
    { intros c Hc. destruct (Hroots _ Hc) as (nc & Hnc & _). by eexists. }
    rewrite run_bind, Hnew in Hrun. injection Hrun as <-.
    by destruct (construct_tree _ f s r s1 v Hwf Hroots Hr Hv Hnode Hother).
  - destruct (construct_result (KControlArray controls) f s)
      as (r & s1 & v & Hnew & Hr & _ & Hv & Hnode & Hother); [done| |].
    { intros c Hc. destruct (Hok _ Hc) as (nc & Hnc & _). by eexists. }
    unfold new_ControlArray in Hrun. rewrite run_bind, Hnew in Hrun.
    injection Hrun as <-.
    by destruct (construct_tree (KControlArray controls) f s r s1 v
                   Hwf Hok Hr Hv Hnode Hother).
  - unfold AbstractControl_set_value, update_node in Hrun.
    destruct (heap s !! this) as [n|] eqn:Hn; [|discriminate Hrun].
    injection Hrun as <-. cbn [heap]. by rewrite (shape_insert _ _ n).
  - done.
  - apply updateValidity_inv in Hrun as (l & _ & _ & ->).
    by rewrite shape_foldl_revalidate_at.
  - apply Control_updateValue_inv in Hrun as (n & l & _ & _ & _ & _ & ->).
    by rewrite shape_foldl_recompute_at, shape_assign_at.
  - apply ControlGroup_addControl_inv in Hrun as (n & cs & opt & Hn & Hk & ->).
    destruct Hok as (nc & Hnc & Hpc).
    apply wf_restructured_sub; [done|done|]. intros x Hx.
    apply elem_of_children_group in Hx as [name' Hx].
    destruct (decide (name' = name)) as [->|Hne].
    + rewrite lookup_insert_eq in Hx. injection Hx as <-.
      by rewrite (shape_lookup_node _ _ _ Hnc), <- Hpc.
    + rewrite lookup_insert_ne in Hx by done.
      apply (wf_children _ this (_parent n) (kind n)); [done|by apply shape_lookup_node|].
      rewrite Hk. apply elem_of_children_group. by exists name'.
  - apply ControlGroup_removeControl_inv in Hrun as (n & cs & opt & Hn & Hk & ->).
    apply wf_restructured_sub; [done|done|]. intros x Hx.
    apply elem_of_children_group in Hx as [name' Hx].
    apply lookup_delete_Some in Hx as [_ Hx].
    apply (wf_children _ this (_parent n) (kind n)); [done|by apply shape_lookup_node|].
    rewrite Hk. apply elem_of_children_group. by exists name'.
  - apply ControlGroup_include_inv in Hrun as (n & cs & opt & Hn & Hk & Hrun).
    eapply walk_keeps_tree; [|exact Hrun].
    apply wf_restructured_sub; [done|done|]. intros x Hx.
    apply (wf_children _ this (_parent n) (kind n)); [done|by apply shape_lookup_node|].
    by rewrite Hk.
  - apply ControlGroup_exclude_inv in Hrun as (n & cs & opt & Hn & Hk & Hrun).
    eapply walk_keeps_tree; [|exact Hrun].
    apply wf_restructured_sub; [done|done|]. intros x Hx.
    apply (wf_children _ this (_parent n) (kind n)); [done|by apply shape_lookup_node|].
    by rewrite Hk.
  - apply ControlArray_push_inv in Hrun as (n & cs & nc & Hn & Hk & Hc & Hrun).
    eapply walk_keeps_tree; [|exact Hrun].
    apply wf_adopt; [done|done|done|done|].
    intros x Hx. rewrite Hk. cbn in Hx |- *.
    apply elem_of_app in Hx as [Hx|Hx]; [by right|].
    left. by apply list_elem_of_singleton in Hx.
  - apply ControlArray_insert_inv in Hrun as (n & cs & nc & Hn & Hk & _ & Hc & Hrun).
    eapply walk_keeps_tree; [|exact Hrun].
    apply wf_adopt; [done|done|done|done|].
    intros x Hx. rewrite Hk. cbn in Hx |- *.
    apply elem_of_app in Hx as [Hx|Hx].
    + right. by eapply subseteq_take.
    + apply elem_of_cons in Hx as [->|Hx]; [by left|]. right. by eapply subseteq_drop.
  - apply ControlArray_removeAt_inv in Hrun as (n & cs & Hn & Hk & _ & Hrun).
    eapply walk_keeps_tree; [|exact Hrun].
    apply wf_restructured_sub; [done|done|]. intros x Hx.
    apply (wf_children _ this (_parent n) (kind n)); [done|by apply shape_lookup_node|].
    rewrite Hk. cbn in Hx |- *. by eapply list_elem_of_delete_inv.
Qed.
End KeepsTree.

Lemma operations_keep_tree_witness :
  ∃ s', run_op 1 (Push 2 3) scenario_D = Ok (tt, s') ∧ wf_parents (shape (heap s')).
Proof.
  destruct (run_op 1 (Push 2 3) scenario_D) as [[[] s']| |] eqn:Hrun;
    [|exfalso; vm_compute in Hrun; discriminate..].
  exists s'. split; [reflexivity|].
  assert (wf_parents (shape (heap scenario_D))) as Hwf.
  { apply (bool_decide_unpack _). vm_compute. exact I. }
  apply (operations_keep_tree 1 (Push 2 3) scenario_D s' Hwf); [|exact Hrun].
  intros q (p & k & Hq & Hin).
  destruct (decide (q = 2)) as [|Hne]; [done|]. exfalso.
  assert (map_Forall (λ q pk, q ≠ 2 → 3 ∉ children pk.2) (shape (heap scenario_D)))
    as Hall.
  { apply map_Forall_to_list.
    match goal with
    | |- Forall _ ?l => let L := fresh "L" in set (L := l); vm_compute in L; subst L
    end.
    repeat (apply Forall_cons; split;
            [hnf; intros Hq2 Hin3; cbn [children snd] in Hin3;
             first [exfalso; apply Hq2; reflexivity
                   | apply elem_of_nil in Hin3; exact Hin3]|]).
    apply Forall_nil_2. }
  exact (Hall q (p, k) Hq Hne Hin).
Defined.

(** ** The children of an indexed container *)

Section ArrayChildren.
Context {Fn : Type} `{!Callable Fn}.
Implicit Types (h : gmap nat (Node Fn)) (s : State Fn).

Lemma array_at_length h this n controls :
  h !! this = Some n → kind n = KControlArray controls →
  ControlArray_length h this = Some (length controls) ∧
  (∀ i : nat, ControlArray_at h this (Z.of_nat i) = controls !! i) ∧
  (∀ z, ControlArray_at h this z
        = if bool_decide (0 ≤ z)%Z then controls !! Z.to_nat z else None).
Proof.
  intros Hn Hk. unfold ControlArray_length, ControlArray_at. rewrite Hn. cbn.
  rewrite Hk. split_and!; [done| |done].
  intros i. rewrite bool_decide_eq_true_2 by lia. by rewrite Nat2Z.id.
Qed.

(** The list a returning [_updateValue] leaves at its receiver is the
    list it found there. *)
Lemma array_after_walk fuel this s1 s' n1 controls' :
  heap s1 !! this = Some n1 → kind n1 = KControlArray controls' →
  Container__updateValue fuel this s1 = Ok (tt, s') →
  ∃ n', heap s' !! this = Some n' ∧ kind n' = KControlArray controls' ∧
        _pristine n' = false ∧
        _value n' = JArr (value_of (heap s1) <$> controls') ∧
        shape (heap s') = shape (heap s1) ∧
        ∃ evs, emitted s' = emitted s1 ++ (this, _value n') :: evs.
Proof.
  intros Hn1 Hk1 Hrun.
  apply updateValue_self in Hrun as (n & v & l & Hn & Hv & _ & _ & _ & Hself & Hsh & Hem).
  assert (n = n1) as -> by congruence. rewrite Hk1 in Hv. cbn in Hv. injection Hv as <-.
  eexists. split; [exact Hself|]. split_and!; try done. by eexists.
Qed.

Lemma reparented_array this c s n nc controls' :
  heap s !! this = Some n →
  heap (restructured s this n (KControlArray controls')) !! c = Some nc →
  ∃ n1, heap (reparented (restructured s this n (KControlArray controls')) c this nc)
          !! this = Some n1 ∧ kind n1 = KControlArray controls'.
Proof.
  intros Hn Hc. cbn in Hc |- *. destruct (decide (c = this)) as [->|Hne].
  - rewrite lookup_insert_eq in Hc |- *. injection Hc as <-. by eexists.
  - rewrite lookup_insert_ne, lookup_insert_eq by done. by eexists.
Qed.

Lemma insert_lookup {A} (l : list A) (i0 : nat) (v : A) :
  i0 ≤ length l →
  length (take i0 l ++ v :: drop i0 l) = S (length l) ∧
  (take i0 l ++ v :: drop i0 l) !! i0 = Some v ∧
  (∀ i : nat, i < i0 → (take i0 l ++ v :: drop i0 l) !! i = l !! i) ∧
  (∀ i : nat, i0 ≤ i → (take i0 l ++ v :: drop i0 l) !! S i = l !! i).
Proof.
  intros Hi0.
  assert (length (take i0 l) = i0) as Hlen by by apply length_take_le.
  split_and!.
  - rewrite length_app, Hlen. cbn. rewrite length_drop. lia.
  - by apply list_lookup_middle.
  - intros i Hi. rewrite lookup_app_l by lia. apply lookup_take_lt. lia.
  - intros i Hi. rewrite lookup_app_r by lia. rewrite Hlen.
    replace (S i - i0) with (S (i - i0)) by lia.
    rewrite lookup_cons, lookup_drop. f_equal. lia.
Qed.

(** X6. On an indexed container whose parent chain ends and consists of
    containers, with a child that is an object and neither the container
    nor one of its ancestors: [push(control)] returns and appends, so
    that the array is one longer, the new child is at the old length, and
    the children before it are where they were; [insert(index, control)]
    with an index from 0 to the length returns and places the child at
    [index], so that the children before that position stay and those
    from it on move up by one. *)
Theorem push_insert_place fuel this index c s n controls nc l :
  heap s !! this = Some n → kind n = KControlArray controls →
  heap s !! c = Some nc →
  chain (shape (heap s)) this l → containers (shape (heap s)) l →
  c ∉ this :: l → length l < fuel →
  (∃ s',
     ControlArray_push fuel this c s = Ok (tt, s') ∧
     ControlArray_length (heap s') this = Some (S (length controls)) ∧
     ControlArray_at (heap s') this (Z.of_nat (length controls)) = Some c ∧
     ∀ i : nat, i < length controls →
       ControlArray_at (heap s') this (Z.of_nat i) = controls !! i) ∧
  ((0 ≤ index ≤ Z.of_nat (length controls))%Z →
   ∃ s',
     ControlArray_insert fuel this index c s = Ok (tt, s') ∧
     ControlArray_length (heap s') this = Some (S (length controls)) ∧
     ControlArray_at (heap s') this index = Some c ∧
     (∀ i : nat, (Z.of_nat i < index)%Z →
        ControlArray_at (heap s') this (Z.of_nat i) = controls !! i) ∧
     (∀ i : nat, (index ≤ Z.of_nat i)%Z →
        ControlArray_at (heap s') this (Z.of_nat (S i)) = controls !! i)).
Proof.
  intros Hn Hk Hnc Hc Hcont Hcl Hfuel.
  assert (c ≠ this) as Hct by (intros ->; apply Hcl; by left).
  assert (∀ k', heap (restructured s this n k') !! c = Some nc) as Hc1.
  { intros k'. unfold restructured. cbn [heap]. by rewrite lookup_insert_ne. }
  split.
  - destruct (adopted_returns fuel this c s n nc (KControlArray (controls ++ [c])) l
                Hn eq_refl (Hc1 _) Hc Hcont Hcl Hfuel) as [s' Hrun].
    exists s'.
    split; [by rewrite (ControlArray_push_eq fuel this c s n controls nc Hn Hk (Hc1 _))|].
    destruct (reparented_array this c s n nc (controls ++ [c]) Hn (Hc1 _))
      as (n1 & Hn1 & Hk1).
    destruct (array_after_walk _ _ _ _ _ _ Hn1 Hk1 Hrun) as (n' & Hn' & Hk' & _).
    destruct (array_at_length _ _ _ _ Hn' Hk') as (Hlen' & Hat' & _).
    rewrite Hlen', !Hat'. split_and!.
    + by rewrite length_app, Nat.add_1_r.
    + by rewrite list_lookup_middle.
    + intros i Hi. rewrite Hat'. by apply lookup_app_l.
  - intros Hrange.
    set (i0 := Z.to_nat index).
    destruct (adopted_returns fuel this c s n nc
                (KControlArray (take i0 controls ++ c :: drop i0 controls)) l
                Hn eq_refl (Hc1 _) Hc Hcont Hcl Hfuel) as [s' Hrun].
    exists s'.
    split; [by rewrite (ControlArray_insert_eq fuel this index c s n controls nc
                          Hn Hk Hrange (Hc1 _))|].
    destruct (reparented_array this c s n nc (take i0 controls ++ c :: drop i0 controls)
                Hn (Hc1 _)) as (n1 & Hn1 & Hk1).
    destruct (array_after_walk _ _ _ _ _ _ Hn1 Hk1 Hrun) as (n' & Hn' & Hk' & _).
    destruct (array_at_length _ _ _ _ Hn' Hk') as (Hlen' & Hat' & Hatz).
    destruct (insert_lookup controls i0 c) as (Hl & Hmid & Hlt & Hge); [unfold i0; lia|].
    rewrite Hlen', Hl. split_and!; [done| | |].
    + rewrite Hatz, bool_decide_eq_true_2 by lia. exact Hmid.
    + intros i Hi. rewrite Hat'. apply Hlt. unfold i0. lia.
    + intros i Hi. rewrite Hat'. apply Hge. unfold i0. lia.
Qed.

(** X7. On an indexed container whose parent chain ends and consists of
    containers, [removeAt(index)] with the index of a child returns,
    drops the child at [index] and moves the later ones down by one: the
    array is one shorter. *)
Theorem removeAt_shifts fuel this index s n controls l :
  heap s !! this = Some n → kind n = KControlArray controls →
  chain (shape (heap s)) this l → containers (shape (heap s)) l →
  length l < fuel →
  (0 ≤ index < Z.of_nat (length controls))%Z →
  ∃ s',
    ControlArray_removeAt fuel this index s = Ok (tt, s') ∧
    ControlArray_length (heap s') this = Some (length controls - 1) ∧
    (∀ i : nat, (Z.of_nat i < index)%Z →
       ControlArray_at (heap s') this (Z.of_nat i) = controls !! i) ∧
    (∀ i : nat, (index ≤ Z.of_nat i)%Z →
       ControlArray_at (heap s') this (Z.of_nat i) = controls !! S i).
Proof.
  intros Hn Hk Hc Hcont Hfuel Hrange.
  set (i0 := Z.to_nat index).
  destruct (restructured_returns fuel this s n (KControlArray (delete i0 controls)) l
              Hn eq_refl Hc Hcont Hfuel) as [s' Hrun].
  exists s'.
  split; [by rewrite (ControlArray_removeAt_eq fuel this index s n controls Hn Hk Hrange)|].
  assert (heap (restructured s this n (KControlArray (delete i0 controls))) !! this
          = Some (set_kind (KControlArray (delete i0 controls)) n))
    as Hn1 by apply lookup_insert_eq.
  destruct (array_after_walk _ _ _ _ _ _ Hn1 eq_refl Hrun) as (n' & Hn' & Hk' & _).
  destruct (array_at_length _ _ _ _ Hn' Hk') as (Hlen' & Hat' & _).
  rewrite Hlen'. split_and!.
  - f_equal. apply length_delete. apply lookup_lt_is_Some. unfold i0. lia.
  - intros i Hi. rewrite Hat'. apply list_lookup_delete_lt. unfold i0. lia.
  - intros i Hi. rewrite Hat'. apply list_lookup_delete_ge. unfold i0. lia.
Qed.

(** X8. On an indexed container whose parent chain ends and consists of
    containers, with a child that is an object and neither the container
    nor one of its ancestors, and an index from 0 to the length:
    [insert(index, control)] followed by [removeAt(index)] returns, and
    the children are again the ones there were, in the same places; but
    the child that came and went keeps the array as its parent. *)
Theorem insert_removeAt_roundtrip fuel this index c s n controls nc l :
  heap s !! this = Some n → kind n = KControlArray controls →
  heap s !! c = Some nc →
  chain (shape (heap s)) this l → containers (shape (heap s)) l →
  c ∉ this :: l → length l < fuel →
  (0 ≤ index ≤ Z.of_nat (length controls))%Z →
  ∃ s',
    run_ops fuel [Insert this index c; RemoveAt this index] s = Ok (tt, s') ∧
    ControlArray_length (heap s') this = Some (length controls) ∧
    (∀ z, ControlArray_at (heap s') this z = ControlArray_at (heap s) this z) ∧
    ∃ k, shape (heap s') !! c = Some (Some this, k).
Proof.
  intros Hn Hk Hnc Hc Hcont Hcl Hfuel Hrange.
  assert (c ≠ this) as Hct by (intros ->; apply Hcl; by left).
  set (i0 := Z.to_nat index).
  set (cs1 := take i0 controls ++ c :: drop i0 controls).
  assert (heap (restructured s this n (KControlArray cs1)) !! c = Some nc) as Hc1.
  { unfold restructured. cbn [heap]. by rewrite lookup_insert_ne. }
  destruct (adopted_returns fuel this c s n nc (KControlArray cs1) l
              Hn eq_refl Hc1 Hc Hcont Hcl Hfuel) as [s1 H1].
  destruct (reparented_array this c s n nc cs1 Hn Hc1) as (n1 & Hn1 & Hk1).
  destruct (array_after_walk _ _ _ _ _ _ Hn1 Hk1 H1)
    as (n1' & Hn1' & Hk1' & _ & _ & Hsh1 & _).
  pose proof H1 as Hwalk1.
  apply updateValue_inv in Hwalk1 as (l1 & Hcl1 & Hcont1 & Hfuel1 & _).
  rewrite <- Hsh1 in Hcl1, Hcont1.
  apply containers_cons in Hcont1 as [_ Hcont1].
  assert (length cs1 = S (length controls)) as Hlen1.
  { apply (insert_lookup controls i0 c). unfold i0. lia. }
  assert (delete i0 cs1 = controls) as Hround.
  { unfold cs1. rewrite <- (length_take_le controls i0) at 1 by (unfold i0; lia).
    by rewrite delete_middle, take_drop. }
  assert (0 ≤ index < Z.of_nat (length cs1))%Z as Hrange1 by lia.
  destruct (restructured_returns fuel this s1 n1' (KControlArray (delete i0 cs1)) l1
              Hn1' eq_refl Hcl1 Hcont1 Hfuel1) as [s2 H2].
  exists s2. split.
  { cbn [run_ops run_op]. rewrite run_bind.
    rewrite (ControlArray_insert_eq fuel this index c s n controls nc Hn Hk Hrange Hc1).
    fold i0 cs1. rewrite H1. cbn. rewrite run_bind.
    rewrite (ControlArray_removeAt_eq fuel this index s1 n1' cs1 Hn1' Hk1' Hrange1).
    fold i0. by rewrite H2. }
  assert (heap (restructured s1 this n1' (KControlArray (delete i0 cs1))) !! this
          = Some (set_kind (KControlArray (delete i0 cs1)) n1'))
    as Hn3 by apply lookup_insert_eq.
  destruct (array_after_walk _ _ _ _ _ _ Hn3 eq_refl H2)
    as (n' & Hn' & Hk' & _ & _ & Hsh2 & _).
  rewrite Hround in Hk'.
  destruct (array_at_length _ _ _ _ Hn Hk) as (_ & _ & Hat).
  destruct (array_at_length _ _ _ _ Hn' Hk') as (Hlen' & _ & Hat').
  split; [done|]. split.
  - intros z. by rewrite Hat, Hat'.
  - rewrite Hsh2.
    assert (shape (heap s1) !! c = Some (Some this, kind nc)) as Hshc.
    { rewrite Hsh1. apply shape_lookup. eexists. cbn. by rewrite lookup_insert_eq. }
    eexists. by rewrite shape_restructured_ne.
Qed.

(** X9. [removeAt] does not clear the parent link of the child it drops.
    On a tree, for an indexed container whose parent chain ends and
    consists of containers and a leaf that is its child at [index]:
    [removeAt(index)] returns, the leaf keeps the array as parent, and a
    later [updateValue] on the leaf returns and reaches the array, which
    emits right after the leaf and ends with the list of the values of
    the children that remain.  When the leaf is not among them, that is
    the list of the values they had: the new value of the leaf is not in
    it. *)
Theorem removed_child_still_propagates fuel this index c v s n controls l :
  wf_parents (shape (heap s)) →
  heap s !! this = Some n → kind n = KControlArray controls →
  chain (shape (heap s)) this l → containers (shape (heap s)) l →
  length l < fuel →
  ControlArray_at (heap s) this index = Some c →
  shape (heap s) !! c = Some (Some this, KControl) →
  ∃ s' s'' evs,
    ControlArray_removeAt fuel this index s = Ok (tt, s') ∧
    shape (heap s') !! c = Some (Some this, KControl) ∧
    Control_updateValue fuel c v s' = Ok (tt, s'') ∧
    emitted s'' = emitted s' ++ (c, v) :: (this, value_of (heap s'') this) :: evs ∧
    value_of (heap s'') this
      = JArr (value_of (heap s'') <$> delete (Z.to_nat index) controls) ∧
    (c ∉ delete (Z.to_nat index) controls →
     value_of (heap s'') this
       = JArr (value_of (heap s) <$> delete (Z.to_nat index) controls)).
Proof.
  intros Hwf Hn Hk Hc Hcont Hfuel Hat Hshc.
  destruct (array_at_length _ _ _ _ Hn Hk) as (_ & _ & Hatz). rewrite Hatz in Hat.
  case_bool_decide as Hpos; [|done].
  assert (0 ≤ index < Z.of_nat (length controls))%Z as Hrange.
  { apply lookup_lt_Some in Hat. lia. }
  assert (c ≠ this) as Hne.
  { intros ->. rewrite (shape_lookup_node _ _ _ Hn), Hk in Hshc. congruence. }
  remember (delete (Z.to_nat index) controls) as cs' eqn:Hcs'.
  remember (restructured s this n (KControlArray cs')) as s1 eqn:Hs1.
  destruct (restructured_returns fuel this s n (KControlArray cs') l
              Hn eq_refl Hc Hcont Hfuel) as [s' Hrun]. rewrite <- Hs1 in Hrun.
  assert (wf_parents (shape (heap s1))) as Hwf1.
  { rewrite Hs1. apply wf_restructured_sub; [done|done|]. intros x Hx.
    apply (wf_children _ this (_parent n) (kind n)); [done|by apply shape_lookup_node|].
    rewrite Hk. cbn in Hx |- *. rewrite Hcs' in Hx. by eapply list_elem_of_delete_inv. }
  assert (shape (heap s1) !! this = Some (_parent n, KControlArray cs')) as Hthis1
    by (rewrite Hs1; apply shape_restructured_eq).
  assert (∀ x, x ≠ this → heap s1 !! x = heap s !! x) as Hother.
  { intros x Hx. rewrite Hs1. unfold restructured. cbn [heap].
    by rewrite lookup_insert_ne. }
  assert (shape (heap s1) !! c = Some (Some this, KControl)) as Hc1
    by (rewrite Hs1, shape_restructured_ne; done).
  pose proof Hrun as Hwalk.
  apply updateValue_inv in Hwalk as (l1 & Hch & Hcont1 & Hfuel1 & Hs').
  assert (shape (heap s') = shape (heap s1)) as Hsh.
  { rewrite Hs'. apply shape_foldl_recompute_at. }
  assert (wf_parents (shape (heap s'))) as Hwf' by by rewrite Hsh.
  pose proof Hc1 as Hc'. rewrite <- Hsh in Hc'.
  pose proof Hc' as Hc''. apply shape_lookup in Hc'' as (nc & Hnc & _ & Hkc).
  assert (chain (shape (heap s')) c (this :: l1)) as Hchain.
  { rewrite Hsh. by eapply chain_step. }
  assert (containers (shape (heap s')) (this :: l1)) as Hcont' by by rewrite Hsh.
  assert (length (this :: l1) ≤ fuel) as Hfuel' by (cbn; lia).
  destruct (Control_updateValue_final fuel c v (this :: l1) s' nc
              Hnc Hkc Hchain Hcont' Hfuel') as (Hrun' & _ & Hem).
  remember (foldl recompute_at (assign_at s' c v) (this :: l1)) as s'' eqn:Hs''.
  assert (shape (heap s'') = shape (heap s1)) as Hsh''.
  { by rewrite Hs'', shape_foldl_recompute_at, shape_assign_at. }
  assert (∃ n'', heap s'' !! this = Some n'' ∧ kind n'' = KControlArray cs')
    as (n'' & Hn'' & Hk'').
  { rewrite <- Hsh'' in Hthis1.
    apply shape_lookup in Hthis1 as (n'' & Hn'' & _ & Hk''). eauto. }
  assert (value_of (heap s'') this = JArr (value_of (heap s'') <$> cs')) as Hval.
  { destruct (leaf_update_consistent fuel c v s' s'' Hwf' Hrun') as (l' & Hl' & Hat').
    assert (l' = this :: l1) as -> by by eapply chain_det.
    unfold value_of at 1. rewrite Hn''.
    apply (Hat' this); [|done|by rewrite Hk''].
    intros Hnin. exfalso. apply Hnin. right. by left. }
  exists s', s'', ((λ x, (x, value_of (heap s'') x)) <$> l1).
  split_and!; [|done|exact Hrun'|exact Hem|exact Hval|].
  - by rewrite (ControlArray_removeAt_eq fuel this index s n controls Hn Hk Hrange),
      <- Hcs', <- Hs1.
  - intros Hnin. rewrite Hval. f_equal. apply list_fmap_ext. intros i x Hx.
    apply list_elem_of_lookup_2 in Hx.
    assert (x ≠ c) as Hxc by (intros ->; done).
    assert (x ∉ this :: l1) as Hxl.
    { assert (fst <$> shape (heap s1) !! x = Some (Some this)) as Hpx
        by exact (wf_children _ this (_parent n) (KControlArray cs') x Hwf1 Hthis1 Hx).
      destruct (shape (heap s1) !! x) as [[px kx]|] eqn:Hshx; [|done].
      cbn in Hpx. injection Hpx as ->.
      exact (chain_child_not_in _ this l1 x kx Hch Hshx). }
    unfold value_of. rewrite Hs''.
    rewrite foldl_recompute_at_lookup_notin by done.
    rewrite assign_at_lookup_ne by done.
    rewrite Hs', foldl_recompute_at_lookup_notin by done.
    rewrite Hother; [done|]. intros ->. apply Hxl. by left.
Qed.
End ArrayChildren.

Lemma scenario_D_array :
  heap scenario_D !! 2
  = Some (mkNode (JArr [JNum 1; JNum 2]) (Some VALID) None true None
                 any_child_invalid (KControlArray [0; 1])) ∧
  heap scenario_D !! 3
  = Some (mkNode (JNum 3) (Some VALID) None true None accept_all KControl) ∧
  chain (shape (heap scenario_D)) 2 [] ∧
  containers (shape (heap scenario_D)) [] ∧ (3 ∉ [2]) ∧ length (@nil nat) < 1.
Proof.
  split_and!; [solve_lookup|solve_lookup| |apply Forall_nil_2| |cbn; lia].
  - apply (chain_root _ 2 (KControlArray [0; 1])). solve_lookup.
  - intros Hin. apply list_elem_of_singleton in Hin. discriminate Hin.
Defined.

Lemma push_insert_place_witness :
  (∃ s', ControlArray_push 1 2 3 scenario_D = Ok (tt, s') ∧
         ControlArray_length (heap s') 2 = Some 3 ∧
         ControlArray_at (heap s') 2 2 = Some 3) ∧
  (∃ s', ControlArray_insert 1 2 1 3 scenario_D = Ok (tt, s') ∧
         ControlArray_length (heap s') 2 = Some 3 ∧
         ControlArray_at (heap s') 2 1 = Some 3 ∧
         ControlArray_at (heap s') 2 2 = Some 1).
Proof.
  destruct scenario_D_array as (Ha & H3 & Hc & Hcont & Hcl & Hfuel).
  destruct (push_insert_place 1 2 1 3 scenario_D _ _ _ _ Ha eq_refl H3 Hc Hcont Hcl Hfuel)
    as [(s1 & Hrun1 & Hlen1 & Hlast1 & _) Hins].
  destruct Hins as (s2 & Hrun2 & Hlen2 & Hat2 & _ & Hup2); [cbn; lia|].
  split.
  - exists s1. split; [exact Hrun1|]. split; [exact Hlen1 | exact Hlast1].
  - exists s2. split; [exact Hrun2|]. split; [exact Hlen2|]. split; [exact Hat2|].
    apply (Hup2 1). lia.
Defined.

Lemma removeAt_shifts_witness :
  ∃ s', ControlArray_removeAt 1 2 0 scenario_D = Ok (tt, s') ∧
        ControlArray_length (heap s') 2 = Some 1 ∧
        ControlArray_at (heap s') 2 0 = Some 1.
Proof.
  destruct scenario_D_array as (Ha & _ & Hc & Hcont & _ & Hfuel).
  destruct (removeAt_shifts 1 2 0 scenario_D _ _ _ Ha eq_refl Hc Hcont Hfuel)
    as (s' & Hrun & Hlen & _ & Hdown); [cbn; lia|].
  exists s'. split; [exact Hrun|]. split; [exact Hlen|].
  apply (Hdown 0%nat). lia.
Defined.

Lemma insert_removeAt_roundtrip_witness :
  ∃ s', run_ops 1 [Insert 2 1 3; RemoveAt 2 1] scenario_D = Ok (tt, s') ∧
        ControlArray_length (heap s') 2 = Some 2 ∧
        ControlArray_at (heap s') 2 1 = Some 1.
Proof.
  destruct scenario_D_array as (Ha & H3 & Hc & Hcont & Hcl & Hfuel).
  destruct (insert_removeAt_roundtrip 1 2 1 3 scenario_D _ _ _ _
              Ha eq_refl H3 Hc Hcont Hcl Hfuel)
    as (s' & Hrun & Hlen & Hat & _); [cbn; lia|].
  exists s'. split; [exact Hrun|]. split; [exact Hlen|].
  rewrite Hat. vm_compute. reflexivity.
Defined.

Lemma removed_child_still_propagates_witness :
  ∃ s' s'' evs,
    ControlArray_removeAt 1 2 0 scenario_D = Ok (tt, s') ∧
    Control_updateValue 1 0 (JNum 7) s' = Ok (tt, s'') ∧
    emitted s'' = emitted s' ++ (0, JNum 7) :: (2, value_of (heap s'') 2) :: evs ∧
    value_of (heap s'') 2 = JArr [JNum 2].
Proof.
  destruct scenario_D_array as (Ha & _ & Hc & Hcont & _ & Hfuel).
  assert (wf_parents (shape (heap scenario_D))) as Hwf.
  { apply (bool_decide_unpack _). vm_compute. exact I. }
  assert (ControlArray_at (heap scenario_D) 2 0 = Some 0) as Hat
    by (vm_compute; reflexivity).
  assert (shape (heap scenario_D) !! 0 = Some (Some 2, KControl)) as Hc0 by solve_lookup.
  destruct (removed_child_still_propagates 1 2 0 0 (JNum 7) scenario_D _ _ _
              Hwf Ha eq_refl Hc Hcont Hfuel Hat Hc0)
    as (s' & s'' & evs & Hrun & _ & Hrun' & Hem & _ & Hval).
  exists s', s'', evs. split; [exact Hrun|]. split; [exact Hrun'|].
  split; [exact Hem|]. rewrite Hval; [vm_compute; reflexivity|].
  intros Hin. apply list_elem_of_singleton in Hin. discriminate Hin.
Defined.

(** ** The value along a path *)

Section ValueAt.
Context {Fn : Type} `{!Callable Fn}.
Implicit Types (h : gmap nat (Node Fn)).

Lemma value_at_walk proto h this (path : list string) :
  heap_consistent h → visible proto h this path = true →
  ∃ r, foldl (find_step proto h) (Some (FControl this)) path = Some (FControl r) ∧
       value_at (value_of h this) path = Some (value_of h r).
Proof.
  intros Hcons. revert this. induction path as [|name rest IH]; intros this Hvis.
  - by exists this.
  - cbn [visible] in Hvis. apply andb_true_iff in Hvis as [Hcont Hrest].
    unfold ControlGroup_contains in Hcont.
    destruct (h !! this) as [n|] eqn:Hn; cbn in Hcont; [|done].
    destruct (kind n) as [|controls opt|] eqn:Hk; try done.
    apply andb_true_iff in Hcont as [Hhas Hincl].
    destruct (controls !! name) as [c|] eqn:Hcn; [|done].
    rewrite (find_step_own proto h this n controls opt name c Hn Hk Hcn) in Hrest.
    destruct (IH c Hrest) as (r & Hfind & Hval). exists r. split.
    + cbn [foldl].
      by rewrite (find_step_own proto h this n controls opt name c Hn Hk Hcn).
    + cbn [value_at]. unfold value_of at 1. rewrite Hn.
      rewrite (Hcons this n (ControlGroup__reduceValue h controls opt) Hn)
        by by rewrite Hk.
      rewrite ControlGroup__reduceValue_lookup, Hcn, Hincl. done.
Qed.

(** X22. [find] and the aggregated value agree.  On a store whose
    containers' values are what their children aggregate to, for a
    [ControlGroup] receiver and whatever the prototype of the [controls]
    objects holds, a path whose every name is contained in the group it
    is looked up in leads [find] to a control, and reading the receiver's
    value along the same path ([group.value.a.b]) gives that control's
    value. *)
Theorem value_at_found_path proto h this n controls _optionals (path : list string) :
  heap_consistent h →
  h !! this = Some n → kind n = KControlGroup controls _optionals →
  visible proto h this path = true →
  ∃ r, ControlGroup_find proto h this (PathList path) = Ok (Some (FControl r)) ∧
       value_at (value_of h this) path = Some (value_of h r).
Proof.
  intros Hcons Hn Hk Hvis.
  destruct (value_at_walk proto h this path Hcons Hvis) as (r & Hfind & Hval).
  exists r. split; [|done].
  by rewrite (ControlGroup_find_group proto h this n controls _optionals path Hn Hk), Hfind.
Qed.
End ValueAt.

Lemma value_at_found_path_witness :
  ControlGroup_find Object_prototype (heap three_levels) 2 (PathList ["b"; "a"])
    = Ok (Some (FControl 0)) ∧
  value_at (value_of (heap three_levels) 2) ["b"; "a"] = Some (JNum 1).
Proof.
  destruct (heap three_levels !! 2) as [n|] eqn:Hn;
    [|exfalso; vm_compute in Hn; discriminate Hn].
  destruct (kind n) as [|controls opt|cs] eqn:Hk;
    [exfalso; vm_compute in Hn; injection Hn as <-; discriminate Hk
    | |exfalso; vm_compute in Hn; injection Hn as <-; discriminate Hk].
  destruct (value_at_found_path Object_prototype (heap three_levels) 2 n controls opt
              ["b"; "a"] three_levels_consistent Hn Hk)
    as (r & Hfind & Hval); [vm_compute; reflexivity|].
  assert (r = 0) as ->.
  { vm_compute in Hfind. by injection Hfind as <-. }
  split; [exact Hfind|]. rewrite Hval. vm_compute. reflexivity.
Defined.
